(** * Earnings extractor: the extraction orchestration engine

    A shallow embedding of the control logic of the repository:

    - [Js]         JavaScript strings as sequences of UTF-16 code units,
                   truthiness, [trim] and the string helpers used;
    - [Num]        JavaScript numbers as IEEE 754 binary64 values
                   (Stdlib's [SpecFloat]) and [parseFloat];
    - [Extractor]  lib/llm-extractor.ts: [needsFallback], [withRetry] and
                   [extractFromPDF];
    - [Semaphore]  the [Semaphore] class of lib/llm-extractor.ts, as the
                   atomic steps of its calls;
    - [Batch]      lib/concurrency.ts: [processBatch], as the steps of its
                   workers, and the answer of the batch route;
    - [RateLimit]  lib/rate-limit.ts: [checkRateLimit] and the cleanup
                   timer over a finite map of entries;
    - [Parser]     [parseResponse] of lib/llm-extractor.ts, with
                   [JSON.parse];
    - [Tiers]      [extractFromText] and [extractFromFullPDF], as one call
                   sees them;
    - [Validator]  lib/validator.ts: [parseFinancialString] and
                   [validateExtraction];
    - [Legacy]     the numeric fields of the earlier llm-extractor;
    - [Auth]       lib/auth.ts and the routes of app/api/auth;
    - [Proxy]      proxy.ts, the guard in front of every route;
    - [ExportRoute] app/api/export/route.ts with lib/constants.ts;
    - [Route]      app/api/extract/route.ts;
    - [Client]     [friendlyError] and the upload of app/page.tsx.

    The definitions come first; the facts about them follow, one module
    of facts or more for each module of definitions.

    Where the sources hold several revisions of one file, the revision
    embedded is the latest: the llm-extractor with the two semaphores and
    the retry loop, the validator over string fields, the export over
    [FIELDS], the route for one file, the page that sends one request for
    each file.  Of earlier revisions, the worker pool of lib/concurrency.ts
    with the checks of its route, the limiter of the proxy and the numeric
    fields of the first llm-extractor are embedded as well. *)

From Stdlib Require Import ZArith NArith List Bool Ascii String Lia SpecFloat.
From Stdlib Require Import DecimalString.
From stdpp Require Import gmap list.
Import ListNotations.

Local Open Scope Z_scope.

(** ** Results of fallible calls *)

Inductive result (E A : Type) : Type :=
| Ok (a : A)
| Err (e : E).
Arguments Ok {E A} a.
Arguments Err {E A} e.

Definition is_ok {E A} (r : result E A) : bool :=
  match r with Ok _ => true | Err _ => false end.

(** ** JavaScript strings *)

Module Js.

(** A string is its sequence of UTF-16 code units; [length] is the
    JavaScript [.length]. *)
Abbreviation str := (list N).

Definition lit (s : string) : str :=
  map N_of_ascii (list_ascii_of_string s).

(** [WhiteSpace] and [LineTerminator] of ECMAScript: what [trim] strips
    and what [\s] matches. *)
Definition isWhiteSpace (c : N) : bool :=
  ((9 <=? c) && (c <=? 13) || (c =? 32) || (c =? 160) || (c =? 5760)
   || (8192 <=? c) && (c <=? 8202) || (c =? 8232) || (c =? 8233)
   || (c =? 8239) || (c =? 8287) || (c =? 12288) || (c =? 65279))%N.

Fixpoint trimStart (s : str) : str :=
  match s with
  | c :: r => if isWhiteSpace c then trimStart r else s
  | [] => []
  end.

Definition trimEnd (s : str) : str := rev (trimStart (rev s)).

Definition trim (s : str) : str := trimEnd (trimStart s).

(** [!!v] for a [string | null] value: null, undefined and the empty
    string are falsy. *)
Definition truthy (v : option str) : bool :=
  match v with
  | Some (_ :: _) => true
  | _ => false
  end.

(** [v !== null && v !== undefined]. *)
Definition notNullish {A} (v : option A) : bool :=
  match v with Some _ => true | None => false end.

Definition eqb (a b : str) : bool := bool_decide (a = b).

(** [s.endsWith(c)] for a one-unit [c]. *)
Definition endsWithChar (c : N) (s : str) : bool :=
  match rev s with
  | d :: _ => (c =? d)%N
  | [] => false
  end.

(** [s.slice(0, -1)]. *)
Definition dropLast (s : str) : str := removelast s.

(** [s.replace(/[...]/g, "")] for a character class [cls]. *)
Definition removeAll (cls : N -> bool) (s : str) : str :=
  List.filter (fun c => negb (cls c)) s.

(** [toLowerCase], as far as the letters A..Z go.  The only use is in
    front of a match against ASCII letters and digits; no code unit
    outside A..Z lower-cases to one of those letters alone, so the
    outcome of that match is the one of the full Unicode mapping. *)
Definition lowerChar (c : N) : N :=
  if ((65 <=? c) && (c <=? 90))%N then (c + 32)%N else c.

Definition toLowerCase (s : str) : str := map lowerChar s.

End Js.

(** ** The extraction record (lib/types.ts, all fields [string | null]) *)

Record ExtractedData : Type := mkData {
  company_name : option Js.str;
  quarter : option Js.str;
  total_revenue : option Js.str;
  earnings_per_share : option Js.str;
  net_income : option Js.str;
  operating_income : option Js.str;
  gross_margin : option Js.str;
  operating_expenses : option Js.str;
  buybacks_and_dividends : option Js.str
}.

(** The values of [FINANCIAL_FIELDS], in the order of the constant. *)
Definition FINANCIAL_FIELDS (data : ExtractedData) : list (option Js.str) :=
  [ total_revenue data; earnings_per_share data; net_income data;
    operating_income data; gross_margin data; operating_expenses data;
    buybacks_and_dividends data ].

(** What a rejected promise carries: an [Anthropic.APIError] with its HTTP
    status, or any other thrown [Error]. *)
Inductive thrown : Type :=
| APIError (status : Z) (message : Js.str)
| JsError (message : Js.str).

(** ** Effects: state passing over the outside world, with a log

    A computation takes the state [W] of everything outside the function
    (the oracle, the text extractor) and returns its result, the new state
    and the calls it made, in order. *)

Section Effects.
Context {W L : Type}.

Definition M (A : Type) : Type := W -> result thrown A * W * list L.

Definition ret {A} (a : A) : M A := fun w => (Ok a, w, []).

Definition throw {A} (e : thrown) : M A := fun w => (Err e, w, []).

Definition bind {A B} (m : M A) (k : A -> M B) : M B := fun w =>
  match m w with
  | (Ok a, w1, l1) => let '(r, w2, l2) := k a w1 in (r, w2, l1 ++ l2)
  | (Err e, w1, l1) => (Err e, w1, l1)
  end.

(** [try { m } catch (error) { h error }]. *)
Definition tryCatch {A} (m : M A) (h : thrown -> M A) : M A := fun w =>
  match m w with
  | (Ok a, w1, l1) => (Ok a, w1, l1)
  | (Err e, w1, l1) => let '(r, w2, l2) := h e w1 in (r, w2, l1 ++ l2)
  end.

(** One call of a collaborator [f], logged as [ev]. *)
Definition call {A} (ev : L) (f : W -> result thrown A * W) : M A := fun w =>
  let '(r, w1) := f w in (r, w1, [ev]).

Definition emit (ev : L) : M unit := fun w => (Ok tt, w, [ev]).

Definition outcome {A} (x : result thrown A * W * list L) : result thrown A :=
  fst (fst x).
Definition world {A} (x : result thrown A * W * list L) : W := snd (fst x).
Definition log {A} (x : result thrown A * W * list L) : list L := snd x.
End Effects.

Notation "'let*' x ':=' m 'in' k" := (bind m (fun x => k))
  (at level 10, x name, m at level 100, k at level 200, only parsing).
Notation "'run*' m 'in' k" := (bind m (fun _ => k))
  (at level 10, m at level 100, k at level 200, only parsing).


(** ** JavaScript numbers

    A number is an IEEE 754 binary64 value: Stdlib's [spec_float] with
    53 bits of precision, rounding to nearest even. *)

Module Num.

Definition prec : Z := 53.
Definition emax : Z := 1024.

Abbreviation t := spec_float.

Definition NaN : t := S754_nan.

(** The number nearest to an integer. *)
Definition ofZ (z : Z) : t := binary_normalize prec emax z 0 false.

Definition mul (x y : t) : t := SFmul prec emax x y.
Definition div (x y : t) : t := SFdiv prec emax x y.
Definition abs (x : t) : t := SFabs x.

(** [x < y] and [x > y]; both are false when an operand is NaN. *)
Definition ltb (x y : t) : bool := SFltb x y.
Definition gtb (x y : t) : bool := SFltb y x.

(** [x === y] on numbers: false when an operand is NaN, true for the two
    zeros. *)
Definition eqb (x y : t) : bool := SFeqb x y.

Definition isNaN (x : t) : bool :=
  match x with
  | S754_nan => true
  | _ => false
  end.

(** The number nearest to [mantissa * 10 ^ exponent10], with the sign
    [negative]: the value of a decimal literal. *)
Definition ofDecimal (negative : bool) (mantissa : N) (exponent10 : Z) : t :=
  match mantissa with
  | N0 => S754_zero negative
  | Npos m =>
      if 0 <=? exponent10
      then binary_round prec emax negative (m * Z.to_pos (10 ^ exponent10)) 0
      else div (S754_finite negative m 0)
               (S754_finite false (Z.to_pos (10 ^ (- exponent10))) 0)
  end.

Definition isDigit (c : N) : bool := ((48 <=? c) && (c <=? 57))%N.

(** The longest run of decimal digits at the front of [s], and the rest. *)
Fixpoint spanDigits (s : Js.str) : Js.str * Js.str :=
  match s with
  | c :: r =>
      if isDigit c then let '(ds, rest) := spanDigits r in (c :: ds, rest)
      else ([], s)
  | [] => ([], [])
  end.

(** The integer that a run of digits writes. *)
Definition digitsValue (ds : Js.str) : N :=
  fold_left (fun acc c => (acc * 10 + (c - 48))%N) ds 0%N.

Definition startsWith (p s : Js.str) : bool :=
  bool_decide (take (length p) s = p).

(** A leading [+] or [-]: whether the sign is negative, and the rest. *)
Definition spanSign (s : Js.str) : bool * Js.str :=
  match s with
  | 43%N :: r => (false, r)
  | 45%N :: r => (true, r)
  | _ => (false, s)
  end.

(** An [ExponentPart] at the front of [s], 0 when there is none. *)
Definition exponentPart (s : Js.str) : Z :=
  match s with
  | c :: r =>
      if ((c =? 101) || (c =? 69))%N then
        let '(negative, r') := spanSign r in
        match fst (spanDigits r') with
        | [] => 0
        | ds => if negative then - Z.of_N (digitsValue ds)
                else Z.of_N (digitsValue ds)
        end
      else 0
  | [] => 0
  end.

(** [parseFloat(s)]: the number written by the longest prefix of [s],
    leading white space skipped, that is a [StrDecimalLiteral]; NaN when
    no prefix is one. *)
Definition parseFloat (s : Js.str) : t :=
  let '(negative, s1) := spanSign (Js.trimStart s) in
  if startsWith (Js.lit "Infinity") s1 then S754_infinity negative
  else
    let '(intDigits, s2) := spanDigits s1 in
    let '(fracDigits, s3) :=
      match s2 with
      | 46%N :: r => spanDigits r
      | _ => ([], s2)
      end in
    match intDigits ++ fracDigits with
    | [] => NaN
    | ds =>
        ofDecimal negative (digitsValue ds)
                  (exponentPart s3 - Z.of_nat (length fracDigits))
    end.

End Num.
(** ** lib/llm-extractor.ts *)

Module Extractor.

Definition TEXT_CONCURRENCY : Z := 3.
Definition VISION_CONCURRENCY : Z := 1.
Definition POST_VISION_DELAY_MS : Z := 5000.
Definition RETRY_MAX_ATTEMPTS : Z := 4.
Definition RETRY_BASE_DELAY_MS : Z := 15000.
Definition RETRY_JITTER_MS : Z := 5000.
Definition MIN_TEXT_LENGTH : nat := 100.

(** [FINANCIAL_FIELDS.filter(f => data[f] !== null && data[f] !== undefined).length] *)
Definition foundCount (data : ExtractedData) : nat :=
  length (List.filter Js.notNullish (FINANCIAL_FIELDS data)).

Definition needsFallback (data : ExtractedData) : bool :=
  if negb (Js.truthy (company_name data)) then true
  else (foundCount data <? 2)%nat.

(** The same function in the earlier revision kept as
    src/src/lib/llm-extractor.ts (no pools, no retry): it counts the
    nulls and falls back from four of them on. *)
Definition needsFallback_v1 (data : ExtractedData) : bool :=
  if negb (Js.truthy (company_name data)) then true
  else (4 <=? length (List.filter (fun f => negb (Js.notNullish f))
                                   (FINANCIAL_FIELDS data)))%nat.

Definition isRateLimit (error : thrown) : bool :=
  match error with
  | APIError status _ => status =? 429
  | JsError _ => false
  end.

(** Decimal digits of an integer status, as [String(status)] gives. *)
Definition showZ (z : Z) : Js.str :=
  Js.lit (NilZero.string_of_int (Z.to_int z)).

(** What [throwAPIError] throws. *)
Definition apiError (error : thrown) : thrown :=
  match error with
  | APIError status message =>
      if status =? 401 then
        JsError (Js.lit "Invalid Anthropic API key. Check your ANTHROPIC_API_KEY environment variable.")
      else if status =? 400 then
        JsError (Js.lit "Claude API request error: " ++ message)
      else
        JsError (Js.lit "Claude API error (" ++ showZ status ++ Js.lit "): " ++ message)
  | JsError _ => error
  end.

(** What [withRetry] does to the outside: it invokes [fn], and it waits
    ([ms] is the deterministic part [RETRY_BASE_DELAY_MS * attempt] of the
    delay; the jitter [Math.random() * RETRY_JITTER_MS] comes on top). *)
Inductive retryEvent : Type :=
| Invoke
| Wait (ms : Z).

Section Retry.
Context {W T : Type}.
Variable fn : W -> result thrown T * W.

Definition throwAPIError (error : thrown) : @M W retryEvent T :=
  throw (apiError error).

(** The [for] loop from [attempt] on; [left] is the number of
    iterations that [attempt <= maxAttempts] still lets through.  After
    the last of them the loop is left and "Max retries exceeded" is
    thrown. *)
Fixpoint retryFrom (maxAttempts attempt : Z) (left : nat) : @M W retryEvent T :=
  match left with
  | O => throw (JsError (Js.lit "Max retries exceeded"))
  | S left' =>
      tryCatch (call Invoke fn) (fun error =>
        if isRateLimit error && (attempt <? maxAttempts) then
          run* emit (Wait (RETRY_BASE_DELAY_MS * attempt)) in
          retryFrom maxAttempts (attempt + 1) left'
        else throwAPIError error)
  end.

Definition withRetry (maxAttempts : Z) : @M W retryEvent T :=
  retryFrom maxAttempts 1 (Z.to_nat maxAttempts).

Definition invocations (l : list retryEvent) : nat :=
  length (List.filter (fun e => match e with Invoke => true | _ => false end) l).
End Retry.

(** What [extractFromPDF] calls, in order. *)
Inductive tierEvent (Buffer : Type) : Type :=
| TextExtractor (pdf : Buffer)
| CheapTier (text : Js.str)
| ExpensiveTier (pdf : Buffer).
Arguments TextExtractor {Buffer} pdf.
Arguments CheapTier {Buffer} text.
Arguments ExpensiveTier {Buffer} pdf.

Section Strategy.
Context {W Buffer : Type}.
(** The collaborators: [extractTextFromPDF] of lib/pdf-parser.ts, and the
    two oracle paths, [extractFromText] ([textSemaphore.run] of
    [withRetry] of the text prompt) and [extractFromFullPDF]
    ([visionSemaphore.run] of [withRetry] of the document prompt and of
    the hold of [POST_VISION_DELAY_MS]), each with the result it gives in
    the state of the world it is called in. *)
Variable extractTextFromPDF : Buffer -> W -> result thrown Js.str * W.
Variable extractFromText : Js.str -> W -> result thrown ExtractedData * W.
Variable extractFromFullPDF : Buffer -> W -> result thrown ExtractedData * W.

Definition extractFromPDF (pdfBuffer : Buffer)
  : @M W (tierEvent Buffer) ExtractedData :=
  (* try { text = await extractTextFromPDF(pdfBuffer) } catch { ... } *)
  let* text :=
    tryCatch
      (let* t := call (TextExtractor pdfBuffer) (extractTextFromPDF pdfBuffer) in
       ret (Some t))
      (fun _ => ret None) in
  match text with
  | None => call (ExpensiveTier pdfBuffer) (extractFromFullPDF pdfBuffer)
  | Some text =>
      if (length (Js.trim text) <? MIN_TEXT_LENGTH)%nat then
        call (ExpensiveTier pdfBuffer) (extractFromFullPDF pdfBuffer)
      else
        let* result := call (CheapTier text) (extractFromText text) in
        if needsFallback result then
          call (ExpensiveTier pdfBuffer) (extractFromFullPDF pdfBuffer)
        else ret result
  end.
End Strategy.

End Extractor.

(** ** The sufficiency test, in the words of the specification

    A record of the cheap tier is insufficient when the company
    identifier is absent, or when fewer than two of the seven other
    financial fields are present.  The seven fields are named one by
    one, and a field is present when it holds a value; nothing of
    [needsFallback] or of [FINANCIAL_FIELDS] is used. *)

Module Sufficiency.

Definition present (field : option Js.str) : nat :=
  match field with
  | Some _ => 1
  | None => 0
  end.

Definition fieldsPresent (data : ExtractedData) : nat :=
  present (total_revenue data) + present (earnings_per_share data)
  + present (net_income data) + present (operating_income data)
  + present (gross_margin data) + present (operating_expenses data)
  + present (buybacks_and_dividends data).

End Sufficiency.

(** ** The concurrency pool: [class Semaphore] of lib/llm-extractor.ts

    [run(fn)] is an async function; between two of its [await]s it runs
    without interruption, so one call of [run] is three atomic steps:

    - entering: the test [running >= concurrency]; either the resolver is
      pushed on [queue] and the call suspends, or [running++] and [fn()]
      starts;
    - resuming, for a call that was suspended and whose resolver has been
      called: [running++] and [fn()] starts.  Calling the resolver only
      schedules this continuation as a promise job: it runs after the job
      that called it has ended and after the jobs that were queued before;
    - finishing, when the promise of [fn()] has settled (the [finally]
      block): [running--], then [queue.shift()?.()].

    The steps of different calls interleave in any order the event loop
    allows; a call is named by a number. *)

Module Semaphore.

Record state : Type := mkState {
  running : Z;
  queue : list nat;    (* suspended calls, oldest resolver first *)
  woken : list nat;    (* resolver called, continuation not yet run *)
  holders : list nat   (* past [running++], [fn] in flight *)
}.

Definition init : state :=
  {| running := 0; queue := []; woken := []; holders := [] |}.

Inductive action : Type :=
| Enter (j : nat)
| Resume (j : nat)
| Finish (j : nat).

Definition known (s : state) (j : nat) : bool :=
  bool_decide (j ∈ queue s ++ woken s ++ holders s).

Definition remove (j : nat) (l : list nat) : list nat :=
  List.filter (fun k => negb (Nat.eqb k j)) l.

(** One atomic step, [None] when the event loop cannot take it in [s]. *)
Definition step (concurrency : Z) (s : state) (a : action) : option state :=
  match a with
  | Enter j =>
      if known s j then None
      else if concurrency <=? running s then
        Some {| running := running s; queue := queue s ++ [j];
                woken := woken s; holders := holders s |}
      else
        Some {| running := running s + 1; queue := queue s;
                woken := woken s; holders := holders s ++ [j] |}
  | Resume j =>
      match woken s with
      | k :: rest =>
          if Nat.eqb j k then
            Some {| running := running s + 1; queue := queue s;
                    woken := rest; holders := holders s ++ [j] |}
          else None
      | [] => None
      end
  | Finish j =>
      if bool_decide (j ∈ holders s) then
        match queue s with
        | k :: rest =>
            Some {| running := running s - 1; queue := rest;
                    woken := woken s ++ [k]; holders := remove j (holders s) |}
        | [] =>
            Some {| running := running s - 1; queue := [];
                    woken := woken s; holders := remove j (holders s) |}
        end
      else None
  end.

(** A run of the event loop: every action of the list is taken in turn. *)
Fixpoint exec (concurrency : Z) (s : state) (l : list action) : option state :=
  match l with
  | [] => Some s
  | a :: l' =>
      match step concurrency s a with
      | Some s' => exec concurrency s' l'
      | None => None
      end
  end.

Definition reachable (concurrency : Z) (s : state) : Prop :=
  exists l, exec concurrency init l = Some s.

(** The calls whose [fn] is in flight: the outstanding acquisitions. *)
Definition outstanding (s : state) : nat := length (holders s).

(** The calls [first, first + n), entering one after the other. *)
Fixpoint enters (first n : nat) : list action :=
  match n with
  | O => []
  | S n' => Enter first :: enters (S first) n'
  end.

Definition noFinish (l : list action) : Prop :=
  forall j, Finish j ∉ l.

(** The trace that breaks the bound of the serialized pool: call 1 holds
    the slot, call 2 waits, call 1 finishes (the counter drops to 0 and
    the resolver of call 2 is called), call 3 enters before the
    continuation of call 2 has run and passes the test, then call 2
    resumes. *)
Definition overrun_1 : list action :=
  [Enter 1; Enter 2; Finish 1; Enter 3; Resume 2]%nat.

(** The same with the pool of three. *)
Definition overrun_3 : list action :=
  [Enter 1; Enter 2; Enter 3; Enter 4; Finish 1; Enter 5; Resume 4]%nat.

(** The releases along a trace: the calls that finish. *)
Definition releases (l : list action) : nat :=
  length (List.filter (fun a => match a with Finish _ => true | _ => false end) l).

(** No call is in two places, and the counter is the number of calls in
    flight. *)
Definition wf (s : state) : Prop :=
  NoDup (queue s ++ woken s ++ holders s) /\
  running s = Z.of_nat (length (holders s)).

(** A waiting call is never left alone. *)
Definition attended (s : state) : Prop :=
  queue s <> [] -> holders s <> [] \/ woken s <> [].

(** The calls that resume along a trace, in the order in which they do. *)
Definition resumes (l : list action) : list nat :=
  flat_map (fun a => match a with Resume j => [j] | _ => [] end) l.

(** The calls that find the pool full along a trace from [s] and have to
    wait, in the order in which they enter. *)
Fixpoint waiters (concurrency : Z) (s : state) (l : list action) : list nat :=
  match l with
  | [] => []
  | a :: l' =>
      match step concurrency s a with
      | Some s' =>
          match a with
          | Enter j =>
              if concurrency <=? running s
              then j :: waiters concurrency s' l'
              else waiters concurrency s' l'
          | _ => waiters concurrency s' l'
          end
      | None => []
      end
  end.

(** *** A program that takes that trace

    The promise jobs of one turn of the event loop, made explicit.  The
    jobs that concern the pool are the continuations of the calls of
    [run] and the callbacks that call [run]; the queue of jobs is first
    in, first out.  A call whose [fn] returns a promise that is settled
    already (an async function that does not wait) has its continuation,
    the [finally] block, queued by [await fn()] at once; the other calls
    stay in flight. *)

Inductive job : Type :=
| EnterJob (j : nat)     (* a callback that calls [run] *)
| ResumeJob (j : nat)    (* after [await new Promise(...)] of a waiter *)
| FinishJob (j : nat).   (* after [await fn()] *)

Record loop : Type := mkLoop {
  pool : state;
  jobs : list job;
  taken : list action     (* the steps of the pool so far, latest last *)
}.

Section Program.
Variable concurrency : Z.
(** Whether [fn()] of a call returns a settled promise. *)
Variable quick : nat -> bool.

(** One step of the pool inside a job; a step that the pool refuses
    leaves the loop as it is. *)
Definition take (a : action) (l : loop) : loop :=
  match step concurrency (pool l) a with
  | Some p => {| pool := p; jobs := jobs l; taken := taken l ++ [a] |}
  | None => l
  end.

Definition enqueue (b : job) (l : loop) : loop :=
  {| pool := pool l; jobs := jobs l ++ [b]; taken := taken l |}.

(** [fn()] has been called for [j]: [await fn()] queues the continuation
    when the promise is settled. *)
Definition started (j : nat) (l : loop) : loop :=
  if bool_decide (j ∈ holders (pool l)) && quick j
  then enqueue (FinishJob j) l
  else l.

(** A synchronous call [s.run(fn)], up to its first [await]. *)
Definition callRun (j : nat) (l : loop) : loop :=
  started j (take (Enter j) l).

(** The statements of the script that is running. *)
Inductive statement : Type :=
| Run (j : nat)       (* [s.run(fn)] *)
| Defer (j : nat).    (* [Promise.resolve().then(() => s.run(fn))] *)

Definition execute (st : statement) (l : loop) : loop :=
  match st with
  | Run j => callRun j l
  | Defer j => enqueue (EnterJob j) l
  end.

(** The job at the head of the queue runs to its end. *)
Definition tick (l : loop) : loop :=
  match jobs l with
  | [] => l
  | b :: rest =>
      let l' := {| pool := pool l; jobs := rest; taken := taken l |} in
      match b with
      | EnterJob j => callRun j l'
      | ResumeJob j => started j (take (Resume j) l')
      | FinishJob j =>
          let l'' := take (Finish j) l' in
          match queue (pool l') with
          | k :: _ =>
              if bool_decide (j ∈ holders (pool l'))
              then enqueue (ResumeJob k) l''
              else l''
          | [] => l''
          end
      end
  end.

(** The script runs to its end, then the jobs run until none is left
    ([fuel] jobs at most). *)
Fixpoint drain (fuel : nat) (l : loop) : loop :=
  match fuel with
  | O => l
  | S fuel' =>
      match jobs l with
      | [] => l
      | _ => drain fuel' (tick l)
      end
  end.

Definition runScript (script : list statement) (fuel : nat) : loop :=
  drain fuel
    (fold_left (fun l st => execute st l) script
               {| pool := init; jobs := []; taken := [] |}).

End Program.

(** [s.run(f1); s.run(f2); Promise.resolve().then(() => s.run(f3))],
    where [f1] does not wait and [f2], [f3] stay in flight. *)
Definition overrunScript : list statement := [Run 1; Run 2; Defer 3]%nat.
Definition overrunQuick (j : nat) : bool := Nat.eqb j 1.

End Semaphore.

(** ** The batch coordinator: [processBatch] of lib/concurrency.ts and the
    batch route (app/api/extract/route.ts)

    [fn(items[index])] is started when a worker takes [index]; its promise
    settles later, in an order the code does not control.  A step is the
    settling of one worker's pending call, followed by what that worker
    does until its next [await].  [Promise.all(workers)] settles the
    batch: it rejects with the first worker that rejects, and fulfils with
    [results] when every worker has returned. *)

Module Batch.

Inductive worker : Type :=
| Awaiting (index : nat)   (* in [await fn(items[index])] *)
| Returned                 (* the [while] loop ended *)
| Rejected.                (* [fn] threw: the worker's promise rejected *)

Section ProcessBatch.
Context {T R : Type}.
Variable items : list T.
(** How the promise [fn(item)] settles. *)
Variable fn : T -> result thrown R.
Variable concurrency : Z.

Record state : Type := mkState {
  nextIndex : nat;
  results : list (option R);        (* [new Array(n)]: [None] is a hole *)
  workers : list worker;
  settled : option (result thrown (list (option R)))
}.

(** [Math.min(concurrency, items.length)] as an array length. *)
Definition workerCount : nat :=
  Z.to_nat (Z.min concurrency (Z.of_nat (length items))).

(** The synchronous part of [worker()], from the loop test on. *)
Definition pull (s : state) : worker * nat :=
  if (nextIndex s <? length items)%nat
  then (Awaiting (nextIndex s), S (nextIndex s))
  else (Returned, nextIndex s).

Definition allReturned (ws : list worker) : bool :=
  forallb (fun w => match w with Returned => true | _ => false end) ws.

(** [Promise.all] fulfils once, when nothing has settled it before. *)
Definition settleAll (ws : list worker) (res : list (option R))
    (old : option (result thrown (list (option R))))
  : option (result thrown (list (option R))) :=
  match old with
  | Some _ => old
  | None => if allReturned ws then Some (Ok res) else None
  end.

Definition settleReject (e : thrown)
    (old : option (result thrown (list (option R))))
  : option (result thrown (list (option R))) :=
  match old with
  | Some _ => old
  | None => Some (Err e)
  end.

(** The calls still pending. *)
Definition pending (ws : list worker) : nat :=
  length (List.filter (fun w => match w with Awaiting _ => true | _ => false end) ws).

(** The workers are created one after the other; each runs up to its
    first [await] at once. *)
Fixpoint spawn (n : nat) (s : state) : state :=
  match n with
  | O => s
  | S n' =>
      let '(w, next) := pull s in
      spawn n' {| nextIndex := next; results := results s;
                  workers := workers s ++ [w]; settled := None |}
  end.

Definition init : state :=
  let s := spawn workerCount
             {| nextIndex := 0; results := replicate (length items) None;
                workers := []; settled := None |} in
  {| nextIndex := nextIndex s; results := results s; workers := workers s;
     settled := settleAll (workers s) (results s) None |}.

(** The pending call of worker [k] settles. *)
Definition complete (k : nat) (s : state) : option state :=
  match workers s !! k with
  | Some (Awaiting index) =>
      match items !! index with
      | None => None
      | Some item =>
          match fn item with
          | Ok r =>
              let res := <[index := Some r]> (results s) in
              let '(w, next) := pull s in
              let ws := <[k := w]> (workers s) in
              Some {| nextIndex := next; results := res; workers := ws;
                      settled := settleAll ws res (settled s) |}
          | Err e =>
              Some {| nextIndex := nextIndex s; results := results s;
                      workers := <[k := Rejected]> (workers s);
                      settled := settleReject e (settled s) |}
          end
      end
  | _ => None
  end.

Inductive step : state -> state -> Prop :=
| step_complete k s s' : complete k s = Some s' -> step s s'.

(** [steps n s s']: [s'] is reached from [s] by [n] completions. *)
Inductive steps : nat -> state -> state -> Prop :=
| steps_refl s : steps 0 s s
| steps_then n s s' s'' : steps n s s' -> step s' s'' -> steps (S n) s s''.

(** Nothing is pending any more. *)
Definition quiescent (s : state) : Prop :=
  forall k index, workers s !! k <> Some (Awaiting index).

(** What holds of every state of a batch. *)
Record inv (s : state) : Prop := mkInv {
  inv_results : length (results s) = length items;
  inv_next : (nextIndex s <= length items)%nat;
  inv_workers : length (workers s) = workerCount;
  inv_awaiting : forall k i, workers s !! k = Some (Awaiting i) ->
                             (i < nextIndex s)%nat;
  inv_returned : forall k, workers s !! k = Some Returned ->
                           nextIndex s = length items;
  inv_pulled : forall i item, (i < nextIndex s)%nat -> items !! i = Some item ->
      (exists k, workers s !! k = Some (Awaiting i)) \/
      (exists r, fn item = Ok r /\ results s !! i = Some (Some r)) \/
      ((exists e, fn item = Err e) /\ exists k, workers s !! k = Some Rejected);
  inv_settled :
      match settled s with
      | None => (forall k, workers s !! k <> Some Rejected) /\
                allReturned (workers s) = false
      | Some (Ok res) => allReturned (workers s) = true /\ res = results s
      | Some (Err e) => (exists k, workers s !! k = Some Rejected) /\
                        exists item, item ∈ items /\ fn item = Err e
      end
}.

(** What a slot of [results] holds. *)
Definition sound (s : state) : Prop :=
  forall i r, results s !! i = Some (Some r) ->
  exists item, items !! i = Some item /\ fn item = Ok r.

(** A run along a schedule: the worker whose call settles next, in turn. *)
Fixpoint run (schedule : list nat) (s : state) : option state :=
  match schedule with
  | [] => Some s
  | k :: rest =>
      match complete k s with
      | Some s' => run rest s'
      | None => None
      end
  end.

End ProcessBatch.

Arguments inv_results {T R items fn concurrency} s _.
Arguments inv_next {T R items fn concurrency} s _.
Arguments inv_workers {T R items fn concurrency} s _.
Arguments inv_awaiting {T R items fn concurrency} s _.
Arguments inv_returned {T R items fn concurrency} s _.
Arguments inv_pulled {T R items fn concurrency} s _.
Arguments inv_settled {T R items fn concurrency} s _.

(** What the batch route answers (lines 140-155): the list as JSON, or
    one error for the whole request. *)
Inductive response (R : Type) : Type :=
| Json200 (results : list (option R))
| Json500 (message : Js.str).
Arguments Json200 {R} results.
Arguments Json500 {R} message.

Definition errorMessage (e : thrown) : Js.str :=
  match e with
  | APIError _ message => message
  | JsError message => message
  end.

Definition respond {R} (o : result thrown (list (option R))) : response R :=
  match o with
  | Ok results => Json200 results
  | Err error => Json500 (errorMessage error)
  end.

End Batch.

(** ** The admission controller: lib/rate-limit.ts

    [store] is the module's [Map<string, Entry>]; an entry is its
    [timestamps] array.  [Date.now()] is passed in as [now]. *)

Module RateLimit.

(** A number that may be [NaN] ([WINDOW_MS - (now - undefined)]). *)
Inductive number : Type :=
| Num (z : Z)
| NaN.

Record RateLimitResult : Type := mkResult {
  allowed : bool;
  remaining : Z;
  retryAfterMs : option number    (* [None] is [null] *)
}.

Section Limiter.
(** [WINDOW_MS] and [MAX_REQUESTS], read from the environment once. *)
Variable WINDOW_MS : Z.
Variable MAX_REQUESTS : Z.

(** [timestamps.filter((t) => now - t < WINDOW_MS)] *)
Definition prune (now : Z) (timestamps : list Z) : list Z :=
  List.filter (fun t => now - t <? WINDOW_MS) timestamps.

Definition checkRateLimit (ip : Js.str) (now : Z) (store : gmap Js.str (list Z))
  : RateLimitResult * gmap Js.str (list Z) :=
  let entry := default [] (store !! ip) in
  let timestamps := prune now entry in
  if MAX_REQUESTS <=? Z.of_nat (length timestamps) then
    let retryAfterMs :=
      match timestamps with
      | oldest :: _ => Num (WINDOW_MS - (now - oldest))
      | [] => NaN
      end in
    ({| allowed := false; remaining := 0; retryAfterMs := Some retryAfterMs |},
     <[ip := timestamps]> store)
  else
    let timestamps' := timestamps ++ [now] in
    ({| allowed := true;
        remaining := MAX_REQUESTS - Z.of_nat (length timestamps');
        retryAfterMs := None |},
     <[ip := timestamps']> store).

(** The body of the cleanup timer. *)
Definition cleanup (now : Z) (store : gmap Js.str (list Z)) : gmap Js.str (list Z) :=
  omap (fun timestamps =>
          match prune now timestamps with
          | [] => None
          | kept => Some kept
          end) store.

(** What happens to the store: a request of a client, or a tick of the
    cleanup timer. *)
Inductive event : Type :=
| Check (ip : Js.str) (now : Z)
| Sweep (now : Z).

Definition time (e : event) : Z :=
  match e with
  | Check _ now => now
  | Sweep now => now
  end.

Definition apply (e : event) (store : gmap Js.str (list Z)) : gmap Js.str (list Z) :=
  match e with
  | Check ip now => snd (checkRateLimit ip now store)
  | Sweep now => cleanup now store
  end.

(** The store after the events of [l], the oldest first. *)
Definition after (l : list event) : gmap Js.str (list Z) :=
  fold_left (fun store e => apply e store) l ∅.

(** The answers to the checks of [l], in order. *)
Fixpoint answers (l : list event) (store : gmap Js.str (list Z)) : list bool :=
  match l with
  | [] => []
  | Check ip now :: l' =>
      allowed (fst (checkRateLimit ip now store))
      :: answers l' (snd (checkRateLimit ip now store))
  | Sweep now :: l' => answers l' (cleanup now store)
  end.

(** The times of the allowed requests of [ip] among [l], the oldest first. *)
Fixpoint admitted (ip : Js.str) (l : list event) (store : gmap Js.str (list Z)) : list Z :=
  match l with
  | [] => []
  | Check ip' now :: l' =>
      let '(r, store') := checkRateLimit ip' now store in
      if allowed r && bool_decide (ip' = ip)
      then now :: admitted ip l' store'
      else admitted ip l' store'
  | Sweep now :: l' => admitted ip l' (cleanup now store)
  end.

(** The clock does not run backwards along [l], starting at [t0]. *)
Fixpoint monotone (t0 : Z) (l : list event) : Prop :=
  match l with
  | [] => True
  | e :: l' => t0 <= time e /\ monotone (time e) l'
  end.

Definition lastTime (t0 : Z) (l : list event) : Z :=
  fold_left (fun _ e => time e) l t0.

End Limiter.

(** The requests of [ip] among the events. *)
Definition own (ip : Js.str) (e : event) : bool :=
  match e with
  | Check ip' _ => bool_decide (ip' = ip)
  | Sweep _ => false
  end.

(** The defaults of the two environment variables. *)
Definition DEFAULT_WINDOW_MS : Z := 3600000.
Definition DEFAULT_MAX_REQUESTS : Z := 20.

End RateLimit.

(** ** [parseResponse] of lib/llm-extractor.ts, with [JSON.parse] *)

Module Parser.

#[local] Set Warnings "-register-all".

(** What [JSON.parse] returns.  An object is the list of its properties
    in the order in which JavaScript enumerates them: the keys that are
    array indices first, in ascending order, then the other keys in the
    order of their first appearance; a repeated key overwrites the
    value. *)
Inductive json : Type :=
| JNull
| JBool (b : bool)
| JNumber (x : Num.t)
| JString (s : Js.str)
| JArray (items : list json)
| JObject (members : list (Js.str * json)).

(** JSON white space: tab, line feed, carriage return, space. *)
Definition isSpace (c : N) : bool :=
  ((c =? 9) || (c =? 10) || (c =? 13) || (c =? 32))%N.

Fixpoint skipSpace (s : Js.str) : Js.str :=
  match s with
  | c :: r => if isSpace c then skipSpace r else s
  | [] => []
  end.

Definition hexValue (c : N) : option N :=
  if ((48 <=? c) && (c <=? 57))%N then Some (c - 48)%N
  else if ((65 <=? c) && (c <=? 70))%N then Some (c - 55)%N
  else if ((97 <=? c) && (c <=? 102))%N then Some (c - 87)%N
  else None.

(** The character that a one-letter escape stands for. *)
Definition escaped (c : N) : option N :=
  if ((c =? 34) || (c =? 92) || (c =? 47))%N then Some c
  else if (c =? 98)%N then Some 8%N
  else if (c =? 102)%N then Some 12%N
  else if (c =? 110)%N then Some 10%N
  else if (c =? 114)%N then Some 13%N
  else if (c =? 116)%N then Some 9%N
  else None.

(** The characters of a string after its opening quote, up to the
    closing quote, and what follows it. *)
Fixpoint parseChars (s : Js.str) : option (Js.str * Js.str) :=
  match s with
  | [] => None
  | c :: r =>
      if (c =? 34)%N then Some ([], r)
      else if (c =? 92)%N then
        match r with
        | e :: r1 =>
            if (e =? 117)%N then
              match r1 with
              | h1 :: h2 :: h3 :: h4 :: r2 =>
                  match hexValue h1, hexValue h2, hexValue h3, hexValue h4,
                        parseChars r2 with
                  | Some a, Some b, Some c, Some d, Some (cs, rest) =>
                      Some ((a * 4096 + b * 256 + c * 16 + d)%N :: cs, rest)
                  | _, _, _, _, _ => None
                  end
              | _ => None
              end
            else
              match escaped e, parseChars r1 with
              | Some c', Some (cs, rest) => Some (c' :: cs, rest)
              | _, _ => None
              end
        | [] => None
        end
      else if (c <? 32)%N then None
      else match parseChars r with
           | Some (cs, rest) => Some (c :: cs, rest)
           | None => None
           end
  end.

(** The first character of the text. *)
Definition startsWithChar (c : N) (s : Js.str) : bool :=
  match s with
  | d :: _ => (d =? c)%N
  | [] => false
  end.

(** A JSON number at the front of [s]: no leading zeros, digits on both
    sides of a dot, digits in an exponent. *)
Definition parseNumber (s : Js.str) : option (Num.t * Js.str) :=
  let '(negative, s1) :=
    if startsWithChar 45 s then (true, drop 1 s) else (false, s) in
  let '(intDigits, s2) :=
    if startsWithChar 48 s1 then ([48%N], drop 1 s1) else Num.spanDigits s1 in
  match intDigits with
  | [] => None
  | _ =>
      let '(fracDigits, s3) :=
        if startsWithChar 46 s2 then
          match Num.spanDigits (drop 1 s2) with
          | ([], _) => ([], s2)
          | (ds, rest) => (ds, rest)
          end
        else ([], s2) in
      let '(exponent, s4) :=
        match s3 with
        | c :: r =>
            if ((c =? 101) || (c =? 69))%N then
              let '(negativeExp, r') := Num.spanSign r in
              match Num.spanDigits r' with
              | ([], _) => (0, s3)
              | (ds, rest) =>
                  (if negativeExp then - Z.of_N (Num.digitsValue ds)
                   else Z.of_N (Num.digitsValue ds), rest)
              end
            else (0, s3)
        | [] => (0, s3)
        end in
      Some (Num.ofDecimal negative (Num.digitsValue (intDigits ++ fracDigits))
                          (exponent - Z.of_nat (length fracDigits)), s4)
  end.

(** The array index that [key] names: the decimal digits, without a
    leading zero, of a number below 2^32 - 1. *)
Definition arrayIndex (key : Js.str) : option N :=
  match key with
  | [] => None
  | c :: rest =>
      if forallb Num.isDigit key
         && (negb (c =? 48)%N || (length rest =? 0)%nat)
         && (length key <=? 10)%nat
         && (Num.digitsValue key <? 4294967295)%N
      then Some (Num.digitsValue key)
      else None
  end.

(** A new property [key] is enumerated before the property [k]: an
    index comes before a larger index and before every other key. *)
Definition precedes (key k : Js.str) : bool :=
  match arrayIndex key, arrayIndex k with
  | Some i, Some j => (i <? j)%N
  | Some _, None => true
  | None, _ => false
  end.

(** [members] with the property [key] set to [v]: the value is replaced
    where the object has the property, and the property is created in
    its place of the enumeration where it has not. *)
Fixpoint setMember (key : Js.str) (v : json) (members : list (Js.str * json))
  : list (Js.str * json) :=
  match members with
  | [] => [(key, v)]
  | (k, old) :: rest =>
      if Js.eqb k key then (k, v) :: rest
      else if precedes key k then (key, v) :: (k, old) :: rest
      else (k, old) :: setMember key v rest
  end.

(** A value at the front of [s], white space skipped, and what follows
    it.  [fuel] bounds the number of nested calls; twice the length of
    the text is enough, as every call but the first of an array or an
    object follows a character that has been consumed. *)
Fixpoint parseValue (fuel : nat) (s : Js.str) : option (json * Js.str) :=
  match fuel with
  | O => None
  | S fuel' =>
      match skipSpace s with
      | [] => None
      | c :: r =>
          if (c =? 123)%N then
            if startsWithChar 125 (skipSpace r)
            then Some (JObject [], drop 1 (skipSpace r))
            else parseMembers fuel' r []
          else if (c =? 91)%N then
            if startsWithChar 93 (skipSpace r)
            then Some (JArray [], drop 1 (skipSpace r))
            else parseElements fuel' r []
          else if (c =? 34)%N then
            match parseChars r with
            | Some (cs, rest) => Some (JString cs, rest)
            | None => None
            end
          else if Num.startsWith (Js.lit "null") (c :: r)
          then Some (JNull, drop 4 (c :: r))
          else if Num.startsWith (Js.lit "true") (c :: r)
          then Some (JBool true, drop 4 (c :: r))
          else if Num.startsWith (Js.lit "false") (c :: r)
          then Some (JBool false, drop 5 (c :: r))
          else match parseNumber (c :: r) with
               | Some (x, rest) => Some (JNumber x, rest)
               | None => None
               end
      end
  end
with parseElements (fuel : nat) (s : Js.str) (acc : list json)
  : option (json * Js.str) :=
  match fuel with
  | O => None
  | S fuel' =>
      match parseValue fuel' s with
      | Some (v, r) =>
          if startsWithChar 44 (skipSpace r)
          then parseElements fuel' (drop 1 (skipSpace r)) (acc ++ [v])
          else if startsWithChar 93 (skipSpace r)
          then Some (JArray (acc ++ [v]), drop 1 (skipSpace r))
          else None
      | None => None
      end
  end
with parseMembers (fuel : nat) (s : Js.str) (acc : list (Js.str * json))
  : option (json * Js.str) :=
  match fuel with
  | O => None
  | S fuel' =>
      if startsWithChar 34 (skipSpace s) then
        match parseChars (drop 1 (skipSpace s)) with
        | Some (key, r1) =>
            if startsWithChar 58 (skipSpace r1) then
              match parseValue fuel' (drop 1 (skipSpace r1)) with
              | Some (v, r3) =>
                  if startsWithChar 44 (skipSpace r3)
                  then parseMembers fuel' (drop 1 (skipSpace r3))
                                    (setMember key v acc)
                  else if startsWithChar 125 (skipSpace r3)
                  then Some (JObject (setMember key v acc), drop 1 (skipSpace r3))
                  else None
              | None => None
              end
            else None
        | None => None
        end
      else None
  end.

(** [JSON.parse(text)]; [None] when it throws a [SyntaxError]. *)
Definition JSON_parse (text : Js.str) : option json :=
  match parseValue (2 * length text + 2) text with
  | Some (v, rest) =>
      match skipSpace rest with
      | [] => Some v
      | _ => None
      end
  | None => None
  end.

(** [s] from the first [c] on, [[]] when [c] does not occur. *)
Fixpoint fromFirst (c : N) (s : Js.str) : Js.str :=
  match s with
  | [] => []
  | d :: r => if (d =? c)%N then s else fromFirst c r
  end.

(** [s] up to the last [c], [[]] when [c] does not occur. *)
Definition toLast (c : N) (s : Js.str) : Js.str :=
  rev (fromFirst c (rev s)).

(** [text.match(...)] for the pattern of [parseResponse], an opening
    brace, any characters, a closing brace: the match, which runs from the
    first opening brace to the last closing brace after it. *)
Definition matchBraces (text : Js.str) : option Js.str :=
  match toLast 125 (fromFirst 123 text) with
  | [] => None
  | m => Some m
  end.

(** A content block of the oracle's message. *)
Inductive block : Type :=
| TextBlock (text : Js.str)
| OtherBlock.

(** [response.content.find((block) => block.type === "text")] *)
Fixpoint findText (content : list block) : option Js.str :=
  match content with
  | [] => None
  | TextBlock text :: _ => Some text
  | OtherBlock :: rest => findText rest
  end.

Definition parseFailure : thrown :=
  JsError (Js.lit "Failed to parse extraction response as JSON").

Definition parseResponse (content : list block) : result thrown json :=
  match findText content with
  | None => Err (JsError (Js.lit "No text response from Claude"))
  | Some text =>
      match JSON_parse text with
      | Some parsed => Ok parsed
      | None =>
          match matchBraces text with
          | Some jsonMatch =>
              match JSON_parse jsonMatch with
              | Some parsed => Ok parsed
              | None => Err parseFailure
              end
          | None => Err parseFailure
          end
      end
  end.

(** [client.messages.create(...).then(parseResponse)]: the call that
    [withRetry] wraps. *)
Definition thenParse {W} (create : W -> result thrown (list block) * W)
  : W -> result thrown json * W :=
  fun w =>
    match create w with
    | (Ok response, w1) => (parseResponse response, w1)
    | (Err error, w1) => (Err error, w1)
    end.

(** The reading of the specification: the first substring that opens
    with a brace and ends where the braces are balanced again. *)
Fixpoint balancedPrefix (depth : nat) (s : Js.str) : option Js.str :=
  match s with
  | [] => None
  | c :: r =>
      if (c =? 123)%N then
        option_map (cons c) (balancedPrefix (S depth) r)
      else if (c =? 125)%N then
        match depth with
        | O => None
        | 1%nat => Some [c]
        | S d => option_map (cons c) (balancedPrefix d r)
        end
      else option_map (cons c) (balancedPrefix depth r)
  end.

Definition firstBalanced_spec (text : Js.str) : option Js.str :=
  balancedPrefix 0 (fromFirst 123 text).

End Parser.

(** ** The two oracle paths of lib/llm-extractor.ts

    [extractFromText] and [extractFromFullPDF], as one call sees them:
    what the call does between taking its slot of the pool
    ([this.running++]) and giving it back (the [finally] block of
    [Semaphore.run]).  The wait for a slot, when the pool is full, is the
    matter of [Semaphore]. *)

Module Tiers.
Import Extractor Parser.

(** The message sent with [client.messages.create]. *)
Inductive request (Buffer : Type) : Type :=
| TextPrompt (text : Js.str)       (* the prompt, then the transcript *)
| DocumentPrompt (pdf : Buffer).   (* the PDF in base 64, then the prompt *)
Arguments TextPrompt {Buffer} text.
Arguments DocumentPrompt {Buffer} pdf.

(** What a call does to the outside while it holds its slot. *)
Inductive slotEvent : Type :=
| Acquire                      (* [this.running++] *)
| Attempt (e : retryEvent)     (* a step of [withRetry] *)
| Hold (ms : Z)                (* the [setTimeout] after a vision call *)
| Release.                     (* [this.running--; this.queue.shift()?.()] *)

Section Oracle.
Context {W Buffer : Type}.
(** [client.messages.create] with the message [request]. *)
Variable create : request Buffer -> W -> result thrown (list block) * W.

(** The log of [m] with every event renamed. *)
Definition relabel {L L' A} (f : L -> L') (m : @M W L A) : @M W L' A :=
  fun w => let '(r, w1, l) := m w in (r, w1, map f l).

(** [try { return await fn() } finally { release }], after
    [this.running++]. *)
Definition run {A} (fn : @M W slotEvent A) : @M W slotEvent A :=
  fun w => let '(r, w1, l) := fn w in (r, w1, Acquire :: l ++ [Release]).

(** [withRetry(() => client.messages.create(...).then(parseResponse))] *)
Definition request_ (message : request Buffer) : @M W slotEvent json :=
  relabel Attempt (withRetry (thenParse (create message)) RETRY_MAX_ATTEMPTS).

Definition extractFromText (text : Js.str) : @M W slotEvent json :=
  run (request_ (TextPrompt text)).

Definition extractFromFullPDF (pdfBuffer : Buffer) : @M W slotEvent json :=
  run (let* result := request_ (DocumentPrompt pdfBuffer) in
       run* emit (Hold POST_VISION_DELAY_MS) in
       ret result).

(** The requests sent to the oracle among the events of a call. *)
Definition requests (l : list slotEvent) : nat :=
  length (List.filter (fun e => match e with Attempt Invoke => true | _ => false end) l).

End Oracle.

End Tiers.

(** ** lib/validator.ts *)

Module Validator.

Record ValidationResult : Type := mkValidation {
  valid : bool;
  warnings : list Js.str;
  errors : list Js.str
}.

(** The class [[,$]]. *)
Definition isSeparator (c : N) : bool := ((c =? 44) || (c =? 36))%N.

(** The class [[$,\s]]. *)
Definition isSeparatorOrSpace (c : N) : bool :=
  isSeparator c || Js.isWhiteSpace c.

(** The object [multipliers]. *)
Definition multipliers (suffix : Js.str) : option Num.t :=
  if Js.eqb suffix (Js.lit "t") then Some (Num.ofZ (10 ^ 12))
  else if Js.eqb suffix (Js.lit "trillion") then Some (Num.ofZ (10 ^ 12))
  else if Js.eqb suffix (Js.lit "b") then Some (Num.ofZ (10 ^ 9))
  else if Js.eqb suffix (Js.lit "billion") then Some (Num.ofZ (10 ^ 9))
  else if Js.eqb suffix (Js.lit "m") then Some (Num.ofZ (10 ^ 6))
  else if Js.eqb suffix (Js.lit "million") then Some (Num.ofZ (10 ^ 6))
  else None.

(** The alternatives of the second group of the pattern. *)
Definition isSuffix (s : Js.str) : bool :=
  Js.eqb s (Js.lit "trillion") || Js.eqb s (Js.lit "billion")
  || Js.eqb s (Js.lit "million") || Js.eqb s (Js.lit "t")
  || Js.eqb s (Js.lit "b") || Js.eqb s (Js.lit "m").

(** The match of [cleaned] against the pattern of [parseFinancialString]:
    from the start, an optional minus, one or more digits, an optional
    dot, any digits (group 1), any white space, optionally one of the six
    suffixes (group 2), the end.  The result is the two groups, [None]
    when there is no match.  The classes of the pattern are disjoint, so
    the greedy match is the only one. *)
Definition matchAmount (cleaned : Js.str) : option (Js.str * option Js.str) :=
  let '(sign, s1) :=
    match cleaned with
    | 45%N :: r => ([45%N], r)
    | _ => ([], cleaned)
    end in
  let '(intDigits, s2) := Num.spanDigits s1 in
  match intDigits with
  | [] => None
  | _ =>
      let '(dot, s3) :=
        match s2 with
        | 46%N :: r => ([46%N], r)
        | _ => ([], s2)
        end in
      let '(fracDigits, s4) := Num.spanDigits s3 in
      let suffix := Js.trimStart s4 in
      let number := sign ++ intDigits ++ dot ++ fracDigits in
      match suffix with
      | [] => Some (number, None)
      | _ => if isSuffix suffix then Some (number, Some suffix) else None
      end
  end.

(** [None] is [null]. *)
Definition parseFinancialString (value : option Js.str) : option Num.t :=
  match value with
  | Some (c :: v) =>
      let cleaned :=
        Js.toLowerCase (Js.trim (Js.removeAll isSeparator (c :: v))) in
      match matchAmount cleaned with
      | None => None
      | Some (number, suffix) =>
          let num := Num.parseFloat number in
          Some (Num.mul num
                  match suffix with
                  | Some suffix => default (Num.ofZ 1) (multipliers suffix)
                  | None => Num.ofZ 1
                  end)
      end
  | _ => None
  end.

(** The local [gm] for a non-empty [gross_margin]. *)
Definition grossMargin (gross_margin : Js.str) : Num.t :=
  let gmStr := Js.trim gross_margin in
  if Js.endsWithChar 37 gmStr then
    let gm := Num.parseFloat (Js.dropLast gmStr) in
    if negb (Num.isNaN gm) then Num.div gm (Num.ofZ 100) else gm
  else Num.parseFloat gmStr.

Definition outOfRange (gm : Num.t) : bool :=
  negb (Num.isNaN gm) && (Num.ltb gm (Num.ofZ 0) || Num.gtb gm (Num.ofZ 1)).

(** The local [epsNum] for a non-empty [earnings_per_share]. *)
Definition epsNum (earnings_per_share : Js.str) : Num.t :=
  Num.parseFloat (Js.removeAll isSeparatorOrSpace earnings_per_share).

Definition rangeWarning (gross_margin : Js.str) : Js.str :=
  Js.lit "Gross margin " ++ gross_margin ++ Js.lit " outside expected range 0-100%".

Definition epsWarning (earnings_per_share : Js.str) : Js.str :=
  Js.lit "EPS of " ++ earnings_per_share ++ Js.lit " seems unusually high".

(** [cond && warnings.push(w)] as the list of what is pushed. *)
Definition pushIf (cond : bool) (w : Js.str) : list Js.str :=
  if cond then [w] else [].

Definition filledCount (data : ExtractedData) : nat :=
  length (List.filter Js.notNullish (FINANCIAL_FIELDS data)).

Definition validateExtraction (data : ExtractedData) : ValidationResult :=
  let errors :=
    pushIf (negb (Js.truthy (company_name data))) (Js.lit "Missing company name")
    ++ pushIf (negb (Js.truthy (quarter data))) (Js.lit "Missing quarter") in
  let revenue := parseFinancialString (total_revenue data) in
  let netIncome := parseFinancialString (net_income data) in
  let warnings :=
    match gross_margin data with
    | Some (c :: v) =>
        pushIf (outOfRange (grossMargin (c :: v))) (rangeWarning (c :: v))
    | _ => []
    end
    ++ match earnings_per_share data with
       | Some (c :: v) =>
           let n := epsNum (c :: v) in
           pushIf (negb (Num.isNaN n) && Num.gtb (Num.abs n) (Num.ofZ 100))
                  (epsWarning (c :: v))
       | _ => []
       end
    ++ match revenue with
       | Some r => pushIf (Num.ltb r (Num.ofZ 0)) (Js.lit "Total revenue is negative")
       | None => []
       end
    ++ match revenue, netIncome with
       | Some r, Some n =>
           pushIf (Num.gtb n r) (Js.lit "Net income exceeds total revenue")
       | _, _ => []
       end
    ++ pushIf (filledCount data =? 0)%nat (Js.lit "No financial data was extracted") in
  {| valid := (length errors =? 0)%nat; warnings := warnings; errors := errors |}.

End Validator.

(** ** The numeric fields of the earlier revision

    The revision kept as src/src/lib/llm-extractor.ts asks the oracle for
    numbers in [earnings_per_share] and [gross_margin] and normalizes
    what it gets, inside [parseResponse]. *)

Module Legacy.
Import Parser.

(** [None] is [undefined] as an argument and [null] as a result. *)
Definition normalizeNumericField (value : option json) : option Num.t :=
  match value with
  | None | Some JNull => None
  | Some (JNumber x) => Some x
  | Some (JString s) =>
      let cleaned := Js.trim (Js.removeAll Validator.isSeparatorOrSpace s) in
      match cleaned with
      | [] => None
      | _ =>
          if Js.endsWithChar 37 cleaned then
            let num := Num.parseFloat (Js.dropLast cleaned) in
            if Num.isNaN num then None else Some (Num.div num (Num.ofZ 100))
          else
            let num := Num.parseFloat cleaned in
            if Num.isNaN num then None else Some num
      end
  | Some _ => None
  end.

(** [data[key]] for the properties of an object. *)
Definition getMember (key : Js.str) (members : list (Js.str * json)) : option json :=
  option_map snd (List.find (fun member => Js.eqb (fst member) key) members).

(** A number or [null] as a value. *)
Definition ofNumber (x : option Num.t) : json :=
  match x with
  | Some x => JNumber x
  | None => JNull
  end.

(** The gross margin that [normalizeExtraction] stores. *)
Definition grossMargin (value : option json) : option Num.t :=
  match normalizeNumericField value with
  | Some gm => if Num.gtb gm (Num.ofZ 1) then Some (Num.div gm (Num.ofZ 100)) else Some gm
  | None => None
  end.

(** [normalizeExtraction] on the properties of the parsed object. *)
Definition normalizeExtraction (raw : list (Js.str * json)) : list (Js.str * json) :=
  let data :=
    setMember (Js.lit "earnings_per_share")
      (ofNumber (normalizeNumericField (getMember (Js.lit "earnings_per_share") raw)))
      raw in
  setMember (Js.lit "gross_margin")
    (ofNumber (grossMargin (getMember (Js.lit "gross_margin") data)))
    data.

End Legacy.

(** ** Sessions and the password: lib/auth.ts and app/api/auth/route.ts *)

Module Auth.

Definition COOKIE_NAME : Js.str := Js.lit "session".
(** The code unit of [SIGNATURE_SEP], a dot. *)
Definition SIGNATURE_SEP : N := 46.

(** The variables of the environment that the module reads; [None] is
    an unset variable. *)
Record env : Type := mkEnv {
  APP_SECRET : option Js.str;
  APP_PASSWORD : option Js.str
}.

(** [a || b] for a string [a] that may be undefined. *)
Definition orElse (a : option Js.str) (b : Js.str) : Js.str :=
  match a with
  | Some (c :: v) => c :: v
  | _ => b
  end.

Definition getSecret (e : env) : Js.str :=
  orElse (APP_SECRET e) (orElse (APP_PASSWORD e) []).

Definition getPassword (e : env) : Js.str := orElse (APP_PASSWORD e) [].

Definition isAuthEnabled (e : env) : bool := Js.truthy (APP_PASSWORD e).

(** The character of [btoa] for six bits. *)
Definition base64Char (n : N) : N :=
  if (n <? 26)%N then (n + 65)%N          (* A..Z *)
  else if (n <? 52)%N then (n + 71)%N     (* a..z *)
  else if (n <? 62)%N then (n - 4)%N      (* 0..9 *)
  else if (n =? 62)%N then 43%N           (* + *)
  else 47%N.                              (* / *)

(** [btoa] of the binary string of [bytes]: three bytes give four
    characters, and the last group is padded with [=]. *)
Fixpoint bufToBase64 (bytes : list Byte.byte) : Js.str :=
  match bytes with
  | [] => []
  | [a] =>
      let a := Byte.to_N a in
      [base64Char (N.shiftr a 2); base64Char (N.shiftl (N.land a 3) 4); 61%N; 61%N]
  | [a; b] =>
      let a := Byte.to_N a in
      let b := Byte.to_N b in
      [base64Char (N.shiftr a 2);
       base64Char (N.lor (N.shiftl (N.land a 3) 4) (N.shiftr b 4));
       base64Char (N.shiftl (N.land b 15) 2); 61%N]
  | a :: b :: c :: rest =>
      let a := Byte.to_N a in
      let b := Byte.to_N b in
      let c := Byte.to_N c in
      base64Char (N.shiftr a 2)
      :: base64Char (N.lor (N.shiftl (N.land a 3) 4) (N.shiftr b 4))
      :: base64Char (N.lor (N.shiftl (N.land b 15) 2) (N.shiftr c 6))
      :: base64Char (N.land c 63)
      :: bufToBase64 rest
  end.

(** [s.lastIndexOf(c)] for a one-unit [c]; [None] is -1. *)
Fixpoint lastIndexOf (c : N) (s : Js.str) : option nat :=
  match s with
  | [] => None
  | d :: r =>
      match lastIndexOf c r with
      | Some i => Some (S i)
      | None => if (d =? c)%N then Some 0%nat else None
      end
  end.

(** The loop [result |= expected.charCodeAt(i) ^ other.charCodeAt(i)]
    over the indices of [expected], from [result] on.  Past the end of
    [other], [charCodeAt] is NaN, which [^] takes for 0.  Code units are
    below 2^16, so the 32-bit operators do not wrap. *)
Fixpoint accumulate (result : N) (expected other : Js.str) : N :=
  match expected with
  | [] => result
  | x :: expected' =>
      accumulate (N.lor result (N.lxor x (hd 0%N other))) expected' (tl other)
  end.

(** [checkPassword] on a string, as its parameter is declared; [e] is
    the environment. *)
Definition checkPassword (e : env) (password : Js.str) : bool :=
  let expected := getPassword e in
  if negb (Js.truthy (Some expected))
     || negb (length expected =? length password)%nat
  then false
  else (accumulate 0 expected password =? 0)%N.

(** The outcome of an [await]: the rest runs on the value, and a
    rejection is passed on. *)
Definition andThen {A B} (r : result thrown A) (k : A -> result thrown B)
  : result thrown B :=
  match r with
  | Ok a => k a
  | Err error => Err error
  end.

(** What [crypto.subtle.importKey] rejects with for a key of no bytes. *)
Definition keyError : thrown := JsError (Js.lit "Zero-length key is not supported").

(** The [TypeError]s of a body that is null, of [null.length] and of a
    value that has no method [charCodeAt]. *)
Definition destructureError : thrown :=
  JsError (Js.lit "Cannot destructure property 'password' of 'body' as it is null.").
Definition lengthError : thrown :=
  JsError (Js.lit "Cannot read properties of null (reading 'length')").
Definition notAFunction : thrown :=
  JsError (Js.lit "password.charCodeAt is not a function").

(** [!!v] for a value of [JSON.parse]; [None] is [undefined]. *)
Definition truthyValue (v : option Parser.json) : bool :=
  match v with
  | None | Some Parser.JNull => false
  | Some (Parser.JBool b) => b
  | Some (Parser.JNumber x) =>
      match x with
      | S754_zero _ | S754_nan => false
      | _ => true
      end
  | Some (Parser.JString s) => Js.truthy (Some s)
  | Some (Parser.JArray _) | Some (Parser.JObject _) => true
  end.

(** [body.password] for a body that is not null: the property of an
    object, and [undefined] for every other value. *)
Definition passwordOf (body : Parser.json) : option Parser.json :=
  match body with
  | Parser.JObject members => Legacy.getMember (Js.lit "password") members
  | _ => None
  end.

(** [v.length] for an array or an object [v], when it is a number: the
    number of items, or the property of that name. *)
Definition lengthOf (v : Parser.json) : option Num.t :=
  match v with
  | Parser.JArray items => Some (Num.ofZ (Z.of_nat (length items)))
  | Parser.JObject members =>
      match Legacy.getMember (Js.lit "length") members with
      | Some (Parser.JNumber x) => Some x
      | _ => None
      end
  | _ => None
  end.

(** [checkPassword] on the value that the route passes.  The parameter
    is declared a string, and the body of the request decides what it
    is: a number or a boolean has no [length] and is refused; an array
    or an object whose [length] is the length of the password gets to
    the loop, where [password.charCodeAt] is no function. *)
Definition checkPasswordValue (e : env) (password : Parser.json)
  : result thrown bool :=
  match password with
  | Parser.JString s => Ok (checkPassword e s)
  | _ =>
      let expected := getPassword e in
      if negb (Js.truthy (Some expected)) then Ok false
      else
        match password with
        | Parser.JNull => Err lengthError
        | _ =>
            match lengthOf password with
            | Some x =>
                if Num.eqb x (Num.ofZ (Z.of_nat (length expected)))
                then Err notAFunction
                else Ok false
            | None => Ok false
            end
        end
  end.

Section Session.
(** [crypto.subtle.sign("HMAC", key, encoder.encode(value))] for the
    HMAC-SHA-256 key imported from the bytes of the secret: the
    signature, as bytes. *)
Variable hmac : Js.str -> Js.str -> list Byte.byte.
Variable e : env.

(** [getKey]: the key is the secret; [importKey] rejects the empty
    secret, which is the secret when neither variable is set. *)
Definition getKey : result thrown Js.str :=
  match getSecret e with
  | [] => Err keyError
  | secret => Ok secret
  end.

Definition sign (value : Js.str) : result thrown Js.str :=
  andThen getKey (fun key =>
  Ok (value ++ [SIGNATURE_SEP] ++ bufToBase64 (hmac key value))).

Definition verify (signed : Js.str) : result thrown bool :=
  match lastIndexOf SIGNATURE_SEP signed with
  | None => Ok false
  | Some sep =>
      let value := take sep signed in
      andThen (sign value) (fun expected =>
      if negb (length expected =? length signed)%nat then Ok false
      else Ok (accumulate 0 expected signed =? 0)%N)
  end.

(** [now] is [Date.now()]. *)
Definition createSessionCookie (now : Z) : result thrown (Js.str * Js.str) :=
  andThen (sign (Js.lit "authenticated:" ++ Extractor.showZ now)) (fun value =>
  Ok (COOKIE_NAME, value)).

Definition isValidSession (cookieValue : option Js.str) : result thrown bool :=
  match cookieValue with
  | Some (c :: v) => verify (c :: v)
  | _ => Ok false
  end.

(** What the routes of app/api/auth answer. *)
Inductive response : Type :=
| Failure (status : Z) (error : Js.str)
| SetCookie (name value : Js.str) (maxAge : Z).   (* with [{ ok: true }] *)

(** [POST]: [body] is the outcome of [request.json()], a rejection when
    the body of the request is no JSON text.  [Err] is what the handler
    throws. *)
Definition POST (body : result thrown Parser.json) (now : Z)
  : result thrown response :=
  if negb (isAuthEnabled e) then
    Ok (Failure 500 (Js.lit "Authentication not configured"))
  else
    andThen body (fun body =>
    andThen (match body with
             | Parser.JNull => Err destructureError
             | _ => Ok (passwordOf body)
             end) (fun password =>
    match password with
    | Some value =>
        if negb (truthyValue password) then Ok (Failure 401 (Js.lit "Invalid password"))
        else
          andThen (checkPasswordValue e value) (fun accepted =>
          if negb accepted then Ok (Failure 401 (Js.lit "Invalid password"))
          else
            andThen (createSessionCookie now) (fun cookie =>
            Ok (SetCookie (fst cookie) (snd cookie) (60 * 60 * 24))))
    | None => Ok (Failure 401 (Js.lit "Invalid password"))
    end)).

Definition DELETE : response := SetCookie COOKIE_NAME [] 0.

End Session.

End Auth.

(** ** The guard in front of every route: proxy.ts *)

Module Proxy.
Import RateLimit.

Definition PUBLIC_PATHS : list Js.str := [Js.lit "/login"; Js.lit "/api/auth"].

(** [s.endsWith(p)] *)
Definition endsWith (p s : Js.str) : bool :=
  bool_decide (drop (length s - length p) s = p).

Definition isPublicPath (pathname : Js.str) : bool :=
  existsb (fun p => Js.eqb pathname p || Num.startsWith (p ++ Js.lit "/") pathname)
          PUBLIC_PATHS.

(** What the guard reads of a request; [None] is a cookie or a header
    that the request does not have. *)
Record request : Type := mkRequest {
  pathname : Js.str;
  sessionCookie : option Js.str;
  forwardedFor : option Js.str;    (* x-forwarded-for *)
  realIp : option Js.str           (* x-real-ip *)
}.

Inductive decision : Type :=
| Next                                   (* [NextResponse.next()] *)
| Unauthorized                           (* 401, [{ error: "Unauthorized" }] *)
| RedirectLogin                          (* to /login *)
| RedirectHome                           (* to / *)
| TooManyRequests (retryAfter : Js.str). (* 429 with the header Retry-After *)

(** [header.split(",")[0]] *)
Fixpoint firstEntry (header : Js.str) : Js.str :=
  match header with
  | [] => []
  | c :: r => if (c =? 44)%N then [] else c :: firstEntry r
  end.

(** The key of the limiter: the first entry of x-forwarded-for, trimmed,
    or x-real-ip, or "unknown"; each is passed over when it is missing or
    empty. *)
Definition clientKey (r : request) : Js.str :=
  match option_map (fun h => Js.trim (firstEntry h)) (forwardedFor r) with
  | Some (c :: v) => c :: v
  | _ =>
      match realIp r with
      | Some (c :: v) => c :: v
      | _ => Js.lit "unknown"
      end
  end.

(** [Math.ceil((retryAfterMs || 0) / 1000)]: null, NaN and 0 count for 0;
    the quotient of an integer below 2^53 by 1000 is rounded up as the
    exact quotient is. *)
Definition retryAfterSeconds (retryAfterMs : option number) : Z :=
  match retryAfterMs with
  | Some (Num ms) => - ((- ms) / 1000)
  | _ => 0
  end.

Section Guard.
Variable hmac : Js.str -> Js.str -> list Byte.byte.
Variable env : Auth.env.
Variable WINDOW_MS : Z.
Variable MAX_REQUESTS : Z.

Definition isStatic (pathname : Js.str) : bool :=
  Num.startsWith (Js.lit "/_next") pathname
  || Num.startsWith (Js.lit "/favicon") pathname
  || endsWith (Js.lit ".ico") pathname.

(** The answer of the authentication check, [None] when it lets the
    request through; [Err] when [isValidSession] rejects. *)
Definition authCheck (r : request) : result thrown (option decision) :=
  if Auth.isAuthEnabled env then
    Auth.andThen
      (if negb (isPublicPath (pathname r)) then
         Auth.andThen (Auth.isValidSession hmac env (sessionCookie r)) (fun valid =>
         Ok (if negb valid
             then Some (if Num.startsWith (Js.lit "/api/") (pathname r)
                        then Unauthorized else RedirectLogin)
             else None))
       else Ok None) (fun answer =>
    match answer with
    | Some d => Ok (Some d)
    | None =>
        if Js.eqb (pathname r) (Js.lit "/login") then
          Auth.andThen (Auth.isValidSession hmac env (sessionCookie r)) (fun valid =>
          Ok (if valid then Some RedirectHome else None))
        else Ok None
    end)
  else Ok None.

(** [proxy(request)] at the time [now], over the store of the limiter. *)
Definition proxy (r : request) (now : Z) (store : gmap Js.str (list Z))
  : result thrown (decision * gmap Js.str (list Z)) :=
  if isStatic (pathname r) then Ok (Next, store)
  else
    Auth.andThen (authCheck r) (fun answer =>
    match answer with
    | Some d => Ok (d, store)
    | None =>
        if Js.eqb (pathname r) (Js.lit "/api/extract") then
          let '(result, store') :=
            checkRateLimit WINDOW_MS MAX_REQUESTS (clientKey r) now store in
          if negb (allowed result)
          then Ok (TooManyRequests
                     (Extractor.showZ (retryAfterSeconds (retryAfterMs result))),
                   store')
          else Ok (Next, store')
        else Ok (Next, store)
    end).

End Guard.

End Proxy.

(** ** The export: app/api/export/route.ts with lib/constants.ts *)

Module ExportRoute.

(** [FIELDS]: the key of a column, as the field it reads, and its
    label. *)
Definition FIELDS : list ((ExtractedData -> option Js.str) * Js.str) :=
  [ (company_name, Js.lit "Company Name");
    (quarter, Js.lit "Quarter");
    (total_revenue, Js.lit "Total revenue");
    (earnings_per_share, Js.lit "Earnings per share");
    (net_income, Js.lit "Net income");
    (operating_income, Js.lit "Operating income");
    (gross_margin, Js.lit "Gross margin");
    (operating_expenses, Js.lit "Operating expenses");
    (buybacks_and_dividends, Js.lit "Buybacks and dividends") ].

(** A comma, a double quote or a line feed. *)
Definition isSpecial (c : N) : bool := ((c =? 44) || (c =? 34) || (c =? 10))%N.

(** The [replace] of [escapeCSV]: two double quotes for each one. *)
Definition doubleQuotes (value : Js.str) : Js.str :=
  flat_map (fun c => if (c =? 34)%N then [34%N; 34%N] else [c]) value.

Definition escapeCSV (value : Js.str) : Js.str :=
  if existsb isSpecial value
  then 34%N :: doubleQuotes value ++ [34%N]
  else value.

(** [l.join(sep)] *)
Fixpoint join (sep : Js.str) (l : list Js.str) : Js.str :=
  match l with
  | [] => []
  | [x] => x
  | x :: rest => x ++ sep ++ join sep rest
  end.

(** The columns of a row, before [join]. *)
Definition dataCols (data : ExtractedData) : list Js.str :=
  map (fun c => match fst c data with
                | None => []
                | Some val => escapeCSV val
                end) FIELDS.

Definition header : Js.str := join (Js.lit ",") (map snd FIELDS).

(** The body of the answer of [POST] for the rows of the request. *)
Definition csv (rows : list ExtractedData) : Js.str :=
  join [10%N] (header :: map (fun data => join (Js.lit ",") (dataCols data)) rows).

(** What a row shows in the file: the nine values, null as the empty
    string. *)
Definition shown (data : ExtractedData) : list Js.str :=
  map (fun c => default [] (fst c data)) FIELDS.

(** *** A reader of the file

    Fields are separated by commas and records by line feeds; a field
    that opens with a double quote runs to the next double quote that is
    not doubled, and two double quotes inside it stand for one. *)

(** What may follow a field. *)
Definition delimited (rest : Js.str) : Prop :=
  match rest with
  | [] => True
  | d :: _ => d = 44%N \/ d = 10%N
  end.

(** A quoted field after its opening quote, and what follows it. *)
Fixpoint readQuoted (s : Js.str) : Js.str * Js.str :=
  match s with
  | [] => ([], [])
  | c :: r =>
      if (c =? 34)%N then
        match r with
        | d :: r' =>
            if (d =? 34)%N
            then let '(cell, rest) := readQuoted r' in (34%N :: cell, rest)
            else ([], r)
        | [] => ([], [])
        end
      else let '(cell, rest) := readQuoted r in (c :: cell, rest)
  end.

(** A bare field, up to the next comma or line feed. *)
Fixpoint readBare (s : Js.str) : Js.str * Js.str :=
  match s with
  | [] => ([], [])
  | c :: r =>
      if ((c =? 44) || (c =? 10))%N then ([], s)
      else let '(cell, rest) := readBare r in (c :: cell, rest)
  end.

Definition readField (s : Js.str) : Js.str * Js.str :=
  match s with
  | c :: r => if (c =? 34)%N then readQuoted r else readBare s
  | [] => ([], [])
  end.

(** The records of [s]; [row] holds the fields of the current record
    read so far. *)
Fixpoint readRecords (fuel : nat) (s : Js.str) (row : list Js.str)
  : list (list Js.str) :=
  match fuel with
  | O => []
  | S fuel' =>
      let '(cell, rest) := readField s in
      match rest with
      | [] => [row ++ [cell]]
      | d :: rest' =>
          if (d =? 44)%N then readRecords fuel' rest' (row ++ [cell])
          else (row ++ [cell]) :: readRecords fuel' rest' []
      end
  end.

Definition readCSV (s : Js.str) : list (list Js.str) :=
  readRecords (S (length s)) s [].

End ExportRoute.

(** ** The extraction route: app/api/extract/route.ts

    The route for one file of the latest revision, and the checks of the
    route for a batch of the revision before it. *)

Module Route.
Import Extractor.

(** What the route reads of an uploaded [File]. *)
Record File (Buffer : Type) : Type := mkFile {
  name : Js.str;
  type : Js.str;
  size : Z;
  arrayBuffer : Buffer
}.
Arguments mkFile {Buffer} name type size arrayBuffer.
Arguments name {Buffer} f.
Arguments type {Buffer} f.
Arguments size {Buffer} f.
Arguments arrayBuffer {Buffer} f.

(** A value of a form: an uploaded file, or the string of a field that
    is no upload.  [formData.get] and [formData.getAll] return either,
    whatever the cast to [File] says. *)
Inductive entry (Buffer : Type) : Type :=
| FileEntry (file : File Buffer)
| TextEntry (text : Js.str).
Arguments FileEntry {Buffer} file.
Arguments TextEntry {Buffer} text.

(** The [TypeError] of [file.name.toLowerCase()] for a string: a string
    has no property [name]. *)
Definition nameError : thrown :=
  JsError (Js.lit "Cannot read properties of undefined (reading 'toLowerCase')").

(** An entry of the answer. *)
Record row : Type := mkRow {
  filename : Js.str;
  data : ExtractedData;
  validation : Validator.ValidationResult
}.

Inductive response : Type :=
| Rows (rows : list row)                      (* 200 *)
| Failure (status : Z) (error : Js.str).

(** A name between double quotes. *)
Definition quote (s : Js.str) : Js.str := 34%N :: s ++ [34%N].

Section Limits.
Context {Buffer : Type}.
(** [parseInt(process.env.NEXT_PUBLIC_MAX_FILE_SIZE_MB || "20", 10)] and
    [parseInt(process.env.MAX_FILES_PER_REQUEST || "10", 10)]. *)
Variable MAX_FILE_SIZE_MB : Z.
Variable MAX_FILES : Z.

Definition MAX_FILE_SIZE : Z := MAX_FILE_SIZE_MB * 1024 * 1024.

(** The name says PDF, in any letter case, or the type does.  Lower
    case is taken letter by letter on A..Z; no other character
    lower-cases to a string that ends in one of the four characters of
    the suffix. *)
Definition isPDF (file : File Buffer) : bool :=
  Proxy.endsWith (Js.lit ".pdf") (Js.toLowerCase (name file))
  || Js.eqb (type file) (Js.lit "application/pdf").

(** The three checks of a file, in the order of the code: the error of
    the first that fails. *)
Definition fileError (file : File Buffer) : option Js.str :=
  if negb (isPDF file) then Some (quote (name file) ++ Js.lit " is not a PDF file")
  else if size file =? 0 then Some (quote (name file) ++ Js.lit " is empty")
  else if MAX_FILE_SIZE <? size file then
    Some (quote (name file) ++ Js.lit " exceeds " ++ showZ MAX_FILE_SIZE_MB
          ++ Js.lit "MB limit")
  else None.

(** A file that passes the three checks. *)
Definition acceptable (file : File Buffer) : Prop :=
  isPDF file = true /\ size file <> 0 /\ size file <= MAX_FILE_SIZE.

(** The loop over the values of a batch: the error of the first file
    that has one.  The loop throws when it comes to a string first. *)
Fixpoint firstError (files : list (entry Buffer)) : result thrown (option Js.str) :=
  match files with
  | [] => Ok None
  | TextEntry _ :: _ => Err nameError
  | FileEntry file :: rest =>
      match fileError file with
      | Some error => Ok (Some error)
      | None => firstError rest
      end
  end.

(** What the route for a batch answers before it starts
    [processBatch], [Ok None] when it starts it, and [Err] for what it
    throws before its [try]; [form] is the outcome of
    [request.formData()] with [formData.getAll("files")]. *)
Definition batchError (form : result thrown (list (entry Buffer)))
  : result thrown (option Js.str) :=
  match form with
  | Err error => Err error
  | Ok files =>
      if (length files =? 0)%nat then Ok (Some (Js.lit "No files uploaded"))
      else if MAX_FILES <? Z.of_nat (length files) then
        Ok (Some (Js.lit "Maximum " ++ showZ MAX_FILES ++ Js.lit " files per request"))
      else firstError files
  end.

Section Extraction.
Context {W : Type}.
Variable extractTextFromPDF : Buffer -> W -> result thrown Js.str * W.
Variable extractFromText : Js.str -> W -> result thrown ExtractedData * W.
Variable extractFromFullPDF : Buffer -> W -> result thrown ExtractedData * W.

(** [POST] of the route for one file; [form] is the outcome of
    [request.formData()] with [formData.get("files")], which is null
    when the form has no such field.  The empty string is falsy; any
    other string gets to [file.name.toLowerCase()], before the [try]. *)
Definition POST (form : result thrown (option (entry Buffer)))
  : @M W (tierEvent Buffer) response :=
  match form with
  | Err error => throw error
  | Ok None | Ok (Some (TextEntry [])) =>
      ret (Failure 400 (Js.lit "No file uploaded"))
  | Ok (Some (TextEntry (_ :: _))) => throw nameError
  | Ok (Some (FileEntry file)) =>
      match fileError file with
      | Some error => ret (Failure 400 error)
      | None =>
          tryCatch
            (let* data :=
               extractFromPDF extractTextFromPDF extractFromText
                              extractFromFullPDF (arrayBuffer file) in
             ret (Rows [ {| filename := name file; data := data;
                            validation := Validator.validateExtraction data |} ]))
            (fun error => ret (Failure 500 (Batch.errorMessage error)))
      end
  end.

End Extraction.
End Limits.

End Route.

(** ** The page: app/page.tsx *)

Module Client.

(** The code unit of the dash of the messages, U+2014. *)
Definition dash : N := 8212.

(** [s.includes(needle)] *)
Fixpoint includes (needle s : Js.str) : bool :=
  match s with
  | [] => Num.startsWith needle []
  | _ :: r => Num.startsWith needle s || includes needle r
  end.

(** [s] up to the first [c], all of [s] when [c] does not occur. *)
Fixpoint before (c : N) (s : Js.str) : Js.str :=
  match s with
  | [] => []
  | d :: r => if (d =? c)%N then [] else d :: before c r
  end.

(** [msg.replace(...)] for the pattern of [parseResponse] with the flag
    [g]: the match, from the first opening brace to the last closing
    brace after it, is cut out; what is left after it has no closing
    brace, so there is no second match. *)
Definition withoutBraces (msg : Js.str) : Js.str :=
  match Parser.matchBraces msg with
  | None => msg
  | Some m => before 123 msg ++ drop (length m) (Parser.fromFirst 123 msg)
  end.

Section FriendlyError.
(** [String.prototype.toLowerCase], the mapping of Unicode. *)
Variable toLowerCase : Js.str -> Js.str.

Definition friendlyError (msg : Js.str) : Js.str :=
  let lower := toLowerCase msg in
  if includes (Js.lit "rate limit") lower || includes (Js.lit "429") lower then
    Js.lit "Rate limited " ++ [dash] ++ Js.lit " please wait a moment and try again"
  else if includes (Js.lit "401") lower || includes (Js.lit "api key") lower
          || includes (Js.lit "unauthorized") lower then
    Js.lit "API authentication error " ++ [dash] ++ Js.lit " check server configuration"
  else if includes (Js.lit "timeout") lower || includes (Js.lit "timed out") lower then
    Js.lit "Request timed out " ++ [dash] ++ Js.lit " try again"
  else if includes (Js.lit "network") lower then
    Js.lit "Network error " ++ [dash] ++ Js.lit " check your connection"
  else if includes (Js.lit "parse") lower || includes (Js.lit "json") lower then
    Js.lit "Failed to parse extraction results"
  else
    let cleaned := Js.trim (withoutBraces msg) in
    if (120 <? length cleaned)%nat then take 117 cleaned ++ Js.lit "..."
    else match cleaned with
         | [] => Js.lit "Extraction failed"
         | _ => cleaned
         end.

(** *** The upload: [processOneFile] and [handleFiles]

    The requests of the files of an upload run side by side; each
    settles at its own time.  The state of the page is updated by the
    functions passed to [setResults] and [setFileProgress], in the order
    of the calls. *)

Inductive progressStatus : Type :=
| Pending | Processing | Done | Failed.     (* "error" *)

Record FileProgress : Type := mkProgress {
  filename : Js.str;
  status : progressStatus;
  error : option Js.str
}.

Record ResultRow : Type := mkResultRow {
  id : Js.str;
  row : Route.row
}.

(** How the request for a file ends. *)
Inductive reply : Type :=
| Rejected                          (* [fetch] threw, or [res.json()] of a good answer *)
| Refused (message : option Js.str) (* not [res.ok]; the [error] of the body, if any *)
| Answered (rows : list Route.row). (* [res.ok], with the rows of the body *)

(** [message || fallback] *)
Definition orDefault (message : option Js.str) (fallback : Js.str) : Js.str :=
  match message with
  | Some (c :: v) => c :: v
  | _ => fallback
  end.

(** What [processOneFile] returns, and the update of the progress of
    its file that it makes last, once the request has settled. *)
Definition processOneFile (r : reply) (fileId : Js.str)
  : option ResultRow * (FileProgress -> FileProgress) :=
  match r with
  | Rejected =>
      (None, fun fp => {| filename := filename fp; status := Failed;
                          error := Some (Js.lit "Request failed") |})
  | Refused message =>
      (None, fun fp => {| filename := filename fp; status := Failed;
                          error := Some (orDefault message (Js.lit "Extraction failed")) |})
  | Answered [] => (None, fun fp => fp)
  | Answered (first :: _) =>
      (Some {| id := fileId; row := first |},
       fun fp => {| filename := filename fp; status := Done; error := error fp |})
  end.

Record page : Type := mkPage {
  results : list ResultRow;
  fileProgress : list FileProgress;
  banner : option Js.str          (* the state [error] *)
}.

Definition MAX_FILES_PER_REQUEST : Z := 10.

Section HandleFiles.
Context {Buffer : Type}.
(** [parseInt(process.env.NEXT_PUBLIC_MAX_FILE_SIZE_MB || "20", 10)] *)
Variable MAX_FILE_SIZE_MB : Z.
(** The files dropped or chosen. *)
Variable allFiles : list (Route.File Buffer).
(** For each of the PDF files among them, how its request ends and the
    identifier drawn for it. *)
Variable replies : list reply.
Variable fileIds : list Js.str.

Definition pdfFiles : list (Route.File Buffer) :=
  List.filter (fun f => Js.eqb (Route.type f) (Js.lit "application/pdf")) allFiles.

Definition oversized : list (Route.File Buffer) :=
  List.filter (fun f => MAX_FILE_SIZE_MB * 1024 * 1024 <? Route.size f) pdfFiles.

(** The error of the checks that [handleFiles] makes first, [None]
    when the upload passes them. *)
Definition uploadError : option Js.str :=
  if (length pdfFiles =? 0)%nat then Some (Js.lit "Please upload PDF files.")
  else if MAX_FILES_PER_REQUEST <? Z.of_nat (length pdfFiles) then
    Some (Js.lit "Maximum " ++ Extractor.showZ MAX_FILES_PER_REQUEST
          ++ Js.lit " files per upload.")
  else match oversized with
       | [] => None
       | _ => Some (Js.lit "Files too large (max " ++ Extractor.showZ MAX_FILE_SIZE_MB
                    ++ Js.lit "MB): "
                    ++ ExportRoute.join (Js.lit ", ") (map Route.name oversized))
       end.

(** The page once every file is under way: [setError(null)],
    [setFileProgress(progress)] and then, for each file, the first update
    of [processOneFile]. *)
Definition started (current : page) : page :=
  {| results := results current;
     fileProgress := map (fun f => {| filename := Route.name f; status := Processing;
                                      error := None |}) pdfFiles;
     banner := None |}.

(** The request of the file at [index] settles. *)
Definition settle (p : page) (index : nat) : page :=
  match replies !! index, fileIds !! index with
  | Some r, Some fileId =>
      let '(result, update) := processOneFile r fileId in
      {| results := match result with
                    | Some result => result :: results p
                    | None => results p
                    end;
         fileProgress := alter update index (fileProgress p);
         banner := banner p |}
  | _, _ => p
  end.

Definition isFailed (fp : FileProgress) : bool :=
  match status fp with Failed => true | _ => false end.

(** The end of [handleFiles], after [Promise.all]. *)
Definition finish (p : page) : page :=
  match List.filter isFailed (fileProgress p) with
  | [] => {| results := results p; fileProgress := []; banner := banner p |}
  | failed =>
      {| results := results p; fileProgress := fileProgress p;
         banner :=
           Some (ExportRoute.join [10%N]
                   (map (fun fp => filename fp ++ Js.lit ": "
                           ++ friendlyError
                                (orDefault (error fp) (Js.lit "Extraction failed")))
                        failed)) |}
  end.

(** [handleFiles(files)] on the page [current]; [order] is the order in
    which the requests settle. *)
Definition handleFiles (current : page) (order : list nat) : page :=
  match uploadError with
  | Some message =>
      {| results := results current; fileProgress := fileProgress current;
         banner := Some message |}
  | None => finish (fold_left settle order (started current))
  end.

(** The row that the file at [index] adds to the results. *)
Definition success (index : nat) : option ResultRow :=
  match replies !! index, fileIds !! index with
  | Some (Answered (first :: _)), Some fileId => Some {| id := fileId; row := first |}
  | _, _ => None
  end.

(** The request of the file at [index] fails. *)
Definition bad (index : nat) : bool :=
  match replies !! index with
  | Some Rejected | Some (Refused _) => true
  | _ => false
  end.

(** A file shows as failed exactly when its request has settled and
    failed. *)
Definition marked (p : page) (settled : list nat) : Prop :=
  forall i fp, fileProgress p !! i = Some fp ->
    (isFailed fp = true <-> i ∈ settled /\ bad i = true).

End HandleFiles.

End FriendlyError.

(** A text with no opening brace before a closing brace. *)
Definition braceFree (s : Js.str) : Prop :=
  exists pre post, s = pre ++ post /\ (123%N ∉ pre) /\ (125%N ∉ post).

End Client.

(** ** Sample inputs *)

Module Samples.

(** The example record of the extraction prompt. *)
Definition exampleCorp : ExtractedData :=
  {| company_name := Some (Js.lit "Example Corp");
     quarter := Some (Js.lit "Q1 2025");
     total_revenue := Some (Js.lit "$21.6B");
     earnings_per_share := Some (Js.lit "$1.96");
     net_income := Some (Js.lit "$4.1B");
     operating_income := None;
     gross_margin := None;
     operating_expenses := Some (Js.lit "$13.4B");
     buybacks_and_dividends := Some (Js.lit "$1.75B Buybacks, $1.05B Dividends") |}.

(** A transcript of 120 characters, and a scan with 12 characters of text. *)
Definition transcript : Js.str := repeat 120%N 120.
Definition scan : Js.str := Js.lit "  Page 1    ".

(** Collaborators of the strategy over a world that counts the calls. *)
Definition readsText (text : Js.str) (_ : unit) (w : nat)
  : result thrown Js.str * nat := (Ok text, S w).
Definition answers (data : ExtractedData) (_ : Js.str) (w : nat)
  : result thrown ExtractedData * nat := (Ok data, S w).
Definition visionAnswers (data : ExtractedData) (_ : unit) (w : nat)
  : result thrown ExtractedData * nat := (Ok data, S w).

(** An oracle call that is rate limited [n] times and then answers; the
    world is the number of calls made so far. *)
Definition limitedThenOk (n : nat) (w : nat) : result thrown Js.str * nat :=
  if (w <? n)%nat
  then (Err (APIError 429 (Js.lit "rate_limit_error")), S w)
  else (Ok (Js.lit "{}"), S w).

Definition alwaysLimited (w : nat) : result thrown Js.str * nat :=
  (Err (APIError 429 (Js.lit "rate_limit_error")), S w).

Definition unauthorized (w : nat) : result thrown Js.str * nat :=
  (Err (APIError 401 (Js.lit "authentication_error")), S w).

(** A batch of three documents; the extraction of [bad] fails. *)
Definition good (doc : nat) : result thrown nat := Ok (doc + 1)%nat.
Definition bad (failing : nat) (doc : nat) : result thrown nat :=
  if Nat.eqb doc failing
  then Err (JsError (Js.lit "Failed to parse extraction response as JSON"))
  else Ok (doc + 1)%nat.

Definition docs : list nat := [10; 20; 30]%nat.

(** The batch of [docs] after its three calls have settled. *)
Definition batchDone : @Batch.state nat :=
  {| Batch.nextIndex := 3;
     Batch.results := [Some 11; Some 21; Some 31]%nat;
     Batch.workers := [Batch.Returned; Batch.Returned; Batch.Returned];
     Batch.settled := Some (Ok [Some 11; Some 21; Some 31]%nat) |}.

(** The same batch when the call for the second document has failed
    first. *)
Definition batchRejected : @Batch.state nat :=
  {| Batch.nextIndex := 3;
     Batch.results := [None; None; None];
     Batch.workers := [Batch.Awaiting 0; Batch.Rejected; Batch.Awaiting 2];
     Batch.settled :=
       Some (Err (JsError (Js.lit "Failed to parse extraction response as JSON"))) |}.

(** The six orders in which three pending calls can settle. *)
Definition orders : list (list nat) :=
  [[0; 1; 2]; [0; 2; 1]; [1; 0; 2]; [1; 2; 0]; [2; 0; 1]; [2; 1; 0]]%nat.

(** A client address. *)
Definition client : Js.str := Js.lit "203.0.113.7".

(** A record with nothing but the two required fields. *)
Definition bare : ExtractedData :=
  {| company_name := Some (Js.lit "Example Corp");
     quarter := Some (Js.lit "Q1 2025");
     total_revenue := None; earnings_per_share := None; net_income := None;
     operating_income := None; gross_margin := None;
     operating_expenses := None; buybacks_and_dividends := None |}.

(** Records that the validator finds suspicious. *)
Definition wideMargin : ExtractedData :=
  {| company_name := Some (Js.lit "Example Corp");
     quarter := Some (Js.lit "Q1 2025");
     total_revenue := None; earnings_per_share := None; net_income := None;
     operating_income := None; gross_margin := Some (Js.lit "150%");
     operating_expenses := None; buybacks_and_dividends := None |}.

Definition incomeOverRevenue : ExtractedData :=
  {| company_name := Some (Js.lit "Example Corp");
     quarter := Some (Js.lit "Q1 2025");
     total_revenue := Some (Js.lit "$3B"); earnings_per_share := None;
     net_income := Some (Js.lit "$5B");
     operating_income := None; gross_margin := None;
     operating_expenses := None; buybacks_and_dividends := None |}.

(** A string between double quotes. *)
Definition quoted (s : string) : Js.str := 34%N :: Js.lit s ++ [34%N].

(** The text of an object with two string properties, and its value. *)
Definition objectText : Js.str :=
  Js.lit "{" ++ quoted "company_name" ++ Js.lit ": " ++ quoted "Example Corp"
  ++ Js.lit ", " ++ quoted "quarter" ++ Js.lit ": " ++ quoted "Q1 2025"
  ++ Js.lit "}".

Definition objectValue : Parser.json :=
  Parser.JObject
    [(Js.lit "company_name", Parser.JString (Js.lit "Example Corp"));
     (Js.lit "quarter", Parser.JString (Js.lit "Q1 2025"))].

(** Replies of the oracle that put the object inside prose. *)
Definition leadingProse : Js.str := Js.lit "Here is the extracted data: ".
Definition trailingProse : Js.str := Js.lit " Let me know if you need more.".
Definition proseWithBraces : Js.str := Js.lit " (all amounts in {USD})".

Definition politeReply : Js.str := leadingProse ++ objectText ++ trailingProse.
Definition annotatedReply : Js.str := leadingProse ++ objectText ++ proseWithBraces.

(** An oracle that answers [reply] at once; the world counts the calls. *)
Definition replies (reply : Js.str) (w : nat)
  : result thrown (list Parser.block) * nat :=
  (Ok [Parser.TextBlock reply], S w).

(** The serialized pool with call 1 in flight and calls 2 and 3 waiting,
    and after call 1 has finished. *)
Definition poolWaiting : Semaphore.state :=
  {| Semaphore.running := 1; Semaphore.queue := [2; 3]%nat;
     Semaphore.woken := []; Semaphore.holders := [1]%nat |}.

Definition poolReleased : Semaphore.state :=
  {| Semaphore.running := 0; Semaphore.queue := [3]%nat;
     Semaphore.woken := [2]%nat; Semaphore.holders := [] |}.

(** The pool of three after calls 1 to 5 have entered. *)
Definition poolFull : Semaphore.state :=
  {| Semaphore.running := 3; Semaphore.queue := [4; 5]%nat;
     Semaphore.woken := []; Semaphore.holders := [1; 2; 3]%nat |}.

(** A cheap tier that fails with [e]. *)
Definition refuses (e : thrown) (_ : Js.str) (w : nat)
  : result thrown ExtractedData * nat := (Err e, S w).

(** An oracle that answers every message with [reply]. *)
Definition oracle (reply : Js.str) (_ : Tiers.request unit) (w : nat)
  : result thrown (list Parser.block) * nat :=
  (Ok [Parser.TextBlock reply], S w).

(** A stand-in for the signature function: the first code unit of the
    secret and the length of the value, as two bytes. *)
Definition toyMac (secret value : Js.str) : list Byte.byte :=
  [default Byte.x00 (Byte.of_N (hd 0%N secret mod 256));
   default Byte.x00 (Byte.of_N (N.of_nat (length value) mod 256))].

(** An installation with the password "hunter2" and no separate secret. *)
Definition secured : Auth.env :=
  {| Auth.APP_SECRET := None; Auth.APP_PASSWORD := Some (Js.lit "hunter2") |}.

(** The body of a login with [password]. *)
Definition login (password : string) : Parser.json :=
  Parser.JObject [(Js.lit "password", Parser.JString (Js.lit password))].

(** A request for the extraction route that carries [cookie]. *)
Definition extractRequest (cookie : option Js.str) : Proxy.request :=
  {| Proxy.pathname := Js.lit "/api/extract"; Proxy.sessionCookie := cookie;
     Proxy.forwardedFor := Some (Js.lit "203.0.113.7, 10.0.0.1");
     Proxy.realIp := None |}.

(** An upload named in capitals, with no type given, of 1 MB. *)
Definition upload : Route.File unit :=
  {| Route.name := Js.lit "Q1-CALL.PDF"; Route.type := [];
     Route.size := 1048576; Route.arrayBuffer := tt |}.

(** An upload without content. *)
Definition emptyUpload : Route.File unit :=
  {| Route.name := Js.lit "blank.pdf"; Route.type := Js.lit "application/pdf";
     Route.size := 0; Route.arrayBuffer := tt |}.

(** The row of the example record, and an upload of two files of which
    the second is refused. *)
Definition exampleRow : Route.row :=
  {| Route.filename := Js.lit "Q1-CALL.PDF"; Route.data := exampleCorp;
     Route.validation := Validator.validateExtraction exampleCorp |}.

Definition typedUpload (name : string) : Route.File unit :=
  {| Route.name := Js.lit name; Route.type := Js.lit "application/pdf";
     Route.size := 1048576; Route.arrayBuffer := tt |}.

Definition twoUploads : list (Route.File unit) :=
  [typedUpload "a.pdf"; typedUpload "b.pdf"].

Definition twoReplies : list Client.reply :=
  [Client.Answered [exampleRow]; Client.Refused (Some (Js.lit "Claude API error (429): busy"))].

Definition twoIds : list Js.str := [Js.lit "id-a"; Js.lit "id-b"].

Definition emptyPage : Client.page :=
  {| Client.results := []; Client.fileProgress := []; Client.banner := None |}.

(** A parsed reply of the earlier revision, with the margin as a
    percentage above one hundred. *)
Definition legacyReply : list (Js.str * Parser.json) :=
  [(Js.lit "company_name", Parser.JString (Js.lit "Example Corp"));
   (Js.lit "earnings_per_share", Parser.JString (Js.lit "$1.96"));
   (Js.lit "gross_margin", Parser.JString (Js.lit "150%"))].

End Samples.

(** * Facts *)

(** ** Strings *)

Module JsFacts.
Import Js.

Lemma trimStart_length (s : str) : (length (trimStart s) <= length s)%nat.
Proof.
  induction s as [|c r IH]; simpl; [lia|].
  destruct (isWhiteSpace c); simpl; lia.
Qed.

Lemma trim_length (s : str) : (length (trim s) <= length s)%nat.
Proof.
  unfold trim, trimEnd. rewrite length_rev.
  etransitivity; [apply trimStart_length|].
  rewrite length_rev. apply trimStart_length.
Qed.

Lemma truthy_false (v : option str) :
  truthy v = false <-> v = None \/ v = Some [].
Proof.
  destruct v as [[|c s]|]; simpl; split; intros H; auto;
    try discriminate; destruct H as [H|H]; discriminate.
Qed.

End JsFacts.

(** ** The extraction strategy and the retry policy *)

Module ExtractorFacts.
Import Extractor.

Lemma foundCount_le_7 (data : ExtractedData) : (foundCount data <= 7)%nat.
Proof.
  unfold foundCount.
  etransitivity; [apply List.filter_length_le|]. reflexivity.
Qed.

(** [needsFallback] is the disjunction the strategy documents: no usable
    company name, or fewer than two of the seven financial fields. *)
Lemma needsFallback_spec (data : ExtractedData) :
  needsFallback data = true <->
  (company_name data = None \/ company_name data = Some []) \/
  (foundCount data < 2)%nat.
Proof.
  unfold needsFallback.
  destruct (Js.truthy (company_name data)) eqn:Ht; simpl.
  - rewrite Nat.ltb_lt. split; [auto|].
    intros [H|H]; [|exact H].
    apply JsFacts.truthy_false in H. congruence.
  - split; [|reflexivity]. intros _. left.
    now apply JsFacts.truthy_false.
Qed.

(** The earlier revision of [needsFallback] (at least four nulls) is
    stricter: with two or three fields found it still falls back. *)
Lemma needsFallback_v1_stricter :
  exists data, needsFallback data = false /\ needsFallback_v1 data = true.
Proof.
  exists {| company_name := Some (Js.lit "Example Corp"); quarter := None;
            total_revenue := Some (Js.lit "$21.6B");
            earnings_per_share := Some (Js.lit "$1.96");
            net_income := None; operating_income := None;
            gross_margin := None; operating_expenses := None;
            buybacks_and_dividends := None |}.
  split; reflexivity.
Qed.

Section Strategy.
Context {W Buffer : Type}.
Variable extractTextFromPDF : Buffer -> W -> result thrown Js.str * W.
Variable extractFromText : Js.str -> W -> result thrown ExtractedData * W.
Variable extractFromFullPDF : Buffer -> W -> result thrown ExtractedData * W.

Local Abbreviation strategy :=
  (extractFromPDF extractTextFromPDF extractFromText extractFromFullPDF).

(** What the strategy does once the cheap tier has answered [data]. *)
Lemma extractFromPDF_text (pdf : Buffer) (w w1 w2 : W) text data :
  extractTextFromPDF pdf w = (Ok text, w1) ->
  (MIN_TEXT_LENGTH <= length (Js.trim text))%nat ->
  extractFromText text w1 = (Ok data, w2) ->
  strategy pdf w =
    if needsFallback data
    then (fst (extractFromFullPDF pdf w2), snd (extractFromFullPDF pdf w2),
          [TextExtractor pdf; CheapTier text; ExpensiveTier pdf])
    else (Ok data, w2, [TextExtractor pdf; CheapTier text]).
Proof.
  intros Ht Hlen Hc.
  unfold extractFromPDF, bind, tryCatch, call, ret. rewrite Ht. simpl.
  destruct (length (Js.trim text) <? MIN_TEXT_LENGTH)%nat eqn:Hlt.
  { apply Nat.ltb_lt in Hlt. lia. }
  rewrite Hc. simpl.
  destruct (needsFallback data); simpl; [|reflexivity].
  destruct (extractFromFullPDF pdf w2); reflexivity.
Qed.

(** What the strategy does when the text extractor fails, or returns
    less than the minimum of text. *)
Lemma extractFromPDF_no_text (pdf : Buffer) (w : W) :
  match extractTextFromPDF pdf w with
  | (Ok text, _) => (length (Js.trim text) < MIN_TEXT_LENGTH)%nat
  | (Err _, _) => True
  end ->
  let w1 := snd (extractTextFromPDF pdf w) in
  strategy pdf w =
    (fst (extractFromFullPDF pdf w1), snd (extractFromFullPDF pdf w1),
     [TextExtractor pdf; ExpensiveTier pdf]).
Proof.
  unfold extractFromPDF, bind, tryCatch, call, ret.
  destruct (extractTextFromPDF pdf w) as [[text|e] w1]; simpl; intros H.
  - apply Nat.ltb_lt in H. rewrite H.
    destruct (extractFromFullPDF pdf w1); reflexivity.
  - destruct (extractFromFullPDF pdf w1); reflexivity.
Qed.

(** The count of [needsFallback] is the number of the seven named
    fields that hold a value. *)
Lemma foundCount_fieldsPresent (data : ExtractedData) :
  foundCount data = Sufficiency.fieldsPresent data.
Proof.
  unfold foundCount, Sufficiency.fieldsPresent, FINANCIAL_FIELDS.
  destruct (total_revenue data), (earnings_per_share data), (net_income data),
    (operating_income data), (gross_margin data), (operating_expenses data),
    (buybacks_and_dividends data); reflexivity.
Qed.

(** C1. Once the cheap tier has returned a record, the strategy calls the
    expensive tier exactly when the record is insufficient in the words
    of the specification: the company name is absent (null, or empty), or
    fewer than 2 of the 7 named financial fields hold a value.  That is
    also when [needsFallback] holds of the record.  Otherwise the record
    of the cheap tier is the result and the expensive tier is not
    called. *)
Theorem escalation_iff_needsFallback (pdf : Buffer) (w w1 w2 : W) text data :
  extractTextFromPDF pdf w = (Ok text, w1) ->
  (MIN_TEXT_LENGTH <= length (Js.trim text))%nat ->
  extractFromText text w1 = (Ok data, w2) ->
  let escalates := In (ExpensiveTier pdf) (log (strategy pdf w)) in
  let insufficient :=
    (company_name data = None \/ company_name data = Some []) \/
    (Sufficiency.fieldsPresent data < 2)%nat in
  (needsFallback data = true <-> insufficient) /\
  (escalates <-> insufficient) /\
  (insufficient ->
     strategy pdf w =
       (fst (extractFromFullPDF pdf w2), snd (extractFromFullPDF pdf w2),
        [TextExtractor pdf; CheapTier text; ExpensiveTier pdf])) /\
  (~ insufficient ->
     strategy pdf w = (Ok data, w2, [TextExtractor pdf; CheapTier text])).
Proof.
  intros Ht Hlen Hc. simpl.
  pose proof (needsFallback_spec data) as Hs.
  rewrite foundCount_fieldsPresent in Hs.
  rewrite (extractFromPDF_text pdf w w1 w2 text data Ht Hlen Hc).
  split; [exact Hs|].
  destruct (needsFallback data) eqn:Hn.
  - assert (Hi : (company_name data = None \/ company_name data = Some []) \/
                 (Sufficiency.fieldsPresent data < 2)%nat) by (apply Hs; reflexivity).
    split; [|split].
    + split; [intros _; exact Hi|]. intros _. simpl. auto.
    + reflexivity.
    + intros Hni. contradiction.
  - assert (Hi : ~ ((company_name data = None \/ company_name data = Some []) \/
                    (Sufficiency.fieldsPresent data < 2)%nat)).
    { intros H. apply Hs in H. discriminate. }
    split; [|split].
    + split; [|intros H; contradiction].
      simpl. intros [H|[H|[]]]; discriminate.
    + intros H. contradiction.
    + reflexivity.
Qed.

(** C9. When the text extractor fails, or returns fewer than 100
    characters, the strategy goes to the expensive tier at once: the cheap
    tier is not called for that document. *)
Theorem no_text_goes_to_expensive_tier (pdf : Buffer) (w : W) :
  match extractTextFromPDF pdf w with
  | (Ok text, _) => (length text < 100)%nat
  | (Err _, _) => True
  end ->
  let r := strategy pdf w in
  let w1 := snd (extractTextFromPDF pdf w) in
  log r = [TextExtractor pdf; ExpensiveTier pdf] /\
  (forall text, ~ In (CheapTier text) (log r)) /\
  outcome r = fst (extractFromFullPDF pdf w1) /\
  world r = snd (extractFromFullPDF pdf w1).
Proof.
  intros H. simpl.
  rewrite extractFromPDF_no_text.
  - unfold log, outcome, world. simpl. repeat split.
    intros text [Hx|[Hx|[]]]; discriminate.
  - destruct (extractTextFromPDF pdf w) as [[text|e] w1]; [|exact I].
    pose proof (JsFacts.trim_length text). unfold MIN_TEXT_LENGTH. lia.
Qed.

End Strategy.

Lemma escalation_iff_needsFallback_witness :
  (* a record with the company name and no financial field: escalated *)
  (Sufficiency.fieldsPresent Samples.bare < 2)%nat /\
  extractFromPDF (Samples.readsText Samples.transcript)
                 (Samples.answers Samples.bare)
                 (Samples.visionAnswers Samples.exampleCorp) tt 0%nat
  = (Ok Samples.exampleCorp, 3%nat,
     [TextExtractor tt; CheapTier Samples.transcript; ExpensiveTier tt]) /\
  (* the example record, five financial fields: accepted *)
  extractFromPDF (Samples.readsText Samples.transcript)
                 (Samples.answers Samples.exampleCorp)
                 (Samples.visionAnswers Samples.exampleCorp) tt 0%nat
  = (Ok Samples.exampleCorp, 2%nat,
     [TextExtractor tt; CheapTier Samples.transcript]).
Proof.
  assert (Hlen : (MIN_TEXT_LENGTH <= length (Js.trim Samples.transcript))%nat)
    by (vm_compute; lia).
  assert (Hbare : (Sufficiency.fieldsPresent Samples.bare < 2)%nat)
    by (vm_compute; lia).
  split; [exact Hbare|]. split.
  - apply (proj1 (proj2 (proj2 (escalation_iff_needsFallback
             (Samples.readsText Samples.transcript)
             (Samples.answers Samples.bare)
             (Samples.visionAnswers Samples.exampleCorp)
             tt 0%nat 1%nat 2%nat Samples.transcript Samples.bare
             eq_refl Hlen eq_refl)))).
    right. exact Hbare.
  - apply (escalation_iff_needsFallback
             (Samples.readsText Samples.transcript)
             (Samples.answers Samples.exampleCorp)
             (Samples.visionAnswers Samples.exampleCorp)
             tt 0%nat 1%nat 2%nat Samples.transcript Samples.exampleCorp
             eq_refl Hlen eq_refl).
    intros [[H|H]|H]; [discriminate H|discriminate H|].
    vm_compute in H. lia.
Defined.

Lemma no_text_goes_to_expensive_tier_witness :
  (length Samples.scan < 100)%nat /\
  log (extractFromPDF (Samples.readsText Samples.scan)
                      (Samples.answers Samples.exampleCorp)
                      (Samples.visionAnswers Samples.exampleCorp) tt 0%nat)
  = [TextExtractor tt; ExpensiveTier tt].
Proof.
  assert (Hlen : (length Samples.scan < 100)%nat) by (vm_compute; lia).
  split; [exact Hlen|].
  apply (no_text_goes_to_expensive_tier
           (Samples.readsText Samples.scan)
           (Samples.answers Samples.exampleCorp)
           (Samples.visionAnswers Samples.exampleCorp) tt 0%nat Hlen).
Defined.

Section Retry.
Context {W T : Type}.
Variable fn : W -> result thrown T * W.

Lemma retryFrom_success maxAttempts attempt left (w w1 : W) (v : T) :
  fn w = (Ok v, w1) ->
  retryFrom fn maxAttempts attempt (S left) w = (Ok v, w1, [Invoke]).
Proof.
  intros H. simpl. unfold tryCatch, call. rewrite H. reflexivity.
Qed.

Lemma retryFrom_fatal maxAttempts attempt left (w w1 : W) e :
  fn w = (Err e, w1) ->
  isRateLimit e && (attempt <? maxAttempts) = false ->
  retryFrom fn maxAttempts attempt (S left) w = (Err (apiError e), w1, [Invoke]).
Proof.
  intros H Hc. simpl. unfold tryCatch, call. rewrite H, Hc. reflexivity.
Qed.

Lemma retryFrom_again maxAttempts attempt left (w w1 : W) e :
  fn w = (Err e, w1) ->
  isRateLimit e = true -> attempt < maxAttempts ->
  retryFrom fn maxAttempts attempt (S left) w =
    let r := retryFrom fn maxAttempts (attempt + 1) left w1 in
    (outcome r, world r,
     Invoke :: Wait (RETRY_BASE_DELAY_MS * attempt) :: log r).
Proof.
  intros H Hr Hlt. simpl. unfold tryCatch, call. rewrite H, Hr.
  apply Z.ltb_lt in Hlt. rewrite Hlt. simpl.
  unfold bind, emit.
  destruct (retryFrom fn maxAttempts (attempt + 1) left w1) as [[r w2] l].
  reflexivity.
Qed.

(** The loop never invokes [fn] more often than it has iterations. *)
Lemma retryFrom_invocations_le maxAttempts attempt left (w : W) :
  (invocations (log (retryFrom fn maxAttempts attempt left w)) <= left)%nat.
Proof.
  revert attempt w. induction left as [|left IH]; intros attempt w.
  - simpl. unfold throw, log, invocations. simpl. lia.
  - destruct (fn w) as [[v|e] w1] eqn:Hf.
    + rewrite (retryFrom_success _ _ _ _ _ _ Hf). unfold log, invocations. simpl. lia.
    + destruct (isRateLimit e && (attempt <? maxAttempts)) eqn:Hc.
      * apply andb_prop in Hc as [Hr Hlt]. apply Z.ltb_lt in Hlt.
        rewrite (retryFrom_again _ _ _ _ _ _ Hf Hr Hlt).
        specialize (IH (attempt + 1) w1).
        unfold log, invocations in *. simpl in *. lia.
      * rewrite (retryFrom_fatal _ _ _ _ _ _ Hf Hc).
        unfold log, invocations. simpl. lia.
Qed.

(** [withRetry] invokes [fn] at most [maxAttempts] times, whatever [fn]
    does. *)
Lemma withRetry_invocations_bounded maxAttempts (w : W) :
  (invocations (log (withRetry fn maxAttempts w)) <= Z.to_nat maxAttempts)%nat.
Proof. apply retryFrom_invocations_le. Qed.


End Retry.


End ExtractorFacts.

(** ** The strategy and the retry loop, for every collaborator *)

Module PipelineFacts.
Import Extractor.

Section Strategy.
Context {W Buffer : Type}.
Variable extractTextFromPDF : Buffer -> W -> result thrown Js.str * W.
Variable extractFromText : Js.str -> W -> result thrown ExtractedData * W.
Variable extractFromFullPDF : Buffer -> W -> result thrown ExtractedData * W.

Local Abbreviation strategy :=
  (extractFromPDF extractTextFromPDF extractFromText extractFromFullPDF).

(** The strategy calls the text extractor once, first, and then each
    tier at most once, the cheap tier never after the expensive one.
    The cheap tier is given the text as extracted, not trimmed. *)
Theorem extractFromPDF_calls_each_tier_once (pdf : Buffer) (w : W) :
  let l := log (strategy pdf w) in
  l = [TextExtractor pdf; ExpensiveTier pdf] \/
  exists text, fst (extractTextFromPDF pdf w) = Ok text /\
    (l = [TextExtractor pdf; CheapTier text] \/
     l = [TextExtractor pdf; CheapTier text; ExpensiveTier pdf]).
Proof.
  unfold extractFromPDF, bind, tryCatch, call, ret, log.
  destruct (extractTextFromPDF pdf w) as [[text|e] w1]; simpl.
  - destruct (length (Js.trim text) <? MIN_TEXT_LENGTH)%nat.
    + left. destruct (extractFromFullPDF pdf w1); reflexivity.
    + right. exists text. split; [reflexivity|].
      destruct (extractFromText text w1) as [[data|e] w2]; simpl.
      * destruct (needsFallback data); simpl.
        -- right. destruct (extractFromFullPDF pdf w2); reflexivity.
        -- left. reflexivity.
      * left. reflexivity.
  - left. destruct (extractFromFullPDF pdf w1); reflexivity.
Qed.

(** A failure of the cheap tier is not escalated: the strategy fails
    with that error and the expensive tier is not called. *)
Theorem cheap_failure_is_not_escalated (pdf : Buffer) (w w1 : W) text e :
  extractTextFromPDF pdf w = (Ok text, w1) ->
  (MIN_TEXT_LENGTH <= length (Js.trim text))%nat ->
  fst (extractFromText text w1) = Err e ->
  outcome (strategy pdf w) = Err e /\
  log (strategy pdf w) = [TextExtractor pdf; CheapTier text].
Proof.
  intros Ht Hlen He.
  unfold extractFromPDF, bind, tryCatch, call, ret, outcome, log.
  rewrite Ht. simpl.
  destruct (length (Js.trim text) <? MIN_TEXT_LENGTH)%nat eqn:Hlt.
  { apply Nat.ltb_lt in Hlt. lia. }
  destruct (extractFromText text w1) as [r w2]. simpl in He. subst r.
  simpl. split; reflexivity.
Qed.

(** The result of the strategy is the result of the last tier it
    called: whenever the expensive tier is called, its record or its
    error is what the strategy returns, and the record of the cheap tier
    is dropped. *)
Theorem expensive_tier_has_the_last_word (pdf : Buffer) (w : W) :
  In (ExpensiveTier pdf) (log (strategy pdf w)) ->
  exists w1, outcome (strategy pdf w) = fst (extractFromFullPDF pdf w1) /\
             world (strategy pdf w) = snd (extractFromFullPDF pdf w1).
Proof.
  unfold extractFromPDF, bind, tryCatch, call, ret, outcome, world, log.
  destruct (extractTextFromPDF pdf w) as [[text|e] w1]; simpl.
  - destruct (length (Js.trim text) <? MIN_TEXT_LENGTH)%nat.
    + intros _. exists w1. destruct (extractFromFullPDF pdf w1); split; reflexivity.
    + destruct (extractFromText text w1) as [[data|e] w2]; simpl.
      * destruct (needsFallback data); simpl.
        -- intros _. exists w2. destruct (extractFromFullPDF pdf w2); split; reflexivity.
        -- intros [H|[H|[]]]; discriminate H.
      * intros [H|[H|[]]]; discriminate H.
  - intros _. exists w1. destruct (extractFromFullPDF pdf w1); split; reflexivity.
Qed.

End Strategy.

Lemma cheap_failure_is_not_escalated_witness :
  outcome (extractFromPDF (Samples.readsText Samples.transcript)
             (Samples.refuses Parser.parseFailure)
             (Samples.visionAnswers Samples.exampleCorp) tt 0%nat)
    = Err Parser.parseFailure /\
  log (extractFromPDF (Samples.readsText Samples.transcript)
         (Samples.refuses Parser.parseFailure)
         (Samples.visionAnswers Samples.exampleCorp) tt 0%nat)
    = [TextExtractor tt; CheapTier Samples.transcript].
Proof.
  assert (Hlen : (MIN_TEXT_LENGTH <= length (Js.trim Samples.transcript))%nat)
    by (vm_compute; lia).
  exact (cheap_failure_is_not_escalated
           (Samples.readsText Samples.transcript)
           (Samples.refuses Parser.parseFailure)
           (Samples.visionAnswers Samples.exampleCorp)
           tt 0%nat 1%nat Samples.transcript Parser.parseFailure
           eq_refl Hlen eq_refl).
Defined.

Lemma expensive_tier_has_the_last_word_witness :
  exists w1,
    outcome (extractFromPDF (Samples.readsText Samples.scan)
               (Samples.answers Samples.exampleCorp)
               (Samples.visionAnswers Samples.bare) tt 0%nat)
      = fst (Samples.visionAnswers Samples.bare tt w1) /\
    world (extractFromPDF (Samples.readsText Samples.scan)
             (Samples.answers Samples.exampleCorp)
             (Samples.visionAnswers Samples.bare) tt 0%nat)
      = snd (Samples.visionAnswers Samples.bare tt w1).
Proof.
  apply (expensive_tier_has_the_last_word
           (Samples.readsText Samples.scan)
           (Samples.answers Samples.exampleCorp)
           (Samples.visionAnswers Samples.bare) tt 0%nat).
  vm_compute. right. left. reflexivity.
Defined.

Section Retry.
Context {W T : Type}.
Variable fn : W -> result thrown T * W.

(** The events of [n] retries that follow attempt number [attempt]. *)
Local Abbreviation retries attempt n :=
  (flat_map (fun i => [Wait (RETRY_BASE_DELAY_MS * (attempt + Z.of_nat i)); Invoke])
            (seq 0 n)).

Lemma retries_shift (attempt : Z) (n : nat) :
  flat_map (fun i => [Wait (RETRY_BASE_DELAY_MS * (attempt + Z.of_nat i)); Invoke])
           (seq 1 n)
  = retries (attempt + 1) n.
Proof.
  rewrite <- seq_shift, flat_map_concat_map, map_map, <- flat_map_concat_map.
  apply flat_map_ext. intros i.
  replace (attempt + Z.of_nat (S i)) with (attempt + 1 + Z.of_nat i) by lia.
  reflexivity.
Qed.

(** What the loop does from attempt [attempt] on, when it has an
    iteration left for every attempt up to [maxAttempts]. *)
Lemma retryFrom_shape maxAttempts (left : nat) :
  forall attempt (w : W),
  attempt + Z.of_nat left = maxAttempts + 1 -> (1 <= left)%nat ->
  let r := retryFrom fn maxAttempts attempt left w in
  (exists n, (n < left)%nat /\
     log r = Invoke :: retries attempt n /\
     match outcome r with
     | Ok v => exists w', fst (fn w') = Ok v
     | Err e => exists w' e0, fst (fn w') = Err e0 /\ e = apiError e0 /\
                  (isRateLimit e0 = true -> S n = left)
     end).
Proof.
  induction left as [|left IH]; intros attempt w Hsum Hpos; [lia|].
  cbv zeta. destruct (fn w) as [[v|e] w1] eqn:Hf.
  - rewrite (ExtractorFacts.retryFrom_success _ _ _ _ _ _ _ Hf).
    exists 0%nat. split; [lia|]. split; [reflexivity|].
    unfold outcome. simpl. exists w. rewrite Hf. reflexivity.
  - destruct (isRateLimit e && (attempt <? maxAttempts)) eqn:Hc.
    + apply andb_prop in Hc as [Hr Hlt]. apply Z.ltb_lt in Hlt.
      rewrite (ExtractorFacts.retryFrom_again _ _ _ _ _ _ _ Hf Hr Hlt).
      cbv zeta.
      destruct (IH (attempt + 1) w1 ltac:(lia) ltac:(lia)) as (n & Hn & Hlog & Hout).
      exists (S n). split; [lia|]. split.
      * unfold log in *. simpl snd. rewrite Hlog.
        change (seq 0 (S n)) with (0%nat :: seq 1 n).
        cbn [flat_map]. rewrite retries_shift.
        replace (attempt + Z.of_nat 0) with attempt by lia. reflexivity.
      * unfold outcome in *. simpl fst.
        destruct (fst (fst (retryFrom fn maxAttempts (attempt + 1) left w1)))
          as [v|err]; [exact Hout|].
        destruct Hout as (w' & cause & H1 & H2 & H3).
        exists w', cause. split; [exact H1|]. split; [exact H2|].
        intros Hrl. rewrite (H3 Hrl). reflexivity.
    + rewrite (ExtractorFacts.retryFrom_fatal _ _ _ _ _ _ _ Hf Hc).
      exists 0%nat. split; [lia|]. split; [reflexivity|].
      unfold outcome. simpl. exists w, e. rewrite Hf.
      repeat split. intros Hr. rewrite Hr in Hc. simpl in Hc.
      apply Z.ltb_ge in Hc. f_equal. lia.
Qed.

(** [withRetry] alternates invocations and waits, and the wait after the
    [k]-th failure is [k] times the base delay.  Its result is the result
    of an invocation of [fn]: a value that [fn] returned, or an error that
    [fn] threw, passed through [throwAPIError]; a rate-limit error comes
    out only when all [maxAttempts] invocations have been made. *)
Theorem withRetry_backs_off_linearly (maxAttempts : Z) (w : W) :
  1 <= maxAttempts ->
  let r := withRetry fn maxAttempts w in
  exists n, Z.of_nat n < maxAttempts /\
    log r = Invoke :: flat_map (fun i => [Wait (RETRY_BASE_DELAY_MS * Z.of_nat (S i)); Invoke])
                               (seq 0 n) /\
    match outcome r with
    | Ok v => exists w', fst (fn w') = Ok v
    | Err e => exists w' e0, fst (fn w') = Err e0 /\ e = apiError e0 /\
                 (isRateLimit e0 = true -> Z.of_nat (S n) = maxAttempts)
    end.
Proof.
  intros Hmax. cbv zeta. unfold withRetry.
  destruct (retryFrom_shape maxAttempts (Z.to_nat maxAttempts) 1 w
              ltac:(lia) ltac:(lia)) as (n & Hn & Hlog & Hout).
  exists n. split; [lia|]. split.
  - rewrite Hlog. f_equal. apply flat_map_ext. intros i.
    replace (1 + Z.of_nat i) with (Z.of_nat (S i)) by lia. reflexivity.
  - destruct (outcome (retryFrom fn maxAttempts 1 (Z.to_nat maxAttempts) w))
      as [v|err]; [exact Hout|].
    destruct Hout as (w' & cause & H1 & H2 & H3).
    exists w', cause. split; [exact H1|]. split; [exact H2|].
    intros Hr. rewrite (H3 Hr). lia.
Qed.

(** With no attempt allowed, [withRetry] does not invoke [fn] and throws
    the error of the end of the loop. *)
Lemma withRetry_without_attempts (maxAttempts : Z) (w : W) :
  maxAttempts <= 0 ->
  withRetry fn maxAttempts w
  = (Err (JsError (Js.lit "Max retries exceeded")), w, []).
Proof.
  intros H. unfold withRetry.
  replace (Z.to_nat maxAttempts) with 0%nat by lia. reflexivity.
Qed.

End Retry.

Lemma withRetry_backs_off_linearly_witness :
  exists n, Z.of_nat n < 4 /\
    log (withRetry Samples.alwaysLimited 4 0%nat)
    = Invoke :: flat_map (fun i => [Wait (RETRY_BASE_DELAY_MS * Z.of_nat (S i)); Invoke])
                         (seq 0 n).
Proof.
  destruct (withRetry_backs_off_linearly Samples.alwaysLimited 4 0%nat ltac:(lia))
    as (n & Hn & Hlog & _).
  exists n. split; [exact Hn|exact Hlog].
Defined.

Lemma withRetry_without_attempts_witness :
  withRetry Samples.alwaysLimited 0 0%nat
  = (Err (JsError (Js.lit "Max retries exceeded")), 0%nat, []).
Proof.
  apply (withRetry_without_attempts Samples.alwaysLimited 0 0%nat). lia.
Defined.

End PipelineFacts.

(** ** The two oracle paths *)

Module TiersFacts.
Import Extractor Parser Tiers.

Lemma requests_Attempt (l : list retryEvent) :
  requests (map Attempt l) = invocations l.
Proof.
  unfold requests, invocations.
  induction l as [|e l IH]; [reflexivity|].
  destruct e; simpl in *; lia.
Qed.

Lemma requests_app (l1 l2 : list slotEvent) :
  requests (l1 ++ l2) = (requests l1 + requests l2)%nat.
Proof. unfold requests. rewrite List.filter_app, length_app. reflexivity. Qed.

Lemma requests_framed (l : list retryEvent) (tail : list slotEvent) :
  requests (Acquire :: map Attempt l ++ tail) = (invocations l + requests tail)%nat.
Proof.
  change (Acquire :: map Attempt l ++ tail) with ([Acquire] ++ map Attempt l ++ tail).
  rewrite !requests_app, requests_Attempt. reflexivity.
Qed.

Section Oracle.
Context {W Buffer : Type}.
Variable create : request Buffer -> W -> result thrown (list block) * W.

Local Abbreviation attempts message w :=
  (withRetry (thenParse (create message)) RETRY_MAX_ATTEMPTS w).

Lemma attempts_invocations (message : request Buffer) (w : W) :
  (1 <= invocations (log (attempts message w)) <= 4)%nat.
Proof.
  split.
  - destruct (PipelineFacts.retryFrom_shape (thenParse (create message))
                RETRY_MAX_ATTEMPTS 4 1 w eq_refl ltac:(lia)) as (n & _ & Hlog & _).
    unfold withRetry. change (Z.to_nat RETRY_MAX_ATTEMPTS) with 4%nat.
    rewrite Hlog. unfold invocations. simpl. lia.
  - apply (ExtractorFacts.retryFrom_invocations_le (thenParse (create message))
             RETRY_MAX_ATTEMPTS 1 4 w).
Qed.

(** Both oracle paths give their slot back whether they succeed or
    fail, and send at least one and at most four requests.  The text
    path never holds its slot; the document path holds it for
    [POST_VISION_DELAY_MS] after a success, and not at all after a
    failure. *)
Theorem oracle_paths_release_their_slot (w : W) :
  (forall text,
     let r := extractFromText create text w in
     outcome r = outcome (attempts (TextPrompt text) w) /\
     log r = Acquire :: map Attempt (log (attempts (TextPrompt text) w)) ++ [Release] /\
     (1 <= requests (log r) <= 4)%nat) /\
  (forall pdf,
     let r := extractFromFullPDF create pdf w in
     outcome r = outcome (attempts (DocumentPrompt pdf) w) /\
     log r = Acquire :: map Attempt (log (attempts (DocumentPrompt pdf) w))
               ++ (if is_ok (outcome r) then [Hold POST_VISION_DELAY_MS] else [])
               ++ [Release] /\
     (1 <= requests (log r) <= 4)%nat).
Proof.
  split.
  - intros text. cbv zeta.
    pose proof (attempts_invocations (TextPrompt text) w) as Hn.
    unfold extractFromText, run, request_, relabel, outcome, log in *.
    destruct (withRetry (thenParse (create (TextPrompt text))) RETRY_MAX_ATTEMPTS w)
      as [[r w1] l]. simpl in *.
    split; [reflexivity|]. split; [reflexivity|].
    rewrite requests_framed. change (requests [Release]) with 0%nat. lia.
  - intros pdf. cbv zeta.
    pose proof (attempts_invocations (DocumentPrompt pdf) w) as Hn.
    unfold extractFromFullPDF, run, request_, relabel, bind, emit, ret, outcome, log in *.
    destruct (withRetry (thenParse (create (DocumentPrompt pdf))) RETRY_MAX_ATTEMPTS w)
      as [[[v|e] w1] l]; simpl in *.
    + split; [reflexivity|]. split.
      { rewrite <- app_assoc. reflexivity. }
      rewrite <- app_assoc, requests_framed.
      change (requests ([Hold POST_VISION_DELAY_MS] ++ [Release])) with 0%nat. lia.
    + split; [reflexivity|]. split; [reflexivity|].
      rewrite requests_framed. change (requests [Release]) with 0%nat. lia.
Qed.

End Oracle.

End TiersFacts.

(** ** The concurrency pool *)

Module SemaphoreFacts.
Import Semaphore.

(** C5, the bound. Both pools reach a state with more calls in flight
    than their capacity: the serialized pool holds 2, the pool of three
    holds 4. *)
Theorem pool_capacity_exceeded :
  (exists s, reachable Extractor.VISION_CONCURRENCY s /\
             holders s = [3; 2]%nat /\ running s = 2 /\
             Extractor.VISION_CONCURRENCY < running s) /\
  (exists s, reachable Extractor.TEXT_CONCURRENCY s /\
             holders s = [2; 3; 5; 4]%nat /\ running s = 4 /\
             Extractor.TEXT_CONCURRENCY < running s).
Proof.
  split.
  - eexists. split; [exists overrun_1; vm_compute; reflexivity|].
    repeat split.
  - eexists. split; [exists overrun_3; vm_compute; reflexivity|].
    repeat split.
Qed.

(** The trace of the serialized pool is the trace of a program: three
    calls of [run] in one turn of the event loop, the first of which
    finishes without waiting.  When no job is left, calls 3 and 2 are
    both in flight. *)
Lemma overrun_program :
  let l := runScript 1 overrunQuick overrunScript 10 in
  jobs l = [] /\ taken l = overrun_1 /\
  holders (pool l) = [3; 2]%nat /\ running (pool l) = 2.
Proof. vm_compute. repeat split. Qed.

(** What one step does to a call that waits with [p] calls ahead of it:
    a release brings it one place forward, or wakes it when it is the
    head; nothing else moves it. *)
Lemma step_queue_position (c : Z) (s s' : state) (a : action) (j p : nat) :
  step c s a = Some s' ->
  queue s !! p = Some j ->
  match a with
  | Finish _ =>
      match p with
      | O => woken s' = woken s ++ [j] /\ queue s' = drop 1 (queue s)
      | S p' => queue s' !! p' = Some j
      end
  | _ => queue s' !! p = Some j
  end.
Proof.
  intros Hstep Hp. destruct a as [i|i|i]; simpl in Hstep.
  - destruct (known s i); [discriminate|].
    destruct (c <=? running s); inversion Hstep; subst; simpl; [|exact Hp].
    apply lookup_app_l_Some. exact Hp.
  - destruct (woken s) as [|k rest]; [discriminate|].
    destruct (Nat.eqb i k); inversion Hstep; subst; simpl. exact Hp.
  - destruct (bool_decide (i ∈ holders s)); [|discriminate].
    destruct (queue s) as [|k rest]; [discriminate Hp|].
    inversion Hstep; subst; simpl.
    destruct p as [|p']; simpl in Hp.
    + inversion Hp; subst. auto.
    + exact Hp.
Qed.

(** A call that waits with [p] calls ahead of it is woken by the
    [p + 1]-th release that follows and by no other, whatever calls enter
    or resume in between: each release takes the head of the queue, and
    a call that finds the pool full goes to the end of the queue, behind
    it. *)
Theorem release_wakes_longest_waiting
    (c : Z) (l : list action) (s s' : state) (j p : nat) :
  queue s !! p = Some j ->
  exec c s l = Some s' ->
  (releases l <= p)%nat ->
  queue s' !! (p - releases l)%nat = Some j /\
  (releases l = p -> forall k s'', step c s' (Finish k) = Some s'' ->
     woken s'' = woken s' ++ [j] /\ queue s'' = drop 1 (queue s')) /\
  (forall i s'', c <= running s' -> step c s' (Enter i) = Some s'' ->
     queue s'' = queue s' ++ [i] /\ queue s'' !! (p - releases l)%nat = Some j).
Proof.
  intros Hp Hex Hle.
  assert (Hpos : queue s' !! (p - releases l)%nat = Some j).
  { revert s p Hp Hex Hle. induction l as [|a l IH]; intros s p Hp Hex Hle.
    - simpl in Hex. inversion Hex; subst. unfold releases. simpl.
      rewrite Nat.sub_0_r. exact Hp.
    - simpl in Hex. destruct (step c s a) as [s1|] eqn:Hstep; [|discriminate].
      pose proof (step_queue_position c s s1 a j p Hstep Hp) as Hq.
      unfold releases in *. destruct a as [i|i|i]; simpl in *.
      + exact (IH s1 p Hq Hex Hle).
      + exact (IH s1 p Hq Hex Hle).
      + destruct p as [|p']; [lia|].
        apply (IH s1 p' Hq Hex). lia. }
  split; [exact Hpos|]. split.
  - intros Heq k s'' Hstep.
    rewrite Heq, Nat.sub_diag in Hpos.
    exact (step_queue_position c s' s'' (Finish k) j 0 Hstep Hpos).
  - intros i s'' Hfull Hstep. simpl in Hstep.
    destruct (known s' i); [discriminate|].
    apply Z.leb_le in Hfull. rewrite Hfull in Hstep.
    inversion Hstep; subst; simpl. split; [reflexivity|].
    apply lookup_app_l_Some. exact Hpos.
Qed.

Lemma release_wakes_longest_waiting_witness :
  queue Samples.poolWaiting !! 1%nat = Some 3%nat /\
  exists s',
    exec 1 Samples.poolWaiting [Enter 4; Finish 1; Resume 2] = Some s' /\
    (releases [Enter 4; Finish 1; Resume 2] <= 1)%nat /\
    queue s' !! 0%nat = Some 3%nat /\
    forall k s'', step 1 s' (Finish k) = Some s'' ->
      woken s'' = woken s' ++ [3%nat] /\ queue s'' = drop 1 (queue s').
Proof.
  assert (Hq : queue Samples.poolWaiting !! 1%nat = Some 3%nat) by reflexivity.
  assert (Hr : (releases [Enter 4; Finish 1; Resume 2] <= 1)%nat)
    by (vm_compute; lia).
  split; [exact Hq|].
  eexists. split; [reflexivity|]. split; [exact Hr|].
  destruct (release_wakes_longest_waiting 1 [Enter 4; Finish 1; Resume 2]
              Samples.poolWaiting _ 3 1 Hq eq_refl Hr) as (H1 & H2 & _).
  split; [exact H1|]. exact (H2 eq_refl).
Defined.

Lemma full_pool_enqueues_last (c : Z) (s s' : state) (j : nat) :
  c <= running s ->
  step c s (Enter j) = Some s' ->
  queue s' = queue s ++ [j] /\ holders s' = holders s /\ running s' = running s.
Proof.
  intros Hfull Hstep. simpl in Hstep.
  destruct (known s j); [discriminate|].
  apply Z.leb_le in Hfull. rewrite Hfull in Hstep.
  inversion Hstep; subst; simpl. auto.
Qed.

Lemma step_keeps_waiting (c : Z) (s s' : state) (a : action) (j : nat) :
  (forall k, a <> Finish k) ->
  step c s a = Some s' ->
  woken s = [] -> j ∈ queue s -> j ∉ holders s ->
  woken s' = [] /\ j ∈ queue s' /\ j ∉ holders s'.
Proof.
  intros Hnf Hstep Hw Hq Hh. destruct a as [i|i|i]; simpl in Hstep.
  - destruct (known s i) eqn:Hk; [discriminate|].
    assert (Hij : i <> j).
    { intros ->. unfold known in Hk. apply bool_decide_eq_false in Hk.
      apply Hk. apply elem_of_app. auto. }
    destruct (c <=? running s); inversion Hstep; subst; simpl; clear Hstep.
    + repeat split; auto. apply elem_of_app. auto.
    + repeat split; auto. intros Hin. apply elem_of_app in Hin as [Hin|Hin]; auto.
      apply list_elem_of_singleton in Hin. congruence.
  - rewrite Hw in Hstep. discriminate.
  - exfalso. apply (Hnf i). reflexivity.
Qed.

Lemma exec_keeps_waiting (c : Z) (l : list action) (s s' : state) (j : nat) :
  noFinish l ->
  exec c s l = Some s' ->
  woken s = [] -> j ∈ queue s -> j ∉ holders s ->
  j ∈ queue s' /\ j ∉ holders s'.
Proof.
  revert s. induction l as [|a l IH]; intros s Hnf Hex Hw Hq Hh.
  - simpl in Hex. inversion Hex; subst. auto.
  - simpl in Hex. destruct (step c s a) as [s1|] eqn:Hstep; [|discriminate].
    assert (Ha : forall k, a <> Finish k).
    { intros k ->. apply (Hnf k). left. }
    destruct (step_keeps_waiting c s s1 a j Ha Hstep Hw Hq Hh) as (Hw1 & Hq1 & Hh1).
    apply (IH s1); auto.
    intros k Hk. apply (Hnf k). right. exact Hk.
Qed.

Lemma exec_app (c : Z) (l1 l2 : list action) (s : state) :
  exec c s (l1 ++ l2) =
  match exec c s l1 with Some s1 => exec c s1 l2 | None => None end.
Proof.
  revert s. induction l1 as [|a l1 IH]; intros s; simpl; [reflexivity|].
  destruct (step c s a); auto.
Qed.

Lemma enters_snoc (first n : nat) :
  enters first (S n) = enters first n ++ [Enter (first + n)%nat].
Proof.
  revert first. induction n as [|n IH]; intros first.
  - simpl. rewrite Nat.add_0_r. reflexivity.
  - change (enters first (S (S n))) with (Enter first :: enters (S first) (S n)).
    rewrite IH. simpl. rewrite Nat.add_succ_r. reflexivity.
Qed.

(** From the empty pool, [n <= capacity] calls that enter all get a slot. *)
Lemma exec_enters_free (c : Z) (n first : nat) (s : state) :
  running s + Z.of_nat n <= c ->
  (forall j, (first <= j)%nat -> known s j = false) ->
  exists s',
    exec c s (enters first n) = Some s' /\
    running s' = running s + Z.of_nat n /\
    queue s' = queue s /\ woken s' = woken s /\
    holders s' = holders s ++ seq first n.
Proof.
  revert first s. induction n as [|n IH]; intros first s Hcap Hfresh.
  - exists s. simpl. rewrite app_nil_r. repeat split; lia.
  - simpl. rewrite (Hfresh first) by lia.
    destruct (c <=? running s) eqn:Hle; [apply Z.leb_le in Hle; lia|].
    set (s1 := {| running := running s + 1; queue := queue s;
                  woken := woken s; holders := holders s ++ [first] |}).
    destruct (IH (S first) s1) as (s' & Hex & Hr & Hq & Hw & Hh).
    + simpl. lia.
    + intros j Hj. specialize (Hfresh j ltac:(lia)).
      unfold known in *. apply bool_decide_eq_false in Hfresh.
      apply bool_decide_eq_false. simpl. intros Hin. apply Hfresh.
      rewrite !elem_of_app in *.
      destruct Hin as [Hin|[Hin|[Hin|Hin]]]; auto.
      apply list_elem_of_singleton in Hin. lia.
    + exists s'. split; [exact Hex|]. simpl in *.
      rewrite Hr, Hq, Hw, Hh. repeat split; try lia.
      rewrite <- app_assoc. reflexivity.
Qed.

(** In a pool that is full and has woken nobody, steps among which no
    call finishes change nothing but the queue, which grows at its
    end. *)
Lemma exec_full_no_finish (c : Z) (l : list action) (s s' : state) :
  noFinish l ->
  exec c s l = Some s' ->
  woken s = [] -> c <= running s ->
  holders s' = holders s /\ running s' = running s /\ woken s' = [] /\
  exists later, queue s' = queue s ++ later.
Proof.
  revert s. induction l as [|a l IH]; intros s Hnf Hex Hw Hfull.
  - simpl in Hex. inversion Hex; subst. repeat split; auto.
    exists []. rewrite app_nil_r. reflexivity.
  - simpl in Hex. destruct (step c s a) as [s1|] eqn:Hstep; [|discriminate].
    assert (Hnf' : noFinish l).
    { intros k Hk. apply (Hnf k). right. exact Hk. }
    destruct a as [i|i|i]; simpl in Hstep.
    + destruct (known s i); [discriminate|].
      pose proof Hfull as Hb. apply Z.leb_le in Hb. rewrite Hb in Hstep.
      inversion Hstep; subst s1; clear Hstep.
      destruct (IH _ Hnf' Hex Hw Hfull) as (H1 & H2 & H3 & later & H4).
      simpl in *. repeat split; auto.
      exists (i :: later). rewrite H4, <- app_assoc. reflexivity.
    + rewrite Hw in Hstep. discriminate.
    + exfalso. apply (Hnf i). left.
Qed.

(** When [capacity + 1] calls enter the empty
    pool, the first [capacity] hold a slot and the last one waits, at the
    head of the queue; after any further steps among which no call
    finishes, the same [capacity] calls hold their slots and the last one
    is still waiting at the head of the queue. *)
Lemma extra_acquisition_waits (capacity : nat) (l : list action) (s : state) :
  noFinish l ->
  exec (Z.of_nat capacity) init (enters 1 (S capacity) ++ l) = Some s ->
  holders s = seq 1 capacity /\ running s = Z.of_nat capacity /\
  woken s = [] /\
  (exists later, queue s = S capacity :: later) /\
  S capacity ∈ queue s /\ S capacity ∉ holders s.
Proof.
  intros Hnf Hex. rewrite exec_app in Hex.
  rewrite (enters_snoc 1 capacity) in Hex. simpl Nat.add in Hex.
  rewrite exec_app in Hex.
  destruct (exec_enters_free (Z.of_nat capacity) capacity 1 init) as (s1 & Hex1 & Hr & Hq & Hw & Hh).
  { simpl. lia. }
  { intros j _. reflexivity. }
  rewrite Hex1 in Hex. simpl in Hex, Hr, Hq, Hw, Hh.
  assert (Hfresh : known s1 (S capacity) = false).
  { unfold known. apply bool_decide_eq_false. rewrite Hq, Hw, Hh. simpl.
    intros Hin. apply elem_of_seq in Hin. lia. }
  rewrite Hfresh in Hex.
  assert (Hfull : (Z.of_nat capacity <=? running s1) = true) by (apply Z.leb_le; lia).
  rewrite Hfull in Hex.
  apply exec_full_no_finish in Hex as (H1 & H2 & H3 & later & H4);
    [|exact Hnf|exact Hw|simpl; lia].
  simpl in H1, H2, H4. rewrite Hh in H1. rewrite Hq in H4. simpl in H4.
  split; [exact H1|]. split; [lia|]. split; [exact H3|].
  split; [exists later; exact H4|]. split.
  - rewrite H4. left.
  - rewrite H1. intros Hin. apply elem_of_seq in Hin. lia.
Qed.

Lemma extra_acquisition_waits_witness :
  noFinish [Enter 5] /\
  exec 3 init (enters 1 4 ++ [Enter 5]) = Some Samples.poolFull /\
  holders Samples.poolFull = [1; 2; 3]%nat /\
  (exists later, queue Samples.poolFull = 4%nat :: later) /\
  (4%nat ∉ holders Samples.poolFull).
Proof.
  assert (Hn : noFinish [Enter 5]).
  { intros j Hin. apply list_elem_of_singleton in Hin. discriminate Hin. }
  assert (He : exec 3 init (enters 1 4 ++ [Enter 5]) = Some Samples.poolFull)
    by reflexivity.
  split; [exact Hn|]. split; [exact He|].
  destruct (extra_acquisition_waits 3 [Enter 5] Samples.poolFull Hn He)
    as (H1 & _ & _ & H4 & _ & H6).
  split; [exact H1|]. split; [exact H4|exact H6].
Defined.

End SemaphoreFacts.

(** ** The concurrency pool: what holds of every state *)

Module SemaphoreInvariants.
Import Semaphore.

Lemma elem_of_remove (j k : nat) (l : list nat) :
  k ∈ remove j l <-> k ∈ l /\ k <> j.
Proof.
  unfold remove. rewrite !list_elem_of_In, filter_In, negb_true_iff, Nat.eqb_neq.
  reflexivity.
Qed.

Lemma NoDup_remove (j : nat) (l : list nat) : NoDup l -> NoDup (remove j l).
Proof.
  intros H. induction H as [|x l Hx Hl IH]; simpl; [constructor|].
  destruct (Nat.eqb x j); simpl; [exact IH|].
  constructor; [|exact IH]. rewrite elem_of_remove. tauto.
Qed.

Lemma length_remove (j : nat) (l : list nat) :
  NoDup l -> j ∈ l -> S (length (remove j l)) = length l.
Proof.
  intros H. induction H as [|x l Hx Hl IH]; intros Hin.
  - inversion Hin.
  - simpl. destruct (Nat.eqb x j) eqn:E; simpl.
    + apply Nat.eqb_eq in E. subst x. f_equal.
      clear IH Hl Hin. induction l as [|y l IH]; [reflexivity|].
      simpl. destruct (Nat.eqb y j) eqn:E.
      * apply Nat.eqb_eq in E. subst y. exfalso. apply Hx. left.
      * simpl. f_equal. apply IH. intros H. apply Hx. right. exact H.
    + f_equal. apply IH. apply elem_of_cons in Hin as [->|Hin]; [|exact Hin].
      rewrite Nat.eqb_refl in E. discriminate.
Qed.

Lemma wf_init : wf init.
Proof. split; [constructor|reflexivity]. Qed.

Lemma step_wf (c : Z) (s s' : state) (a : action) :
  wf s -> step c s a = Some s' -> wf s'.
Proof.
  intros [Hnd Hrun] Hstep.
  apply NoDup_app in Hnd as (Hq & Hqd & Hnd).
  apply NoDup_app in Hnd as (Hw & Hwd & Hh).
  destruct a as [j|j|j]; simpl in Hstep.
  - destruct (known s j) eqn:Hk; [discriminate|].
    unfold known in Hk. apply bool_decide_eq_false in Hk.
    rewrite !elem_of_app in Hk.
    destruct (c <=? running s); inversion Hstep; subst; clear Hstep;
      unfold wf; simpl.
    + split; [|exact Hrun].
      apply NoDup_app. split; [|split].
      * apply NoDup_app. split; [exact Hq|]. split; [|apply NoDup_singleton].
        intros x Hx Hx'. apply list_elem_of_singleton in Hx'. subst x. tauto.
      * intros x Hx Hx'. apply elem_of_app in Hx as [Hx|Hx].
        -- exact (Hqd x Hx Hx').
        -- apply list_elem_of_singleton in Hx. subst x.
           rewrite elem_of_app in Hx'. tauto.
      * apply NoDup_app. auto.
    + split; [|rewrite length_app; simpl; lia].
      apply NoDup_app. split; [exact Hq|]. split.
      * intros x Hx Hx'. rewrite !elem_of_app in Hx'.
        destruct Hx' as [Hx'|[Hx'|Hx']].
        -- apply (Hqd x Hx). apply elem_of_app. auto.
        -- apply (Hqd x Hx). apply elem_of_app. auto.
        -- apply list_elem_of_singleton in Hx'. subst x. tauto.
      * apply NoDup_app. split; [exact Hw|]. split.
        -- intros x Hx Hx'. apply elem_of_app in Hx' as [Hx'|Hx'].
           ++ exact (Hwd x Hx Hx').
           ++ apply list_elem_of_singleton in Hx'. subst x. tauto.
        -- apply NoDup_app. split; [exact Hh|]. split; [|apply NoDup_singleton].
           intros x Hx Hx'. apply list_elem_of_singleton in Hx'. subst x. tauto.
  - destruct (woken s) as [|k rest] eqn:Hwk; [discriminate|].
    destruct (Nat.eqb j k) eqn:E; [|discriminate].
    apply Nat.eqb_eq in E. subst k.
    inversion Hstep; subst; clear Hstep. unfold wf; simpl.
    apply NoDup_cons in Hw as [Hj Hrest].
    split; [|rewrite length_app; simpl; lia].
    apply NoDup_app. split; [exact Hq|]. split.
    + intros x Hx Hx'. apply (Hqd x Hx).
      rewrite !elem_of_app in Hx'. rewrite elem_of_app, elem_of_cons.
      destruct Hx' as [Hx'|[Hx'|Hx']]; auto.
      apply list_elem_of_singleton in Hx'. auto.
    + apply NoDup_app. split; [exact Hrest|]. split.
      * intros x Hx Hx'. apply elem_of_app in Hx' as [Hx'|Hx'].
        -- apply (Hwd x); [right; exact Hx|exact Hx'].
        -- apply list_elem_of_singleton in Hx'. subst x. tauto.
      * apply NoDup_app. split; [exact Hh|]. split; [|apply NoDup_singleton].
        intros x Hx Hx'. apply list_elem_of_singleton in Hx'. subst x.
        apply (Hwd j); [left|exact Hx].
  - destruct (bool_decide (j ∈ holders s)) eqn:Hj; [|discriminate].
    apply bool_decide_eq_true in Hj.
    pose proof (length_remove j (holders s) Hh Hj) as Hlen.
    destruct (queue s) as [|k rest] eqn:Hqs;
      inversion Hstep; subst; clear Hstep; unfold wf; simpl.
    + split; [|lia].
      apply NoDup_app. split; [exact Hw|]. split; [|apply NoDup_remove; exact Hh].
      intros x Hx Hx'. apply elem_of_remove in Hx' as [Hx' _]. exact (Hwd x Hx Hx').
    + apply NoDup_cons in Hq as [Hk Hrest].
      split; [|lia].
      apply NoDup_app. split; [exact Hrest|]. split.
      * intros x Hx Hx'. rewrite !elem_of_app in Hx'.
        destruct Hx' as [[Hx'|Hx']|Hx'].
        -- apply (Hqd x); [right; exact Hx|]. apply elem_of_app. auto.
        -- apply list_elem_of_singleton in Hx'. subst x. tauto.
        -- apply elem_of_remove in Hx' as [Hx' _].
           apply (Hqd x); [right; exact Hx|]. apply elem_of_app. auto.
      * apply NoDup_app. split; [|split; [|apply NoDup_remove; exact Hh]].
        -- apply NoDup_app. split; [exact Hw|]. split; [|apply NoDup_singleton].
           intros x Hx Hx'. apply list_elem_of_singleton in Hx'. subst x.
           apply (Hqd k); [left|]. apply elem_of_app. auto.
        -- intros x Hx Hx'. apply elem_of_remove in Hx' as [Hx' _].
           apply elem_of_app in Hx as [Hx|Hx].
           ++ exact (Hwd x Hx Hx').
           ++ apply list_elem_of_singleton in Hx. subst x.
              apply (Hqd k); [left|]. apply elem_of_app. auto.
Qed.

Lemma exec_wf (c : Z) (l : list action) (s s' : state) :
  wf s -> exec c s l = Some s' -> wf s'.
Proof.
  revert s. induction l as [|a l IH]; intros s Hwf Hex; simpl in Hex.
  - inversion Hex; subst. exact Hwf.
  - destruct (step c s a) as [s1|] eqn:Hstep; [|discriminate].
    apply (IH s1); [|exact Hex]. exact (step_wf c s s1 a Hwf Hstep).
Qed.

(** In every state that the pool can reach, whatever its capacity, the
    counter [running] is the number of calls whose [fn] is in flight (so
    it is never negative), and no call waits and runs at once. *)
Theorem running_counts_calls_in_flight (c : Z) (s : state) :
  reachable c s ->
  running s = Z.of_nat (outstanding s) /\ 0 <= running s /\
  NoDup (queue s ++ woken s ++ holders s).
Proof.
  intros [l Hex]. destruct (exec_wf c l init s wf_init Hex) as [Hnd Hrun].
  unfold outstanding. split; [exact Hrun|]. split; [lia|exact Hnd].
Qed.

Lemma running_counts_calls_in_flight_witness :
  running Samples.poolFull = Z.of_nat (outstanding Samples.poolFull) /\
  0 <= running Samples.poolFull /\
  NoDup (queue Samples.poolFull ++ woken Samples.poolFull ++ holders Samples.poolFull).
Proof.
  apply (running_counts_calls_in_flight 3 Samples.poolFull).
  exists (enters 1 5). reflexivity.
Defined.

Lemma step_attended (c : Z) (s s' : state) (a : action) :
  1 <= c -> wf s -> attended s -> step c s a = Some s' -> attended s'.
Proof.
  intros Hc [_ Hrun] Hat Hstep. unfold attended in *.
  destruct a as [j|j|j]; simpl in Hstep.
  - destruct (known s j); [discriminate|].
    destruct (c <=? running s) eqn:Hfull; inversion Hstep; subst; clear Hstep; simpl.
    + intros _. left. apply Z.leb_le in Hfull.
      destruct (holders s); [simpl in Hrun; lia|discriminate].
    + intros _. left. destruct (holders s); discriminate.
  - destruct (woken s) as [|k rest]; [discriminate|].
    destruct (Nat.eqb j k); [|discriminate].
    inversion Hstep; subst; clear Hstep; simpl.
    intros _. left. destruct (holders s); discriminate.
  - destruct (bool_decide (j ∈ holders s)); [|discriminate].
    destruct (queue s) as [|k rest]; inversion Hstep; subst; clear Hstep; simpl.
    + intros H. congruence.
    + intros _. right. destruct (woken s); discriminate.
Qed.

Lemma exec_attended (c : Z) (l : list action) (s s' : state) :
  1 <= c -> wf s -> attended s -> exec c s l = Some s' -> attended s'.
Proof.
  intros Hc. revert s. induction l as [|a l IH]; intros s Hwf Hat Hex; simpl in Hex.
  - inversion Hex; subst. exact Hat.
  - destruct (step c s a) as [s1|] eqn:Hstep; [|discriminate].
    apply (IH s1); [| |exact Hex].
    + exact (step_wf c s s1 a Hwf Hstep).
    + exact (step_attended c s s1 a Hc Hwf Hat Hstep).
Qed.

(** With a capacity of one or more, a call never waits in an idle pool:
    whenever a call is in the queue, another call is in flight or has been
    woken, and the pool can take the step that brings the head of the
    queue forward. *)
Theorem waiting_call_is_never_stranded (c : Z) (s : state) (j : nat) :
  1 <= c -> reachable c s -> j ∈ queue s ->
  (exists k, k ∈ holders s \/ k ∈ woken s) /\
  (exists a s', (forall i, a <> Enter i) /\ step c s a = Some s').
Proof.
  intros Hc [l Hex] Hj.
  pose proof (exec_wf c l init s wf_init Hex) as Hwf.
  assert (Hat : attended s).
  { apply (exec_attended c l init s Hc wf_init); [|exact Hex].
    intros H. exfalso. apply H. reflexivity. }
  assert (Hq : queue s <> []).
  { intros E. rewrite E in Hj. inversion Hj. }
  destruct (woken s) as [|k rest] eqn:Hw.
  - destruct (Hat Hq) as [Hh|Hh]; [|congruence].
    destruct (holders s) as [|k rest] eqn:Hhs; [congruence|].
    split; [exists k; left; left|].
    exists (Finish k). simpl. rewrite Hhs.
    rewrite bool_decide_eq_true_2 by left.
    destruct (queue s); [congruence|].
    eexists. split; [intros i; discriminate|reflexivity].
  - split; [exists k; right; left|].
    exists (Resume k). simpl. rewrite Hw, Nat.eqb_refl.
    eexists. split; [intros i; discriminate|reflexivity].
Qed.

Lemma waiting_call_is_never_stranded_witness :
  (exists k, k ∈ holders Samples.poolFull \/ k ∈ woken Samples.poolFull) /\
  (exists a s', (forall i, a <> Enter i) /\ step 3 Samples.poolFull a = Some s').
Proof.
  apply (waiting_call_is_never_stranded 3 Samples.poolFull 4).
  - lia.
  - exists (enters 1 5). reflexivity.
  - vm_compute. left.
Defined.

(** A pool of capacity zero (or less) never runs anything: every call
    that enters waits, and no call is ever in flight or woken. *)
Theorem empty_pool_runs_nothing (c : Z) (l : list action) (s : state) :
  c <= 0 -> exec c init l = Some s ->
  holders s = [] /\ woken s = [] /\ running s = 0 /\
  map Enter (queue s) = l.
Proof.
  intros Hc.
  assert (H : forall l s0 s, holders s0 = [] -> woken s0 = [] -> running s0 = 0 ->
            exec c s0 l = Some s ->
            holders s = [] /\ woken s = [] /\ running s = 0 /\
            map Enter (queue s) = map Enter (queue s0) ++ l).
  { clear l s. induction l as [|a l IH]; intros s0 s Hh Hw Hr Hex; simpl in Hex.
    - inversion Hex; subst. rewrite app_nil_r. auto.
    - destruct (step c s0 a) as [s1|] eqn:Hstep; [|discriminate].
      destruct a as [j|j|j]; simpl in Hstep.
      + destruct (known s0 j); [discriminate|].
        rewrite Hr in Hstep.
        destruct (c <=? 0) eqn:E; [|apply Z.leb_gt in E; lia].
        inversion Hstep; subst; clear Hstep.
        apply IH in Hex; [|exact Hh|exact Hw|reflexivity].
        destruct Hex as (H1 & H2 & H3 & H4).
        repeat split; auto. rewrite H4. simpl.
        rewrite map_app, <- app_assoc. reflexivity.
      + rewrite Hw in Hstep. discriminate.
      + rewrite Hh in Hstep.
        rewrite bool_decide_eq_false_2 in Hstep by (intros H; inversion H).
        discriminate. }
  intros Hex. apply (H l init s); auto.
Qed.

Lemma empty_pool_runs_nothing_witness :
  exists s, exec 0 init [Enter 1; Enter 2] = Some s /\
    holders s = [] /\ woken s = [] /\ running s = 0.
Proof.
  eexists. split; [reflexivity|].
  destruct (empty_pool_runs_nothing 0 [Enter 1; Enter 2] _ ltac:(lia) eq_refl)
    as (H1 & H2 & H3 & _).
  auto.
Defined.

Lemma waiters_order (c : Z) (l : list action) :
  forall s s', exec c s l = Some s' ->
  woken s ++ queue s ++ waiters c s l = resumes l ++ woken s' ++ queue s'.
Proof.
  induction l as [|a l IH]; intros s s' Hex; simpl in Hex.
  - inversion Hex; subst. simpl. rewrite app_nil_r. reflexivity.
  - destruct (step c s a) as [s1|] eqn:Hstep; [|discriminate].
    specialize (IH s1 s' Hex).
    cbn [waiters]. rewrite Hstep.
    unfold resumes in *.
    destruct a as [j|j|j]; simpl in Hstep; cbn [flat_map app] in *.
    + destruct (known s j); [discriminate|].
      destruct (c <=? running s); inversion Hstep; subst; clear Hstep;
        simpl in *; rewrite <- IH.
      * rewrite <- !app_assoc. reflexivity.
      * reflexivity.
    + destruct (woken s) as [|k rest]; [discriminate|].
      destruct (Nat.eqb j k) eqn:E; [|discriminate].
      apply Nat.eqb_eq in E. subst k.
      inversion Hstep; subst; clear Hstep. simpl in *.
      rewrite <- IH. reflexivity.
    + destruct (bool_decide (j ∈ holders s)); [|discriminate].
      destruct (queue s) as [|k rest]; inversion Hstep; subst; clear Hstep;
        simpl in *; rewrite <- IH.
      * reflexivity.
      * rewrite <- !app_assoc. reflexivity.
Qed.

(** Calls leave the wait in the order in which they entered it: along
    every trace, the calls that have resumed, then the calls that have
    been woken, then the calls in the queue are the calls that had to
    wait, in the order of their arrival. *)
Theorem waiters_resume_in_arrival_order (c : Z) (l : list action) (s : state) :
  exec c init l = Some s ->
  waiters c init l = resumes l ++ woken s ++ queue s.
Proof.
  intros Hex. exact (waiters_order c l init s Hex).
Qed.

Lemma waiters_resume_in_arrival_order_witness :
  exists s, exec 1 init overrun_1 = Some s /\
    waiters 1 init overrun_1 = resumes overrun_1 ++ woken s ++ queue s.
Proof.
  eexists. split; [reflexivity|].
  apply (waiters_resume_in_arrival_order 1 overrun_1). reflexivity.
Defined.

End SemaphoreInvariants.

(** ** The batch coordinator *)

Module BatchFacts.
Import Batch.

Section ProcessBatch.
Context {T R : Type}.
Variable items : list T.
Variable fn : T -> result thrown R.
Variable concurrency : Z.

Local Abbreviation init := (Batch.init (R := R) items concurrency).
Local Abbreviation complete := (Batch.complete items fn).
Local Abbreviation step := (Batch.step items fn).
Local Abbreviation steps := (Batch.steps items fn).
Local Abbreviation inv := (Batch.inv items fn concurrency).

Lemma workerCount_le : (workerCount items concurrency <= length items)%nat.
Proof. unfold workerCount. lia. Qed.

Lemma spawn_spec (m : nat) (s : @state R) :
  (nextIndex s + m <= length items)%nat ->
  nextIndex (spawn items m s) = (nextIndex s + m)%nat /\
  results (spawn items m s) = results s /\
  workers (spawn items m s) = workers s ++ map Awaiting (seq (nextIndex s) m).
Proof.
  revert s. induction m as [|m IH]; intros s Hle.
  - simpl. rewrite app_nil_r. repeat split; lia.
  - simpl. unfold pull.
    destruct (nextIndex s <? length items)%nat eqn:Hlt.
    2:{ apply Nat.ltb_ge in Hlt. lia. }
    destruct (IH {| nextIndex := S (nextIndex s); results := results s;
                    workers := workers s ++ [Awaiting (nextIndex s)];
                    settled := None |}) as (Hn & Hr & Hw).
    { simpl. lia. }
    simpl in *. rewrite Hn, Hr, Hw. repeat split; [lia|].
    rewrite <- app_assoc. reflexivity.
Qed.

Lemma allReturned_lookup (ws : list worker) (k : nat) (w : worker) :
  allReturned ws = true -> ws !! k = Some w -> w = Returned.
Proof.
  unfold allReturned. rewrite forallb_forall. intros Hall Hk.
  specialize (Hall w). destruct w; auto;
    exfalso; apply Bool.diff_false_true; apply Hall;
    apply list_elem_of_In; eapply list_elem_of_lookup_2; eauto.
Qed.

Lemma allReturned_false (ws : list worker) :
  allReturned ws = false ->
  exists k w, ws !! k = Some w /\ w <> Returned.
Proof.
  induction ws as [|w ws IH]; simpl; [discriminate|].
  destruct w; simpl.
  - intros _. exists 0%nat, (Awaiting index). split; [reflexivity|discriminate].
  - intros H. destruct (IH H) as (k & w & Hk & Hw).
    exists (S k), w. auto.
  - intros _. exists 0%nat, Rejected. split; [reflexivity|discriminate].
Qed.

Lemma init_workers :
  workers init = map Awaiting (seq 0 (workerCount items concurrency)) /\
  nextIndex init = workerCount items concurrency /\
  results init = replicate (length items) None.
Proof.
  unfold Batch.init.
  destruct (spawn_spec (workerCount items concurrency)
              {| nextIndex := 0; results := replicate (length items) None;
                 workers := []; settled := None |}) as (Hn & Hr & Hw).
  { simpl. apply workerCount_le. }
  simpl in *. rewrite Hn, Hr, Hw. auto.
Qed.

Lemma lookup_init_workers (k : nat) (w : worker) :
  workers init !! k = Some w ->
  w = Awaiting k /\ (k < workerCount items concurrency)%nat.
Proof.
  destruct init_workers as (Hw & _ & _). rewrite Hw.
  rewrite list_lookup_fmap. intros H.
  destruct (seq 0 (workerCount items concurrency) !! k) as [i|] eqn:Hi;
    [|discriminate].
  apply lookup_seq in Hi as [-> Hlt]. simpl in H. inversion H. auto.
Qed.

Lemma init_settled :
  settled init =
  if allReturned (workers init) then Some (Ok (results init)) else None.
Proof. reflexivity. Qed.

(** Establish. *)
Lemma inv_init : inv init.
Proof.
  destruct init_workers as (Hw & Hn & Hr).
  constructor.
  - rewrite Hr. apply length_replicate.
  - rewrite Hn. apply workerCount_le.
  - rewrite Hw, length_map, length_seq. reflexivity.
  - intros k i Hk. apply lookup_init_workers in Hk as [Heq Hlt].
    inversion Heq; subst. rewrite Hn. exact Hlt.
  - intros k Hk. apply lookup_init_workers in Hk as [Heq _]. discriminate.
  - intros i item Hi _. left. exists i. rewrite Hw, Hn in *.
    rewrite list_lookup_fmap, lookup_seq_lt by exact Hi. reflexivity.
  - rewrite init_settled. destruct (allReturned (workers init)) eqn:Hall.
    + split; reflexivity.
    + split; [|reflexivity].
      intros k Hk. apply lookup_init_workers in Hk as [Heq _]. discriminate.
Qed.

(** Preserve. *)
Lemma inv_complete (k : nat) (s s' : @state R) :
  inv s -> complete k s = Some s' -> inv s'.
Proof.
  intros [Hres Hnext Hlen Haw Hret Hpul Hset] Hc.
  unfold Batch.complete in Hc.
  destruct (workers s !! k) as [[j| |]|] eqn:Hk; try discriminate.
  destruct (items !! j) as [item|] eqn:Hj; [|discriminate].
  assert (Hkl : (k < length (workers s))%nat) by (eapply lookup_lt_Some; eauto).
  assert (Hjn : (j < nextIndex s)%nat) by (eapply Haw; eauto).
  assert (Hnot : settled s = None \/ exists e, settled s = Some (Err e)).
  { destruct (settled s) as [[res|e]|]; eauto.
    destruct Hset as [Hall _].
    pose proof (allReturned_lookup _ _ _ Hall Hk). discriminate. }
  destruct (fn item) as [r|e] eqn:Hf.
  - (* the call fulfils *)
    unfold pull in Hc.
    destruct (nextIndex s <? length items)%nat eqn:Hlt;
      inversion Hc; subst s'; clear Hc; constructor; cbn [nextIndex results workers settled].
    + rewrite length_insert. exact Hres.
    + apply Nat.ltb_lt in Hlt. lia.
    + rewrite length_insert. exact Hlen.
    + intros k' i Hk'. destruct (decide (k = k')) as [->|Hne].
      * rewrite list_lookup_insert_eq in Hk' by exact Hkl.
        inversion Hk'. lia.
      * rewrite list_lookup_insert_ne in Hk' by exact Hne.
        apply Haw in Hk'. lia.
    + intros k' Hk'. destruct (decide (k = k')) as [->|Hne].
      * rewrite list_lookup_insert_eq in Hk' by exact Hkl. discriminate.
      * rewrite list_lookup_insert_ne in Hk' by exact Hne.
        apply Hret in Hk'. apply Nat.ltb_lt in Hlt. lia.
    + intros i item' Hi Hitem'.
      destruct (decide (i = nextIndex s)) as [->|Hin].
      { left. exists k. apply list_lookup_insert_eq. exact Hkl. }
      destruct (decide (i = j)) as [->|Hij].
      { right. left. exists r. rewrite Hj in Hitem'. inversion Hitem'; subst item'.
        split; [exact Hf|]. apply list_lookup_insert_eq. lia. }
      destruct (Hpul i item' ltac:(lia) Hitem') as [[k' Hk']|[[r' [Hr' Hl']]|[He [k' Hk']]]].
      * left. exists k'. rewrite list_lookup_insert_ne; [exact Hk'|].
        intros ->. rewrite Hk in Hk'. inversion Hk'. congruence.
      * right. left. exists r'. split; [exact Hr'|].
        rewrite list_lookup_insert_ne by congruence. exact Hl'.
      * right. right. split; [exact He|]. exists k'.
        rewrite list_lookup_insert_ne; [exact Hk'|].
        intros ->. rewrite Hk in Hk'. discriminate.
    + destruct Hnot as [Hn|[e Hn]]; rewrite Hn in *; cbn [settleAll].
      * destruct Hset as [Hnr _].
        assert (Hnr' : forall k', <[k:=Awaiting (nextIndex s)]> (workers s) !! k'
                                  <> Some Rejected).
        { intros k'. destruct (decide (k = k')) as [->|Hne].
          - rewrite list_lookup_insert_eq by exact Hkl. discriminate.
          - rewrite list_lookup_insert_ne by exact Hne. apply Hnr. }
        destruct (allReturned (<[k:=Awaiting (nextIndex s)]> (workers s))) eqn:Hall.
        -- split; [reflexivity|reflexivity].
        -- split; [exact Hnr'|reflexivity].
      * destruct Hset as [[k' Hk'] Hitem]. split; [|exact Hitem].
        exists k'. rewrite list_lookup_insert_ne; [exact Hk'|].
        intros ->. rewrite Hk in Hk'. discriminate.
    + rewrite length_insert. exact Hres.
    + exact Hnext.
    + rewrite length_insert. exact Hlen.
    + intros k' i Hk'. destruct (decide (k = k')) as [->|Hne].
      * rewrite list_lookup_insert_eq in Hk' by exact Hkl. discriminate.
      * rewrite list_lookup_insert_ne in Hk' by exact Hne.
        eapply Haw; eauto.
    + intros _ _. apply Nat.ltb_ge in Hlt. lia.
    + intros i item' Hi Hitem'.
      destruct (decide (i = j)) as [->|Hij].
      { right. left. exists r. rewrite Hj in Hitem'. inversion Hitem'; subst item'.
        split; [exact Hf|]. apply list_lookup_insert_eq. lia. }
      destruct (Hpul i item' Hi Hitem') as [[k' Hk']|[[r' [Hr' Hl']]|[He [k' Hk']]]].
      * left. exists k'. rewrite list_lookup_insert_ne; [exact Hk'|].
        intros ->. rewrite Hk in Hk'. inversion Hk'. congruence.
      * right. left. exists r'. split; [exact Hr'|].
        rewrite list_lookup_insert_ne by congruence. exact Hl'.
      * right. right. split; [exact He|]. exists k'.
        rewrite list_lookup_insert_ne; [exact Hk'|].
        intros ->. rewrite Hk in Hk'. discriminate.
    + destruct Hnot as [Hn|[e Hn]]; rewrite Hn in *; cbn [settleAll].
      * destruct Hset as [Hnr _].
        assert (Hnr' : forall k', <[k:=Returned]> (workers s) !! k' <> Some Rejected).
        { intros k'. destruct (decide (k = k')) as [->|Hne].
          - rewrite list_lookup_insert_eq by exact Hkl. discriminate.
          - rewrite list_lookup_insert_ne by exact Hne. apply Hnr. }
        destruct (allReturned (<[k:=Returned]> (workers s))) eqn:Hall.
        -- split; [reflexivity|reflexivity].
        -- split; [exact Hnr'|reflexivity].
      * destruct Hset as [[k' Hk'] Hitem]. split; [|exact Hitem].
        exists k'. rewrite list_lookup_insert_ne; [exact Hk'|].
        intros ->. rewrite Hk in Hk'. discriminate.
  - (* the call rejects *)
    inversion Hc; subst s'; clear Hc; constructor; cbn [nextIndex results workers settled].
    + exact Hres.
    + exact Hnext.
    + rewrite length_insert. exact Hlen.
    + intros k' i Hk'. destruct (decide (k = k')) as [->|Hne].
      * rewrite list_lookup_insert_eq in Hk' by exact Hkl. discriminate.
      * rewrite list_lookup_insert_ne in Hk' by exact Hne.
        eapply Haw; eauto.
    + intros k' Hk'. destruct (decide (k = k')) as [->|Hne].
      * rewrite list_lookup_insert_eq in Hk' by exact Hkl. discriminate.
      * rewrite list_lookup_insert_ne in Hk' by exact Hne. eauto.
    + intros i item' Hi Hitem'.
      assert (Hrej : exists k', <[k:=Rejected]> (workers s) !! k' = Some Rejected).
      { exists k. apply list_lookup_insert_eq. exact Hkl. }
      destruct (decide (i = j)) as [->|Hij].
      { right. right. rewrite Hj in Hitem'. inversion Hitem'; subst item'.
        split; [eauto|exact Hrej]. }
      destruct (Hpul i item' Hi Hitem') as [[k' Hk']|[[r' [Hr' Hl']]|[He _]]].
      * left. exists k'. rewrite list_lookup_insert_ne; [exact Hk'|].
        intros ->. rewrite Hk in Hk'. inversion Hk'. congruence.
      * right. left. exists r'. auto.
      * right. right. auto.
    + assert (Hrej : exists k', <[k:=Rejected]> (workers s) !! k' = Some Rejected).
      { exists k. apply list_lookup_insert_eq. exact Hkl. }
      destruct Hnot as [Hn|[e0 Hn]]; rewrite Hn in *; cbn [settleReject].
      * split; [exact Hrej|]. exists item. split; [|exact Hf].
        eapply list_elem_of_lookup_2; eauto.
      * destruct Hset as [_ Hitem]. auto.
Qed.

Lemma inv_steps (m : nat) (s : @state R) : steps m init s -> inv s.
Proof.
  intros H. remember init as s0 eqn:Hs0. induction H as [s|m s s1 s2 H IH Hstep].
  - subst. apply inv_init.
  - destruct Hstep as [k s1 s2 Hc]. eapply inv_complete; eauto.
Qed.

(** A pending call can always settle. *)
Lemma awaiting_can_step (s : @state R) (k i : nat) :
  inv s -> workers s !! k = Some (Awaiting i) -> exists s', step s s'.
Proof.
  intros Hinv Hk.
  assert (Hi : (i < length items)%nat).
  { pose proof (inv_awaiting s Hinv k i Hk). pose proof (inv_next s Hinv). lia. }
  destruct (lookup_lt_is_Some_2 items i Hi) as [item Hitem].
  assert (exists s', complete k s = Some s') as [s' Hs'].
  { unfold Batch.complete. rewrite Hk, Hitem.
    destruct (fn item); [destruct (pull items s)|]; eauto. }
  exists s'. econstructor. exact Hs'.
Qed.

Lemma pending_awaiting (i n : nat) : pending (map Awaiting (seq i n)) = n.
Proof.
  revert i. induction n as [|n IH]; intros i; [reflexivity|].
  unfold pending in *. simpl. f_equal. apply IH.
Qed.

Lemma pending_insert (ws : list worker) (k j : nat) (w : worker) :
  ws !! k = Some (Awaiting j) ->
  (pending (<[k:=w]> ws) + 1 =
   pending ws + match w with Awaiting _ => 1 | _ => 0 end)%nat.
Proof.
  revert k. induction ws as [|w0 ws IH]; intros k Hk; [discriminate|].
  destruct k as [|k]; simpl in Hk.
  - inversion Hk; subst. unfold pending. simpl. destruct w; simpl; lia.
  - specialize (IH k Hk). unfold pending in *. simpl.
    destruct w0; simpl; lia.
Qed.

(** Each completion uses up one unit of what is left to do. *)
Lemma complete_measure (k : nat) (s s' : @state R) :
  inv s -> complete k s = Some s' ->
  (length items - nextIndex s' + pending (workers s') + 1 =
   length items - nextIndex s + pending (workers s))%nat.
Proof.
  intros Hinv Hc. pose proof (inv_next s Hinv) as Hnext.
  unfold Batch.complete in Hc.
  destruct (workers s !! k) as [[j| |]|] eqn:Hk; try discriminate.
  destruct (items !! j) as [item|]; [|discriminate].
  destruct (fn item) as [r|e].
  - unfold pull in Hc.
    destruct (nextIndex s <? length items)%nat eqn:Hlt;
      inversion Hc; subst s'; clear Hc; cbn [nextIndex workers].
    + apply Nat.ltb_lt in Hlt.
      pose proof (pending_insert _ _ _ (Awaiting (nextIndex s)) Hk). simpl in *. lia.
    + pose proof (pending_insert _ _ _ Returned Hk). simpl in *. lia.
  - inversion Hc; subst s'; clear Hc; cbn [nextIndex workers].
    pose proof (pending_insert _ _ _ Rejected Hk). simpl in *. lia.
Qed.

Lemma steps_measure (m : nat) (s : @state R) :
  steps m init s ->
  (length items - nextIndex s + pending (workers s) + m = length items)%nat.
Proof.
  intros H. remember init as s0 eqn:Hs0. induction H as [s|m s s1 s2 H IH Hstep].
  - subst. destruct init_workers as (Hw & Hn & _). rewrite Hw, Hn.
    pose proof workerCount_le.
    rewrite pending_awaiting. lia.
  - specialize (IH Hs0). destruct Hstep as [k s1 s2 Hc].
    assert (Hinv : inv s1) by (subst; eapply inv_steps; eauto).
    pose proof (complete_measure k s1 s2 Hinv Hc). lia.
Qed.

Lemma steps_front (m : nat) (s s1 s2 : @state R) :
  step s s1 -> steps m s1 s2 -> steps (S m) s s2.
Proof.
  intros Hstep H. induction H as [s1|m s1 s2 s3 H IH Hs].
  - eapply steps_then; [apply steps_refl|exact Hstep].
  - eapply steps_then; [apply IH; exact Hstep|exact Hs].
Qed.

(** A run along a schedule is a run of the workers. *)
Lemma run_steps (schedule : list nat) (s s' : @state R) :
  run items fn schedule s = Some s' -> steps (length schedule) s s'.
Proof.
  revert s. induction schedule as [|k rest IH]; intros s H; simpl in H.
  - inversion H; subst. apply steps_refl.
  - destruct (complete k s) as [s1|] eqn:Hc; [|discriminate].
    eapply steps_front; [econstructor; exact Hc|apply IH; exact H].
Qed.

(** Use: a batch whose documents all succeed. *)
Lemma all_ok_final (s : @state R) (res : list (option R)) :
  1 <= concurrency ->
  (forall item, item ∈ items -> is_ok (fn item) = true) ->
  inv s -> settled s = Some (Ok res) ->
  quiescent s /\ length res = length items /\
  forall i item, items !! i = Some item ->
    exists r, fn item = Ok r /\ res !! i = Some (Some r).
Proof.
  intros Hc Hok Hinv Hs.
  pose proof (inv_settled s Hinv) as Hset. rewrite Hs in Hset.
  destruct Hset as [Hall ->].
  assert (Hq : quiescent s).
  { intros k i Hk. pose proof (allReturned_lookup _ _ _ Hall Hk). discriminate. }
  split; [exact Hq|]. split; [apply (inv_results s Hinv)|].
  intros i item Hitem.
  assert (Hi : (i < length items)%nat) by (eapply lookup_lt_Some; eauto).
  assert (Hwc : (0 < workerCount items concurrency)%nat).
  { unfold workerCount. lia. }
  assert (Hn : nextIndex s = length items).
  { rewrite <- (inv_workers s Hinv) in Hwc.
    destruct (lookup_lt_is_Some_2 _ _ Hwc) as [w Hw].
    pose proof (allReturned_lookup _ _ _ Hall Hw). subst w.
    eapply inv_returned; eauto. }
  destruct (inv_pulled s Hinv i item ltac:(lia) Hitem)
    as [[k Hk]|[[r [Hr Hl]]|[[e He] _]]].
  - exfalso. eapply Hq; eauto.
  - eauto.
  - specialize (Hok item ltac:(eapply list_elem_of_lookup_2; eauto)).
    rewrite He in Hok. discriminate.
Qed.

(** C4, as the code has it. With at least one worker, when every
    document's extraction succeeds, every run of the workers, whatever
    the order in which the calls settle, ends within [length items]
    completions with the list of results: it has the length of the input
    and its i-th element is the result of [fn] on the i-th document. *)
Theorem processBatch_preserves_order (m : nat) (s : @state R) :
  1 <= concurrency ->
  (forall item, item ∈ items -> is_ok (fn item) = true) ->
  steps m init s ->
  (m <= length items)%nat /\
  match settled s with
  | None => exists s', step s s'
  | Some (Err _) => False
  | Some (Ok res) =>
      quiescent s /\ length res = length items /\
      forall i item, items !! i = Some item ->
        exists r, fn item = Ok r /\ res !! i = Some (Some r)
  end.
Proof.
  intros Hc Hok Hsteps.
  pose proof (steps_measure m s Hsteps) as Hm.
  assert (Hinv : inv s) by (eapply inv_steps; eauto).
  split; [lia|].
  pose proof (inv_settled s Hinv) as Hset.
  destruct (settled s) as [[res|e]|] eqn:Hs.
  - eapply all_ok_final; eauto.
  - destruct Hset as [_ (item & Hin & He)].
    specialize (Hok item Hin). rewrite He in Hok. discriminate.
  - destruct Hset as [Hnr Hall].
    apply allReturned_false in Hall as (k & w & Hk & Hw).
    destruct w as [i| |].
    + eapply awaiting_can_step; eauto.
    + congruence.
    + exfalso. eapply Hnr; eauto.
Qed.

(** Use: a batch with a document whose extraction fails. *)
Lemma failure_rejects (s : @state R) :
  1 <= concurrency ->
  (exists item, item ∈ items /\ is_ok (fn item) = false) ->
  inv s ->
  match settled s with
  | None => exists s', step s s'
  | Some (Ok _) => False
  | Some (Err e) => exists item, item ∈ items /\ fn item = Err e
  end.
Proof.
  intros Hc (bad & Hbad & Hfail) Hinv.
  pose proof (inv_settled s Hinv) as Hset.
  destruct (settled s) as [[res|e]|] eqn:Hs.
  - destruct Hset as [Hall ->].
    apply list_elem_of_lookup in Hbad as [i Hi].
    assert (Hlt : (i < length items)%nat) by (eapply lookup_lt_Some; eauto).
    assert (Hwc : (0 < workerCount items concurrency)%nat).
    { unfold workerCount. lia. }
    assert (Hn : nextIndex s = length items).
    { rewrite <- (inv_workers s Hinv) in Hwc.
      destruct (lookup_lt_is_Some_2 _ _ Hwc) as [w Hw].
      pose proof (allReturned_lookup _ _ _ Hall Hw). subst w.
      eapply inv_returned; eauto. }
    destruct (inv_pulled s Hinv i bad ltac:(lia) Hi)
      as [[k Hk]|[[r [Hr Hl]]|[_ [k Hk]]]].
    + pose proof (allReturned_lookup _ _ _ Hall Hk). discriminate.
    + rewrite Hr in Hfail. discriminate.
    + pose proof (allReturned_lookup _ _ _ Hall Hk). discriminate.
  - destruct Hset as [_ Hitem]. exact Hitem.
  - destruct Hset as [Hnr Hall].
    apply allReturned_false in Hall as (k & w & Hk & Hw).
    destruct w as [i| |].
    + eapply awaiting_can_step; eauto.
    + congruence.
    + exfalso. eapply Hnr; eauto.
Qed.

(** C2, as the code has it. When the extraction of some document fails,
    no run of the workers ends with a list of results: within
    [length items] completions [processBatch] rejects, with the error of
    a failed document, and the route answers that one error for the whole
    request (status 500). *)
Theorem one_failure_fails_the_batch (m : nat) (s : @state R) :
  1 <= concurrency ->
  (exists item, item ∈ items /\ is_ok (fn item) = false) ->
  steps m init s ->
  (m <= length items)%nat /\
  match settled s with
  | None => exists s', step s s'
  | Some o =>
      exists item e, item ∈ items /\ fn item = Err e /\ o = Err e /\
                     respond o = Json500 (errorMessage e)
  end.
Proof.
  intros Hc Hbad Hsteps.
  pose proof (steps_measure m s Hsteps) as Hm.
  assert (Hinv : inv s) by (eapply inv_steps; eauto).
  split; [lia|].
  pose proof (failure_rejects s Hc Hbad Hinv) as H.
  destruct (settled s) as [[res|e]|]; [contradiction| |exact H].
  destruct H as (item & Hin & He). exists item, e. auto.
Qed.

End ProcessBatch.

Lemma processBatch_preserves_order_witness :
  1 <= 3 /\
  (forall item, item ∈ Samples.docs -> is_ok (Samples.good item) = true) /\
  steps Samples.docs Samples.good 3 (init Samples.docs 3) Samples.batchDone /\
  length [Some 11; Some 21; Some 31]%nat = length Samples.docs /\
  (forall i item, Samples.docs !! i = Some item ->
     exists r, Samples.good item = Ok r /\
               [Some 11; Some 21; Some 31]%nat !! i = Some (Some r)).
Proof.
  assert (H1 : 1 <= 3) by lia.
  assert (H2 : forall item, item ∈ Samples.docs -> is_ok (Samples.good item) = true)
    by (intros item _; reflexivity).
  assert (H3 : steps Samples.docs Samples.good 3 (init Samples.docs 3) Samples.batchDone)
    by (apply (run_steps Samples.docs Samples.good [2; 0; 1]%nat); reflexivity).
  split; [exact H1|]. split; [exact H2|]. split; [exact H3|].
  apply (processBatch_preserves_order Samples.docs Samples.good 3 3
           Samples.batchDone H1 H2 H3).
Defined.

(** C4, as the specification has it, fails: not every list of documents
    and every run gives a list of outcomes in the order of the input.
    Without a worker ([MAX_CONCURRENT_EXTRACTIONS] set to 0) the batch of
    three documents fulfils at once with three holes, although the
    extraction of each document has a result; and when the extraction of
    the second document fails, no order of completion gives a list: each
    of the six ends with [processBatch] rejected. *)
Lemma order_needs_a_worker_and_no_failure :
  (settled (init (R := nat) Samples.docs 0) = Some (Ok [None; None; None]) /\
   (forall s, ~ step Samples.docs Samples.good (init Samples.docs 0) s) /\
   forall i item, Samples.docs !! i = Some item ->
     exists r, Samples.good item = Ok r /\
               [None; None; None] !! i <> Some (Some r)) /\
  Forall (fun schedule =>
    exists s e,
      run Samples.docs (Samples.bad 20) schedule (init Samples.docs 3) = Some s /\
      settled s = Some (Err e) /\
      forall s', ~ step Samples.docs (Samples.bad 20) s s')
    Samples.orders.
Proof.
  split.
  - split; [reflexivity|]. split.
    + intros s Hstep. inversion Hstep as [k s1 s2 Hc]; subst.
      unfold Batch.complete in Hc. vm_compute in Hc. discriminate Hc.
    + intros i item Hi. exists (item + 1)%nat. split; [reflexivity|].
      destruct i as [|[|[|i]]]; simpl; discriminate.
  - unfold Samples.orders.
    repeat (apply List.Forall_cons;
            [eexists; eexists; split; [vm_compute; reflexivity|];
             split; [reflexivity|];
             intros s' Hstep; inversion Hstep as [k s1 s2 Hc]; subst;
             destruct k as [|[|[|k]]]; vm_compute in Hc; discriminate Hc|]).
    apply List.Forall_nil.
Qed.

(** C2, as the specification has it, fails. Two of three documents are
    extracted and the extraction of the second one fails: in each of the
    six orders in which the three calls can settle, [processBatch]
    rejects and the route answers one error for the whole request; the
    results of the two other documents have been written to [results]
    and are not returned. *)
Lemma one_bad_document_loses_the_batch :
  Forall (fun schedule =>
    exists s,
      run Samples.docs (Samples.bad 20) schedule (init Samples.docs 3) = Some s /\
      results s = [Some 11; None; Some 31]%nat /\
      settled s =
        Some (Err (JsError (Js.lit "Failed to parse extraction response as JSON"))) /\
      option_map respond (settled s) =
        Some (Json500 (Js.lit "Failed to parse extraction response as JSON")))
    Samples.orders.
Proof.
  unfold Samples.orders.
  repeat (apply List.Forall_cons;
          [eexists; split; [vm_compute; reflexivity|];
           split; [reflexivity|split; reflexivity]|]).
  apply List.Forall_nil.
Qed.

Lemma one_failure_fails_the_batch_witness :
  1 <= 3 /\
  (exists item, item ∈ Samples.docs /\ is_ok (Samples.bad 20 item) = false) /\
  steps Samples.docs (Samples.bad 20) 1 (init Samples.docs 3) Samples.batchRejected /\
  exists item e,
    item ∈ Samples.docs /\ Samples.bad 20 item = Err e /\
    settled Samples.batchRejected = Some (Err e) /\
    respond (R := nat) (Err e) = Json500 (errorMessage e).
Proof.
  assert (H1 : 1 <= 3) by lia.
  assert (H2 : exists item, item ∈ Samples.docs /\ is_ok (Samples.bad 20 item) = false).
  { exists 20%nat. split; [|reflexivity]. unfold Samples.docs. set_solver. }
  assert (H3 : steps Samples.docs (Samples.bad 20) 1 (init Samples.docs 3)
                 Samples.batchRejected)
    by (apply (run_steps Samples.docs (Samples.bad 20) [1]%nat); reflexivity).
  split; [exact H1|]. split; [exact H2|]. split; [exact H3|].
  destruct (one_failure_fails_the_batch Samples.docs (Samples.bad 20) 3 1
              Samples.batchRejected H1 H2 H3) as [_ (item & e & Hin & He & Ho & Hr)].
  exists item, e. split; [exact Hin|]. split; [exact He|].
  split; [|reflexivity].
  change (settled Samples.batchRejected)
    with (Some (Err (A := list (option nat))
                  (JsError (Js.lit "Failed to parse extraction response as JSON")))).
  rewrite Ho. reflexivity.
Defined.

End BatchFacts.

(** ** The batch coordinator: what holds of every run *)

Module BatchInvariants.
Import Batch.

Section ProcessBatch.
Context {T R : Type}.
Variable items : list T.
Variable fn : T -> result thrown R.
Variable concurrency : Z.

Local Abbreviation init := (Batch.init (R := R) items concurrency).
Local Abbreviation complete := (Batch.complete items fn).
Local Abbreviation step := (Batch.step items fn).
Local Abbreviation steps := (Batch.steps items fn).
Local Abbreviation sound := (Batch.sound items fn).

Lemma pending_le (ws : list worker) : (pending ws <= length ws)%nat.
Proof. apply List.filter_length_le. Qed.

(** The workers never have more than [Math.min(concurrency,
    items.length)] calls of [fn] pending, and no item is taken twice or
    lost: after [m] calls have settled, the calls settled and the calls
    pending are together the items taken so far. *)
Theorem workers_take_each_item_once (m : nat) (s : @state R) :
  steps m init s ->
  (pending (workers s) <= workerCount items concurrency)%nat /\
  Z.of_nat (pending (workers s)) <= Z.max 0 concurrency /\
  (m + pending (workers s) = nextIndex s)%nat /\
  (nextIndex s <= length items)%nat.
Proof.
  intros H.
  pose proof (BatchFacts.inv_steps items fn concurrency m s H) as Hinv.
  pose proof (BatchFacts.steps_measure items fn concurrency m s H) as Hm.
  pose proof (inv_next s Hinv) as Hn.
  pose proof (inv_workers s Hinv) as Hw.
  pose proof (pending_le (workers s)) as Hp.
  split; [lia|]. split; [unfold workerCount in *; lia|]. split; lia.
Qed.

Lemma sound_init : sound init.
Proof.
  intros i r Hi.
  destruct (BatchFacts.init_workers items concurrency (R := R)) as (_ & _ & Hres).
  rewrite Hres in Hi.
  apply lookup_replicate in Hi as [Hi _]. discriminate.
Qed.

Lemma sound_complete (k : nat) (s s' : @state R) :
  sound s -> complete k s = Some s' -> sound s'.
Proof.
  intros Hs Hc. unfold Batch.complete in Hc.
  destruct (workers s !! k) as [[j| |]|]; try discriminate.
  destruct (items !! j) as [item|] eqn:Hitem; [|discriminate].
  destruct (fn item) as [r|e] eqn:Hfn.
  - destruct (pull items s) as [w next]. inversion Hc; subst s'; clear Hc.
    intros i r' Hi. cbn [results] in Hi.
    destruct (decide (i = j)) as [->|Hne].
    + apply list_lookup_insert_Some in Hi as [(_ & Heq & _)|(Hne & _)];
        [|congruence].
      inversion Heq; subst. exists item. auto.
    + rewrite list_lookup_insert_ne in Hi by congruence. exact (Hs i r' Hi).
  - inversion Hc; subst s'; clear Hc. exact Hs.
Qed.

(** At every moment of a run, before and after a rejection, a slot of
    [results] is a hole or the result of [fn] on the item of that index:
    [results] has the length of [items] and a result is never stored
    under another index. *)
Theorem results_hold_only_their_own_item (m : nat) (s : @state R) :
  steps m init s ->
  length (results s) = length items /\
  forall i r, results s !! i = Some (Some r) ->
    exists item, items !! i = Some item /\ fn item = Ok r.
Proof.
  intros H. split.
  - exact (inv_results s (BatchFacts.inv_steps items fn concurrency m s H)).
  - remember init as s0 eqn:Hs0. induction H as [s|m s s1 s2 H IH Hstep].
    + subst. apply sound_init.
    + destruct Hstep as [k s1 s2 Hc].
      exact (sound_complete k s1 s2 (IH Hs0) Hc).
Qed.

(** Without a worker, for an empty list of items or a concurrency of
    zero or less, the batch fulfils at once with an array of holes of the
    length of [items]: [fn] is not called for any item. *)
Theorem batch_without_workers (s : @state R) :
  concurrency <= 0 \/ items = [] ->
  settled init = Some (Ok (replicate (length items) None)) /\
  ~ step init s.
Proof.
  intros H0.
  assert (Hwc : workerCount items concurrency = 0%nat).
  { unfold workerCount. destruct H0 as [H0| ->]; simpl; lia. }
  destruct (BatchFacts.init_workers items concurrency (R := R)) as (Hw & _ & Hres).
  rewrite Hwc in Hw. change (map Awaiting (seq 0 0)) with (@nil worker) in Hw.
  split.
  - rewrite (BatchFacts.init_settled items concurrency (R := R)), Hw, Hres.
    reflexivity.
  - intros Hstep. inversion Hstep as [k s1 s2 Hc]; subst.
    unfold Batch.complete in Hc. rewrite Hw in Hc.
    rewrite lookup_nil in Hc. discriminate.
Qed.

End ProcessBatch.

Lemma workers_take_each_item_once_witness :
  (pending (workers Samples.batchRejected) <= workerCount Samples.docs 3)%nat /\
  (1 + pending (workers Samples.batchRejected)
   = nextIndex Samples.batchRejected)%nat.
Proof.
  assert (H : steps Samples.docs (Samples.bad 20) 1
                (Batch.init Samples.docs 3) Samples.batchRejected).
  { apply (BatchFacts.run_steps Samples.docs (Samples.bad 20) [1%nat]).
    reflexivity. }
  destruct (workers_take_each_item_once Samples.docs (Samples.bad 20) 3 1
              Samples.batchRejected H) as (H1 & _ & H3 & _).
  split; [exact H1|exact H3].
Defined.

Lemma results_hold_only_their_own_item_witness :
  length (results Samples.batchDone) = length Samples.docs.
Proof.
  assert (H : steps Samples.docs Samples.good 3
                (Batch.init Samples.docs 3) Samples.batchDone).
  { apply (BatchFacts.run_steps Samples.docs Samples.good [0; 1; 2]%nat).
    reflexivity. }
  exact (proj1 (results_hold_only_their_own_item Samples.docs Samples.good 3 3
                  Samples.batchDone H)).
Defined.

Lemma batch_without_workers_witness :
  settled (Batch.init (R := nat) Samples.docs 0) = Some (Ok [None; None; None]).
Proof.
  exact (proj1 (batch_without_workers Samples.docs Samples.good 0
                  (Batch.init Samples.docs 0) (or_introl (Z.le_refl 0)))).
Defined.

End BatchInvariants.

(** ** The admission controller *)

Module RateLimitFacts.
Import RateLimit.

Section Limiter.
Variable WINDOW_MS : Z.
Variable MAX_REQUESTS : Z.

Local Abbreviation prune := (RateLimit.prune WINDOW_MS).
Local Abbreviation check := (RateLimit.checkRateLimit WINDOW_MS MAX_REQUESTS).
Local Abbreviation cleanup := (RateLimit.cleanup WINDOW_MS).
Local Abbreviation apply := (RateLimit.apply WINDOW_MS MAX_REQUESTS).

(** The entry of a client, [[]] when it has none. *)
Local Abbreviation entry store ip := (default [] (store !! ip)).

Lemma prune_app (now : Z) (l1 l2 : list Z) :
  prune now (l1 ++ l2) = prune now l1 ++ prune now l2.
Proof. apply List.filter_app. Qed.

Lemma prune_length (now : Z) (l : list Z) :
  (length (prune now l) <= length l)%nat.
Proof. apply List.filter_length_le. Qed.

Lemma prune_In (now t : Z) (l : list Z) :
  In t (prune now l) <-> In t l /\ now - t < WINDOW_MS.
Proof. unfold RateLimit.prune. rewrite filter_In, Z.ltb_lt. reflexivity. Qed.

(** Pruning at an earlier time does not change what is in the window
    later. *)
Lemma prune_prune (now now' : Z) (l : list Z) :
  now <= now' -> prune now' (prune now l) = prune now' l.
Proof.
  intros Hle. induction l as [|t l IH]; [reflexivity|].
  unfold RateLimit.prune in *. simpl.
  destruct (now - t <? WINDOW_MS) eqn:H1; simpl.
  - rewrite IH. reflexivity.
  - rewrite IH. apply Z.ltb_ge in H1.
    destruct (now' - t <? WINDOW_MS) eqn:H2; [|reflexivity].
    apply Z.ltb_lt in H2. lia.
Qed.

Lemma check_allowed (ip : Js.str) (now : Z) (store : gmap Js.str (list Z)) :
  allowed (fst (check ip now store)) =
  negb (MAX_REQUESTS <=? Z.of_nat (length (prune now (entry store ip)))).
Proof.
  unfold RateLimit.checkRateLimit.
  destruct (MAX_REQUESTS <=? _); reflexivity.
Qed.

Lemma check_entry (ip : Js.str) (now : Z) (store : gmap Js.str (list Z)) :
  entry (snd (check ip now store)) ip =
  if allowed (fst (check ip now store))
  then prune now (entry store ip) ++ [now]
  else prune now (entry store ip).
Proof.
  unfold RateLimit.checkRateLimit.
  destruct (MAX_REQUESTS <=? _); simpl; rewrite lookup_insert_eq; reflexivity.
Qed.

Lemma check_entry_other (ip ip' : Js.str) (now : Z) (store : gmap Js.str (list Z)) :
  ip <> ip' ->
  snd (check ip now store) !! ip' = store !! ip'.
Proof.
  intros Hne. unfold RateLimit.checkRateLimit.
  destruct (MAX_REQUESTS <=? _); simpl; rewrite lookup_insert_ne; auto.
Qed.

Lemma cleanup_entry (ip : Js.str) (now : Z) (store : gmap Js.str (list Z)) :
  entry (cleanup now store) ip = prune now (entry store ip).
Proof.
  unfold RateLimit.cleanup. rewrite lookup_omap.
  destruct (store !! ip) as [ts|]; simpl; [|reflexivity].
  destruct (prune now ts); reflexivity.
Qed.

(** The window of a client's entry is the window of its admitted
    requests, at any time from the last event on. *)
Lemma window_admitted (ip : Js.str) (l : list event) :
  forall (store : gmap Js.str (list Z)) (h : list Z) (t0 : Z),
  monotone t0 l ->
  (forall now, t0 <= now -> prune now (entry store ip) = prune now h) ->
  forall now, lastTime t0 l <= now ->
  prune now (entry (fold_left (fun st e => apply e st) l store) ip) =
  prune now (h ++ admitted WINDOW_MS MAX_REQUESTS ip l store).
Proof.
  induction l as [|e l IH]; intros store h t0 Hmono Hrel now Hnow.
  - simpl in *. rewrite app_nil_r. apply Hrel. exact Hnow.
  - destruct Hmono as [Ht0 Hmono]. simpl in Hnow.
    change (lastTime t0 (e :: l)) with (lastTime (time e) l) in Hnow.
    simpl fold_left.
    destruct e as [ip' t|t]; cbn [RateLimit.apply RateLimit.admitted time] in *.
    + destruct (check ip' t store) as [r store1] eqn:Hcheck.
      cbn [snd].
      destruct (decide (ip' = ip)) as [->|Hne].
      * rewrite bool_decide_eq_true_2 by reflexivity. rewrite andb_true_r.
        pose proof (check_entry ip t store) as He. rewrite Hcheck in He. simpl in He.
        destruct (allowed r).
        -- rewrite (IH store1 (h ++ [t]) t Hmono); [|
             intros now' Hnow'; rewrite He, !prune_app;
             rewrite prune_prune by lia; rewrite Hrel by lia; reflexivity
           |exact Hnow].
           rewrite <- app_assoc. reflexivity.
        -- apply (IH store1 h t Hmono); [|exact Hnow].
           intros now' Hnow'. rewrite He.
           rewrite prune_prune by lia. apply Hrel. lia.
      * rewrite bool_decide_eq_false_2 by exact Hne. rewrite andb_false_r.
        apply (IH store1 h t Hmono); [|exact Hnow].
        intros now' Hnow'.
        pose proof (check_entry_other ip' ip t store Hne) as He.
        rewrite Hcheck in He. simpl in He. rewrite He. apply Hrel. lia.
    + apply (IH (cleanup t store) h t Hmono); [|exact Hnow].
      intros now' Hnow'. rewrite cleanup_entry.
      rewrite prune_prune by lia. apply Hrel. lia.
Qed.

(** No entry ever holds more than [MAX_REQUESTS] timestamps. *)
Lemma apply_bounded (e : event) (store : gmap Js.str (list Z)) :
  0 <= MAX_REQUESTS ->
  (forall ip ts, store !! ip = Some ts -> Z.of_nat (length ts) <= MAX_REQUESTS) ->
  forall ip ts, apply e store !! ip = Some ts -> Z.of_nat (length ts) <= MAX_REQUESTS.
Proof.
  intros HM Hb ip ts.
  assert (Hentry : forall ip', Z.of_nat (length (entry store ip')) <= MAX_REQUESTS).
  { intros ip'. destruct (store !! ip') as [ts'|] eqn:E; simpl; [eauto|lia]. }
  destruct e as [ip' t|t]; simpl.
  - unfold RateLimit.checkRateLimit.
    pose proof (prune_length t (entry store ip')) as Hp.
    specialize (Hentry ip').
    destruct (MAX_REQUESTS <=? Z.of_nat (length (prune t (entry store ip')))) eqn:Hle;
      simpl; (destruct (decide (ip' = ip)) as [->|Hne];
              [rewrite lookup_insert_eq|rewrite lookup_insert_ne by exact Hne; apply Hb]).
    + intros H. inversion H; subst. lia.
    + intros H. inversion H; subst. apply Z.leb_gt in Hle.
      rewrite length_app. simpl. lia.
  - unfold RateLimit.cleanup. rewrite lookup_omap.
    destruct (store !! ip) as [ts'|] eqn:E; simpl; [|discriminate].
    pose proof (prune_length t ts') as Hp. specialize (Hb ip ts' E).
    destruct (prune t ts') eqn:Ep; [discriminate|].
    intros H. inversion H; subst. lia.
Qed.

Lemma after_bounded (l : list event) :
  0 <= MAX_REQUESTS ->
  forall ip ts, after WINDOW_MS MAX_REQUESTS l !! ip = Some ts ->
                Z.of_nat (length ts) <= MAX_REQUESTS.
Proof.
  intros HM. unfold after.
  assert (H : forall store : gmap Js.str (list Z),
    (forall ip ts, store !! ip = Some ts -> Z.of_nat (length ts) <= MAX_REQUESTS) ->
    forall ip ts, fold_left (fun st e => apply e st) l store !! ip = Some ts ->
                  Z.of_nat (length ts) <= MAX_REQUESTS).
  { induction l as [|e l IH]; intros store Hb; simpl; [exact Hb|].
    apply IH. apply apply_bounded; assumption. }
  apply H. intros ip ts. rewrite lookup_empty. discriminate.
Qed.

(** The window of requests decides a check. *)
Lemma window_decides (l : list event) (ip : Js.str) (now t0 : Z) :
  monotone t0 l -> lastTime t0 l <= now ->
  let r := fst (check ip now (after WINDOW_MS MAX_REQUESTS l)) in
  let recent := prune now (admitted WINDOW_MS MAX_REQUESTS ip l ∅) in
  (allowed r = true <-> Z.of_nat (length recent) < MAX_REQUESTS) /\
  (allowed r = false -> 1 <= MAX_REQUESTS ->
   exists oldest rest, recent = oldest :: rest /\
     retryAfterMs r = Some (Num (WINDOW_MS - (now - oldest))) /\
     0 < WINDOW_MS - (now - oldest)).
Proof.
  intros Hmono Hnow. cbv zeta.
  pose proof (window_admitted ip l ∅ [] t0 Hmono) as Hw.
  rewrite lookup_empty in Hw. simpl in Hw.
  specialize (Hw (fun _ _ => eq_refl) now Hnow).
  fold (after WINDOW_MS MAX_REQUESTS l) in Hw.
  split.
  - rewrite check_allowed, Hw, negb_true_iff, Z.leb_gt. reflexivity.
  - intros Hden HM. rewrite check_allowed, Hw, negb_false_iff in Hden.
    unfold RateLimit.checkRateLimit. rewrite Hw, Hden. simpl.
    apply Z.leb_le in Hden.
    destruct (prune now (admitted WINDOW_MS MAX_REQUESTS ip l ∅))
      as [|oldest rest] eqn:Hrec; [simpl in Hden; lia|].
    exists oldest, rest. repeat split.
    assert (Hin : In oldest (prune now (admitted WINDOW_MS MAX_REQUESTS ip l ∅))).
    { rewrite Hrec. left. reflexivity. }
    apply prune_In in Hin. lia.
Qed.

(** C10. A denied check only prunes the entry of its key: it appends
    nothing, so later checks are answered as if it had not happened, and
    the retry-after it reports is computed from the oldest timestamp left
    in the entry.  No entry ever holds more than [MAX_REQUESTS]
    timestamps. *)
Theorem denied_check_leaves_no_trace (l : list event) (ip : Js.str) (now : Z) :
  0 <= MAX_REQUESTS ->
  let store := after WINDOW_MS MAX_REQUESTS l in
  let r := fst (check ip now store) in
  let store' := snd (check ip now store) in
  (forall ip' ts, store !! ip' = Some ts ->
                  Z.of_nat (length ts) <= MAX_REQUESTS) /\
  (forall ip' ts, store' !! ip' = Some ts ->
                  Z.of_nat (length ts) <= MAX_REQUESTS) /\
  (allowed r = false ->
     store' = <[ip := prune now (entry store ip)]> store /\
     (forall now', now <= now' ->
        fst (check ip now' store') = fst (check ip now' store)) /\
     (1 <= MAX_REQUESTS ->
        exists oldest, head (entry store' ip) = Some oldest /\
          retryAfterMs r = Some (Num (WINDOW_MS - (now - oldest))))).
Proof.
  intros HM. cbv zeta.
  split; [apply after_bounded; exact HM|].
  split.
  { apply (apply_bounded (Check ip now)); [exact HM|].
    apply after_bounded; exact HM. }
  intros Hden. rewrite check_allowed, negb_false_iff in Hden.
  set (store := after WINDOW_MS MAX_REQUESTS l) in *.
  assert (Hs : snd (check ip now store) = <[ip := prune now (entry store ip)]> store).
  { unfold RateLimit.checkRateLimit. rewrite Hden. reflexivity. }
  split; [exact Hs|]. split.
  - intros now' Hle. rewrite Hs.
    unfold RateLimit.checkRateLimit. rewrite lookup_insert_eq. simpl.
    rewrite prune_prune by exact Hle.
    destruct (MAX_REQUESTS <=? Z.of_nat (length (prune now' (entry store ip))));
      reflexivity.
  - intros H1. rewrite Hs, lookup_insert_eq. simpl.
    unfold RateLimit.checkRateLimit. rewrite Hden. simpl.
    apply Z.leb_le in Hden.
    destruct (prune now (entry store ip)) as [|oldest rest]; [simpl in Hden; lia|].
    exists oldest. split; reflexivity.
Qed.

End Limiter.

(** The example of the specification: a window of one second and two
    requests at most. *)
Lemma three_in_a_second (ip : Js.str) (t1 t2 t3 t4 : Z) :
  t1 <= t2 -> t2 <= t3 -> t3 < t1 + 1000 -> t3 <= t4 -> t1 + 1000 <= t4 ->
  answers 1000 2 [Check ip t1; Check ip t2; Check ip t3; Check ip t4] ∅
  = [true; true; false; true].
Proof.
  intros H12 H23 H31 H34 H41.
  cbn [answers].
  set (s1 := snd (RateLimit.checkRateLimit 1000 2 ip t1 ∅)).
  set (s2 := snd (RateLimit.checkRateLimit 1000 2 ip t2 s1)).
  set (s3 := snd (RateLimit.checkRateLimit 1000 2 ip t3 s2)).
  assert (A1 : allowed (fst (RateLimit.checkRateLimit 1000 2 ip t1 ∅)) = true).
  { unfold RateLimit.checkRateLimit. rewrite lookup_empty. reflexivity. }
  assert (E1 : default [] (s1 !! ip) = [t1]).
  { pose proof (check_entry 1000 2 ip t1 ∅) as E. fold s1 in E.
    rewrite E, A1, lookup_empty. reflexivity. }
  assert (P2 : RateLimit.prune 1000 t2 [t1] = [t1]).
  { unfold RateLimit.prune. simpl.
    rewrite (proj2 (Z.ltb_lt _ _)) by lia. reflexivity. }
  assert (A2 : allowed (fst (RateLimit.checkRateLimit 1000 2 ip t2 s1)) = true).
  { rewrite check_allowed, E1, P2. reflexivity. }
  assert (E2 : default [] (s2 !! ip) = [t1; t2]).
  { pose proof (check_entry 1000 2 ip t2 s1) as E. fold s2 in E.
    rewrite E, A2, E1, P2. reflexivity. }
  assert (P3 : RateLimit.prune 1000 t3 [t1; t2] = [t1; t2]).
  { unfold RateLimit.prune. simpl.
    rewrite !(proj2 (Z.ltb_lt _ _)) by lia. reflexivity. }
  assert (A3 : allowed (fst (RateLimit.checkRateLimit 1000 2 ip t3 s2)) = false).
  { rewrite check_allowed, E2, P3. reflexivity. }
  assert (E3 : default [] (s3 !! ip) = [t1; t2]).
  { pose proof (check_entry 1000 2 ip t3 s2) as E. fold s3 in E.
    rewrite E, A3, E2, P3. reflexivity. }
  assert (A4 : allowed (fst (RateLimit.checkRateLimit 1000 2 ip t4 s3)) = true).
  { rewrite check_allowed, E3. unfold RateLimit.prune. simpl.
    rewrite (proj2 (Z.ltb_ge _ _)) by lia.
    destruct (t4 - t2 <? 1000); reflexivity. }
  rewrite A1, A2, A3, A4. reflexivity.
Qed.

(** C8. The limiter is a sliding window per key.  After any requests and
    cleanup ticks on a clock that does not run backwards, a check is
    allowed exactly when fewer than [MAX_REQUESTS] allowed requests of
    that key lie within the last [WINDOW_MS]; a denied check reports a
    positive retry-after (with [MAX_REQUESTS >= 1]).  With a window of
    1000 ms and a maximum of 2, three checks of one key within the window
    are answered true, true, false, and a fourth that comes 1000 ms or
    more after the first is answered true.  The defaults are one hour and
    20 requests. *)
Theorem sliding_window :
  (forall (W M : Z) (l : list event) (ip : Js.str) (now t0 : Z),
     monotone t0 l -> lastTime t0 l <= now ->
     let r := fst (checkRateLimit W M ip now (after W M l)) in
     let recent := RateLimit.prune W now (admitted W M ip l ∅) in
     (allowed r = true <-> Z.of_nat (length recent) < M) /\
     (allowed r = false -> 1 <= M ->
      exists oldest rest, recent = oldest :: rest /\
        retryAfterMs r = Some (Num (W - (now - oldest))) /\
        0 < W - (now - oldest))) /\
  (forall (ip : Js.str) (t1 t2 t3 t4 : Z),
     t1 <= t2 -> t2 <= t3 -> t3 < t1 + 1000 -> t3 <= t4 -> t1 + 1000 <= t4 ->
     answers 1000 2 [Check ip t1; Check ip t2; Check ip t3; Check ip t4] ∅
     = [true; true; false; true]) /\
  DEFAULT_WINDOW_MS = 60 * 60 * 1000 /\ DEFAULT_MAX_REQUESTS = 20.
Proof.
  split; [|split; [|split; reflexivity]].
  - intros W M l ip now t0. apply window_decides.
  - apply three_in_a_second.
Qed.


Lemma sliding_window_witness :
  answers 1000 2
    [Check Samples.client 0; Check Samples.client 10;
     Check Samples.client 20; Check Samples.client 1000] ∅
  = [true; true; false; true].
Proof.
  apply (proj1 (proj2 sliding_window) Samples.client 0 10 20 1000); lia.
Defined.

Lemma denied_check_leaves_no_trace_witness :
  0 <= 2 /\
  allowed (fst (checkRateLimit 1000 2 Samples.client 20
                  (after 1000 2 [Check Samples.client 0; Check Samples.client 10])))
  = false /\
  snd (checkRateLimit 1000 2 Samples.client 20
         (after 1000 2 [Check Samples.client 0; Check Samples.client 10]))
  = <[Samples.client := [0; 10]]>
      (after 1000 2 [Check Samples.client 0; Check Samples.client 10]).
Proof.
  assert (H0 : 0 <= 2) by lia.
  assert (Hden : allowed (fst (checkRateLimit 1000 2 Samples.client 20
                   (after 1000 2 [Check Samples.client 0; Check Samples.client 10])))
                 = false).
  { rewrite check_allowed. unfold after. simpl fold_left.
    rewrite !check_entry, !check_allowed, lookup_empty. reflexivity. }
  split; [exact H0|]. split; [exact Hden|].
  destruct (denied_check_leaves_no_trace 1000 2
              [Check Samples.client 0; Check Samples.client 10]
              Samples.client 20 H0) as (_ & _ & H).
  destruct (H Hden) as (Hs & _ & _). rewrite Hs. f_equal.
Defined.

End RateLimitFacts.

(** ** The admission controller: the quota left and the cleanup timer *)

Module RateLimitMore.
Import RateLimit.

Section Limiter.
Variable WINDOW_MS : Z.
Variable MAX_REQUESTS : Z.

Local Abbreviation check := (RateLimit.checkRateLimit WINDOW_MS MAX_REQUESTS).
Local Abbreviation after := (RateLimit.after WINDOW_MS MAX_REQUESTS).
Local Abbreviation admitted := (RateLimit.admitted WINDOW_MS MAX_REQUESTS).
Local Abbreviation prune := (RateLimit.prune WINDOW_MS).

Lemma entry_window (l : list event) (ip : Js.str) (now t0 : Z) :
  monotone t0 l -> lastTime t0 l <= now ->
  prune now (default [] (after l !! ip)) = prune now (admitted ip l ∅).
Proof.
  intros Hmono Hnow.
  pose proof (RateLimitFacts.window_admitted WINDOW_MS MAX_REQUESTS ip l ∅ [] t0 Hmono)
    as Hw.
  rewrite lookup_empty in Hw. simpl in Hw.
  exact (Hw (fun _ _ => eq_refl) now Hnow).
Qed.

(** [remaining] is the quota that is left after the request: for an
    allowed request, [MAX_REQUESTS] less the allowed requests of the key
    within the window, this one included, which is never negative and
    always less than [MAX_REQUESTS]; for a denied request, 0. *)
Theorem remaining_is_the_quota_left (l : list event) (ip : Js.str) (now t0 : Z) :
  monotone t0 l -> lastTime t0 l <= now ->
  let r := fst (check ip now (after l)) in
  let recent := prune now (admitted ip l ∅) in
  if allowed r
  then remaining r = MAX_REQUESTS - (Z.of_nat (length recent) + 1) /\
       0 <= remaining r < MAX_REQUESTS /\ retryAfterMs r = None
  else remaining r = 0.
Proof.
  intros Hmono Hnow. cbv zeta.
  pose proof (entry_window l ip now t0 Hmono Hnow) as Hw.
  unfold RateLimit.checkRateLimit. rewrite Hw.
  destruct (MAX_REQUESTS <=? Z.of_nat (length (prune now (admitted ip l ∅)))) eqn:Hle;
    cbn [fst allowed remaining retryAfterMs]; [reflexivity|].
  apply Z.leb_gt in Hle. rewrite length_app. cbn [length].
  repeat split; lia.
Qed.

(** After a tick of the cleanup timer the store holds exactly the keys
    with an allowed request within the window, each with the times of
    those requests: the entry of every other key is deleted. *)
Theorem cleanup_keeps_only_live_keys (l : list event) (ip : Js.str) (now t0 : Z) :
  monotone t0 l -> lastTime t0 l <= now ->
  RateLimit.cleanup WINDOW_MS now (after l) !! ip =
  match prune now (admitted ip l ∅) with
  | [] => None
  | recent => Some recent
  end.
Proof.
  intros Hmono Hnow.
  pose proof (entry_window l ip now t0 Hmono Hnow) as Hw.
  unfold RateLimit.cleanup. rewrite lookup_omap.
  destruct (after l !! ip) as [ts|] eqn:Hts; simpl in Hw |- *.
  - rewrite Hw. reflexivity.
  - rewrite <- Hw. reflexivity.
Qed.

Lemma admitted_own (ip : Js.str) (l : list event) :
  forall (s s' : gmap Js.str (list Z)) (t0 : Z),
  monotone t0 l ->
  (forall now, t0 <= now ->
     prune now (default [] (s !! ip)) = prune now (default [] (s' !! ip))) ->
  admitted ip l s = admitted ip (List.filter (own ip) l) s'.
Proof.
  induction l as [|e l IH]; intros s s' t0 Hmono Hrel; [reflexivity|].
  destruct Hmono as [Ht Hmono].
  destruct e as [ip' t|t]; cbn [List.filter own RateLimit.admitted time] in *.
  - destruct (decide (ip' = ip)) as [->|Hne].
    + rewrite bool_decide_eq_true_2 by reflexivity.
      cbn [RateLimit.admitted].
      pose proof (RateLimitFacts.check_allowed WINDOW_MS MAX_REQUESTS ip t s) as A1.
      pose proof (RateLimitFacts.check_allowed WINDOW_MS MAX_REQUESTS ip t s') as A2.
      pose proof (RateLimitFacts.check_entry WINDOW_MS MAX_REQUESTS ip t s) as E1.
      pose proof (RateLimitFacts.check_entry WINDOW_MS MAX_REQUESTS ip t s') as E2.
      rewrite (Hrel t Ht) in A1. rewrite <- A2 in A1.
      destruct (check ip t s) as [r1 s1]. destruct (check ip t s') as [r2 s2].
      cbn [fst snd] in *. rewrite A1 in *.
      rewrite bool_decide_eq_true_2 by reflexivity.
      assert (Hrel' : forall now, t <= now ->
                prune now (default [] (s1 !! ip)) = prune now (default [] (s2 !! ip))).
      { intros now Hnow. rewrite E1, E2.
        destruct (allowed r2);
          rewrite ?RateLimitFacts.prune_app, !RateLimitFacts.prune_prune by lia;
          rewrite (Hrel now) by lia; reflexivity. }
      rewrite (IH s1 s2 t Hmono Hrel'). reflexivity.
    + rewrite bool_decide_eq_false_2 by exact Hne.
      pose proof (RateLimitFacts.check_entry_other WINDOW_MS MAX_REQUESTS ip' ip t s Hne)
        as E1.
      destruct (check ip' t s) as [r1 s1]. cbn [snd] in E1.
      rewrite andb_false_r.
      apply (IH s1 s' t Hmono).
      intros now Hnow. rewrite E1. apply Hrel. lia.
  - apply (IH _ s' t Hmono).
    intros now Hnow. rewrite RateLimitFacts.cleanup_entry.
    rewrite RateLimitFacts.prune_prune by lia. apply Hrel. lia.
Qed.

Lemma monotone_weaken (l : list event) : forall t0 t1,
  t0 <= t1 -> monotone t1 l -> monotone t0 l.
Proof.
  destruct l as [|e l]; intros t0 t1 H Hm; [exact I|].
  destruct Hm as [H1 H2]. split; [lia|exact H2].
Qed.

Lemma monotone_filter (f : event -> bool) (l : list event) :
  forall t0, monotone t0 l ->
  monotone t0 (List.filter f l) /\ lastTime t0 (List.filter f l) <= lastTime t0 l.
Proof.
  induction l as [|e l IH]; intros t0 Hm; [split; [exact I|apply Z.le_refl]|].
  destruct Hm as [H1 H2]. cbn [List.filter].
  change (lastTime t0 (e :: l)) with (lastTime (time e) l).
  destruct (IH (time e) H2) as [H3 H4].
  destruct (f e).
  - change (lastTime t0 (e :: List.filter f l))
      with (lastTime (time e) (List.filter f l)).
    split; [split; assumption|exact H4].
  - destruct (IH t0 (monotone_weaken l t0 (time e) H1 H2)) as [H5 H6].
    split; [exact H5|].
    assert (Hmono2 : forall l' a b, a <= b -> monotone b l' ->
              lastTime a l' <= lastTime b l').
    { clear. intros l'. destruct l' as [|e' l']; intros a b Hab Hb.
      - simpl. exact Hab.
      - change (lastTime a (e' :: l')) with (lastTime (time e') l').
        change (lastTime b (e' :: l')) with (lastTime (time e') l').
        apply Z.le_refl. }
    pose proof (Hmono2 (List.filter f l) t0 (time e) H1 H3). lia.
Qed.

(** Clients do not interfere: the requests of a key that are allowed,
    and the answer to its next request, are those that it would get if
    the requests of all other keys and the ticks of the cleanup timer had
    not happened. *)
Theorem clients_are_isolated (l : list event) (ip : Js.str) (now t0 : Z) :
  monotone t0 l -> lastTime t0 l <= now ->
  admitted ip l ∅ = admitted ip (List.filter (own ip) l) ∅ /\
  allowed (fst (check ip now (after l)))
  = allowed (fst (check ip now (after (List.filter (own ip) l)))).
Proof.
  intros Hmono Hnow.
  assert (Hadm : admitted ip l ∅ = admitted ip (List.filter (own ip) l) ∅).
  { apply (admitted_own ip l ∅ ∅ t0 Hmono). reflexivity. }
  split; [exact Hadm|].
  destruct (monotone_filter (own ip) l t0 Hmono) as [Hmono' Hlast].
  rewrite !RateLimitFacts.check_allowed.
  rewrite (entry_window l ip now t0 Hmono Hnow).
  rewrite (entry_window (List.filter (own ip) l) ip now t0 Hmono' ltac:(lia)).
  rewrite Hadm. reflexivity.
Qed.

End Limiter.

Lemma clients_are_isolated_witness :
  allowed (fst (checkRateLimit 1000 2 Samples.client 30
    (after 1000 2 [Check Samples.client 0; Check (Js.lit "198.51.100.2") 5;
                   Sweep 10; Check Samples.client 20])))
  = allowed (fst (checkRateLimit 1000 2 Samples.client 30
    (after 1000 2 [Check Samples.client 0; Check Samples.client 20]))).
Proof.
  exact (proj2 (clients_are_isolated 1000 2
           [Check Samples.client 0; Check (Js.lit "198.51.100.2") 5;
            Sweep 10; Check Samples.client 20]
           Samples.client 30 0 ltac:(simpl; lia) ltac:(simpl; lia))).
Defined.

Lemma remaining_is_the_quota_left_witness :
  remaining (fst (checkRateLimit 1000 2 Samples.client 10
                    (after 1000 2 [Check Samples.client 0]))) = 0.
Proof.
  pose proof (remaining_is_the_quota_left 1000 2 [Check Samples.client 0]
                Samples.client 10 0 ltac:(simpl; lia) ltac:(simpl; lia)) as H.
  cbv zeta in H.
  destruct (allowed (fst (checkRateLimit 1000 2 Samples.client 10
                            (after 1000 2 [Check Samples.client 0])))) eqn:Ha.
  - destruct H as [H _]. rewrite H. vm_compute. reflexivity.
  - exact H.
Defined.

Lemma cleanup_keeps_only_live_keys_witness :
  cleanup 1000 1500 (after 1000 2 [Check Samples.client 0; Check Samples.client 600])
    !! Samples.client = Some [600].
Proof.
  rewrite (cleanup_keeps_only_live_keys 1000 2
             [Check Samples.client 0; Check Samples.client 600]
             Samples.client 1500 0 ltac:(simpl; lia) ltac:(simpl; lia)).
  vm_compute. reflexivity.
Defined.

End RateLimitMore.

(** ** The response parser *)

Module ParserFacts.
Import Parser.

Lemma fromFirst_skip (c : N) (pre rest : Js.str) :
  c ∉ pre -> fromFirst c (pre ++ c :: rest) = c :: rest.
Proof.
  induction pre as [|d pre IH]; intros Hnot; simpl.
  - rewrite N.eqb_refl. reflexivity.
  - destruct (N.eqb_spec d c) as [->|Hne].
    + exfalso. apply Hnot. left.
    + apply IH. intros Hin. apply Hnot. right. exact Hin.
Qed.

Lemma toLast_skip (c : N) (front post : Js.str) :
  c ∉ post -> toLast c (front ++ c :: post) = front ++ [c].
Proof.
  intros Hnot. unfold toLast.
  rewrite rev_app_distr.
  change (rev (c :: post)) with (rev post ++ [c]).
  rewrite <- app_assoc. change ([c] ++ rev front) with (c :: rev front).
  rewrite fromFirst_skip.
  - simpl. rewrite rev_involutive. reflexivity.
  - intros Hin. apply Hnot. apply list_elem_of_In. apply in_rev.
    apply list_elem_of_In. exact Hin.
Qed.

(** The pattern finds an object that stands between prose without
    braces on the wrong side. *)
Lemma matchBraces_embedded (pre mid post : Js.str) :
  123%N ∉ pre -> 125%N ∉ post ->
  matchBraces (pre ++ (123%N :: mid ++ [125%N]) ++ post)
  = Some (123%N :: mid ++ [125%N]).
Proof.
  intros Hpre Hpost. unfold matchBraces.
  change ((123%N :: mid ++ [125%N]) ++ post)
    with (123%N :: (mid ++ [125%N]) ++ post).
  rewrite fromFirst_skip by exact Hpre.
  replace (123%N :: (mid ++ [125%N]) ++ post)
    with ((123%N :: mid) ++ 125%N :: post)
    by (simpl; rewrite <- app_assoc; reflexivity).
  rewrite toLast_skip by exact Hpost. reflexivity.
Qed.

Lemma parseResponse_text (text : Js.str) :
  parseResponse [TextBlock text] =
  match JSON_parse text with
  | Some parsed => Ok parsed
  | None =>
      match matchBraces text with
      | Some jsonMatch =>
          match JSON_parse jsonMatch with
          | Some parsed => Ok parsed
          | None => Err parseFailure
          end
      | None => Err parseFailure
      end
  end.
Proof. reflexivity. Qed.

(** A failure of [parseResponse] is no rate limit. *)
Lemma parseResponse_error (content : list block) (e : thrown) :
  parseResponse content = Err e ->
  Extractor.isRateLimit e = false /\ Extractor.apiError e = e.
Proof.
  unfold parseResponse.
  destruct (findText content) as [text|]; [|intros H; inversion H; auto].
  destruct (JSON_parse text); [discriminate|].
  destruct (matchBraces text) as [m|]; [|intros H; inversion H; auto].
  destruct (JSON_parse m); [discriminate|].
  intros H; inversion H; auto.
Qed.

(** C6, as the code has it. The whole reply is parsed first; when that
    fails, the text from the first opening brace to the last closing
    brace is parsed.  So a reply that is not JSON as a whole and that
    holds an object between a leading text without an opening brace and a
    trailing text without a closing brace is parsed to what the object
    alone is parsed to.  When both attempts fail the call fails with the
    parse error, and [withRetry] throws it after that one invocation. *)
Theorem parseResponse_recovers_object (pre mid post : Js.str) (v : json) :
  let object := 123%N :: mid ++ [125%N] in
  let reply := pre ++ object ++ post in
  123%N ∉ pre -> 125%N ∉ post ->
  JSON_parse object = Some v ->
  JSON_parse reply = None ->
  parseResponse [TextBlock reply] = Ok v /\
  parseResponse [TextBlock object] = Ok v /\
  (forall text,
     parseResponse [TextBlock text] =
     match JSON_parse text with
     | Some parsed => Ok parsed
     | None =>
         match option_map JSON_parse (matchBraces text) with
         | Some (Some parsed) => Ok parsed
         | _ => Err parseFailure
         end
     end) /\
  (forall W (create : W -> result thrown (list block) * W) w w1 response e,
     create w = (Ok response, w1) ->
     parseResponse response = Err e ->
     Extractor.withRetry (thenParse create) Extractor.RETRY_MAX_ATTEMPTS w
     = (Err e, w1, [Extractor.Invoke])).
Proof.
  cbv zeta. intros Hpre Hpost Hobj Hreply.
  split; [|split; [|split]].
  - rewrite parseResponse_text, Hreply.
    rewrite matchBraces_embedded by assumption. rewrite Hobj. reflexivity.
  - rewrite parseResponse_text, Hobj. reflexivity.
  - intros text. rewrite parseResponse_text.
    destruct (JSON_parse text); [reflexivity|].
    destruct (matchBraces text) as [m|]; simpl; [|reflexivity].
    destruct (JSON_parse m); reflexivity.
  - intros W create w w1 response e Hcreate Hparse.
    destruct (parseResponse_error response e Hparse) as [Hrl Hsame].
    unfold Extractor.withRetry, Extractor.RETRY_MAX_ATTEMPTS.
    change (Z.to_nat 4) with 4%nat.
    rewrite (ExtractorFacts.retryFrom_fatal (thenParse create) 4 1 3 w w1 e).
    + rewrite Hsame. reflexivity.
    + unfold thenParse. rewrite Hcreate, Hparse. reflexivity.
    + rewrite Hrl. reflexivity.
Qed.

Lemma parseResponse_recovers_object_witness :
  (123%N ∉ Samples.leadingProse) /\ (125%N ∉ Samples.trailingProse) /\
  JSON_parse Samples.objectText = Some Samples.objectValue /\
  JSON_parse Samples.politeReply = None /\
  parseResponse [TextBlock Samples.politeReply] = Ok Samples.objectValue /\
  parseResponse [TextBlock Samples.objectText] = Ok Samples.objectValue.
Proof.
  assert (H1 : 123%N ∉ Samples.leadingProse).
  { intros H. apply list_elem_of_In in H. vm_compute in H.
    repeat (destruct H as [H|H]; [discriminate H|]). exact H. }
  assert (H2 : 125%N ∉ Samples.trailingProse).
  { intros H. apply list_elem_of_In in H. vm_compute in H.
    repeat (destruct H as [H|H]; [discriminate H|]). exact H. }
  assert (H3 : JSON_parse Samples.objectText = Some Samples.objectValue)
    by (vm_compute; reflexivity).
  assert (H4 : JSON_parse Samples.politeReply = None)
    by (vm_compute; reflexivity).
  split; [exact H1|]. split; [exact H2|]. split; [exact H3|]. split; [exact H4|].
  pose proof (parseResponse_recovers_object
                Samples.leadingProse
                (removelast (tl Samples.objectText))
                Samples.trailingProse Samples.objectValue H1 H2 H3 H4)
    as (Ha & Hb & _).
  split; [exact Ha|exact Hb].
Defined.

(** C6, as the specification has it, fails. The reply holds the object,
    which is its first balanced brace-delimited substring and parses to a
    record, before a remark in which braces occur: both attempts of
    [parseResponse] fail, as the text between the first opening brace and
    the last closing brace is not the object. *)
Lemma braces_in_prose_lose_the_object :
  Samples.annotatedReply
    = Samples.leadingProse ++ Samples.objectText ++ Samples.proseWithBraces /\
  firstBalanced_spec Samples.annotatedReply = Some Samples.objectText /\
  parseResponse [TextBlock Samples.objectText] = Ok Samples.objectValue /\
  parseResponse [TextBlock Samples.annotatedReply] = Err parseFailure.
Proof.
  split; [reflexivity|]. split; [vm_compute; reflexivity|].
  split; vm_compute; reflexivity.
Qed.

End ParserFacts.

(** ** The validator *)

Module ValidatorFacts.
Import Validator.

Lemma In_pushIf (cond : bool) (w x : Js.str) :
  In x (pushIf cond w) <-> cond = true /\ x = w.
Proof.
  unfold pushIf. destruct cond; simpl; split.
  - intros [H|[]]. auto.
  - intros [_ ->]. auto.
  - intros [].
  - intros [H _]. discriminate.
Qed.

Lemma errors_spec (data : ExtractedData) (e : Js.str) :
  In e (errors (validateExtraction data)) <->
  (e = Js.lit "Missing company name" /\ Js.truthy (company_name data) = false) \/
  (e = Js.lit "Missing quarter" /\ Js.truthy (quarter data) = false).
Proof.
  unfold validateExtraction. cbn [errors].
  rewrite in_app_iff, !In_pushIf, !negb_true_iff. tauto.
Qed.

Lemma valid_spec (data : ExtractedData) :
  valid (validateExtraction data) = true <-> errors (validateExtraction data) = [].
Proof.
  unfold validateExtraction. cbn [valid errors].
  rewrite Nat.eqb_eq. split.
  - apply length_zero_iff_nil.
  - intros ->. reflexivity.
Qed.

Lemma rangeWarning_pushed (data : ExtractedData) (gm : Js.str) :
  gross_margin data = Some gm -> gm <> [] ->
  outOfRange (grossMargin gm) = true ->
  In (rangeWarning gm) (warnings (validateExtraction data)).
Proof.
  intros Hgm Hne Hout. unfold validateExtraction. cbn [warnings].
  rewrite Hgm. destruct gm as [|c g]; [congruence|].
  apply in_or_app. left. apply In_pushIf. auto.
Qed.

Lemma incomeWarning_pushed (data : ExtractedData) (r n : Num.t) :
  parseFinancialString (total_revenue data) = Some r ->
  parseFinancialString (net_income data) = Some n ->
  Num.gtb n r = true ->
  In (Js.lit "Net income exceeds total revenue")
     (warnings (validateExtraction data)).
Proof.
  intros Hr Hn Hgt. unfold validateExtraction. cbn [warnings].
  rewrite Hr, Hn.
  apply in_or_app. right. apply in_or_app. right. apply in_or_app. right.
  apply in_or_app. left. apply In_pushIf. auto.
Qed.

Lemma noDataWarning_pushed (data : ExtractedData) :
  Forall (fun f => f = None) (FINANCIAL_FIELDS data) ->
  In (Js.lit "No financial data was extracted")
     (warnings (validateExtraction data)).
Proof.
  intros Hall. unfold validateExtraction. cbn [warnings].
  apply in_or_app. right. apply in_or_app. right. apply in_or_app. right.
  apply in_or_app. right. apply In_pushIf. split; [|reflexivity].
  apply Nat.eqb_eq. unfold filledCount.
  induction Hall as [|f l Hf Hl IH]; [reflexivity|].
  subst f. simpl. exact IH.
Qed.



End ValidatorFacts.

(** ** Numbers: what rounding never produces *)

Module NumFacts.
Import Num.

Lemma shr_1_nonneg (mrs : shr_record) : 0 <= shr_m mrs -> 0 <= shr_m (shr_1 mrs).
Proof.
  destruct mrs as [m r s]. simpl.
  destruct m as [|p|p]; [..|lia]; intros _.
  - simpl. lia.
  - destruct p; simpl; lia.
Qed.

Lemma iter_shr_1_nonneg (p : positive) :
  forall mrs, 0 <= shr_m mrs -> 0 <= shr_m (SpecFloat.iter_pos shr_1 p mrs).
Proof.
  induction p as [p IH|p IH|]; intros mrs H; simpl.
  - apply IH, IH, shr_1_nonneg, H.
  - apply IH, IH, H.
  - apply shr_1_nonneg, H.
Qed.

Lemma shr_fexp_nonneg (m e : Z) (l : location) :
  0 <= m -> 0 <= shr_m (fst (shr_fexp prec emax m e l)).
Proof.
  intros H. unfold shr_fexp, shr.
  assert (H0 : 0 <= shr_m (shr_record_of_loc m l)).
  { destruct l as [|[| |]]; exact H. }
  destruct (fexp prec emax (Zdigits2 m + e) - e); simpl; auto.
  apply iter_shr_1_nonneg, H0.
Qed.

Lemma round_nearest_even_nonneg (m : Z) (l : location) :
  0 <= m -> 0 <= round_nearest_even m l.
Proof.
  intros H. destruct l as [|[| |]]; simpl; try lia.
  destruct (Z.even m); lia.
Qed.

(** Rounding a mantissa that is not negative gives a number. *)
Lemma binary_round_aux_number (sx : bool) (mx ex : Z) (lx : location) :
  0 <= mx -> isNaN (binary_round_aux prec emax sx mx ex lx) = false.
Proof.
  intros H. unfold binary_round_aux.
  pose proof (shr_fexp_nonneg mx ex lx H) as H1.
  destruct (shr_fexp prec emax mx ex lx) as [mrs' e']. cbn [fst] in H1.
  pose proof (shr_fexp_nonneg _ e' loc_Exact
                (round_nearest_even_nonneg (shr_m mrs') (loc_of_shr_record mrs') H1)) as H2.
  destruct (shr_fexp prec emax _ e' loc_Exact) as [mrs'' e'']. cbn [fst] in H2.
  destruct (shr_m mrs'') as [|p|p]; [reflexivity| |lia].
  destruct (e'' <=? emax - prec); reflexivity.
Qed.

Lemma binary_round_number (sx : bool) (mx : positive) (ex : Z) :
  isNaN (binary_round prec emax sx mx ex) = false.
Proof.
  unfold binary_round. destruct (shl_align mx ex _) as [mz ez].
  apply binary_round_aux_number. lia.
Qed.

Lemma div_finite_number (sx sy : bool) (mx my : positive) (ex ey : Z) :
  isNaN (div (S754_finite sx mx ex) (S754_finite sy my ey)) = false.
Proof.
  unfold div, SFdiv, SFdiv_core_binary.
  set (m' := match _ - _ - _ with Z0 => Z.pos mx | Z.pos _ => _ | Z.neg _ => 0 end).
  assert (Hm : 0 <= m').
  { subst m'. destruct (_ - _ - _) eqn:E; try lia.
    apply Z.shiftl_nonneg. lia. }
  pose proof (Z.div_pos m' (Z.pos my) Hm ltac:(lia)) as Hq.
  unfold Z.div in Hq.
  destruct (Z.div_eucl m' (Z.pos my)) as [q r].
  apply binary_round_aux_number. exact Hq.
Qed.

Lemma ofDecimal_number (negative : bool) (mantissa : N) (exponent10 : Z) :
  isNaN (ofDecimal negative mantissa exponent10) = false.
Proof.
  unfold ofDecimal. destruct mantissa as [|m]; [reflexivity|].
  destruct (0 <=? exponent10).
  - apply binary_round_number.
  - apply div_finite_number.
Qed.

(** The product of a number and a finite number is a number. *)
Lemma mul_finite_number (x : t) (s : bool) (m : positive) (e : Z) :
  isNaN x = false -> isNaN (mul x (S754_finite s m e)) = false.
Proof.
  intros H. destruct x as [sx|sx| |sx mx ex]; try reflexivity; [discriminate|].
  unfold mul, SFmul. apply binary_round_aux_number. lia.
Qed.

Lemma spanDigits_digits (s : Js.str) :
  Forall (fun c => isDigit c = true) (fst (spanDigits s)).
Proof.
  induction s as [|c s IH]; simpl; [constructor|].
  destruct (isDigit c) eqn:E; [|constructor].
  destruct (spanDigits s) as [ds rest]. simpl in *. constructor; assumption.
Qed.

(** A text that opens with a digit, after a minus or not, is a number
    for [parseFloat]. *)
Lemma parseFloat_number (minus : bool) (d : N) (rest : Js.str) :
  isDigit d = true ->
  isNaN (parseFloat ((if minus then [45%N] else []) ++ d :: rest)) = false.
Proof.
  intros Hd. unfold isDigit in Hd. apply andb_prop in Hd as [H1 H2].
  apply N.leb_le in H1. apply N.leb_le in H2.
  assert (Hws : Js.isWhiteSpace d = false).
  { unfold Js.isWhiteSpace.
    repeat match goal with
           | |- context [(?a <=? ?b)%N] =>
               let E := fresh in destruct (a <=? b)%N eqn:E;
               [apply N.leb_le in E|apply N.leb_gt in E]
           | |- context [(?a =? ?b)%N] =>
               let E := fresh in destruct (a =? b)%N eqn:E;
               [apply N.eqb_eq in E|apply N.eqb_neq in E]
           end; try reflexivity; lia. }
  assert (Hspan : forall s1, s1 = d :: rest ->
            isNaN (if startsWith (Js.lit "Infinity") s1 then S754_infinity minus
                   else let '(intDigits, s2) := spanDigits s1 in
                        let '(fracDigits, s3) :=
                          match s2 with
                          | 46%N :: r => spanDigits r
                          | _ => ([], s2)
                          end in
                        match intDigits ++ fracDigits with
                        | [] => NaN
                        | ds => ofDecimal minus (digitsValue ds)
                                  (exponentPart s3 - Z.of_nat (length fracDigits))
                        end) = false).
  { intros s1 ->.
    destruct (startsWith (Js.lit "Infinity") (d :: rest)); [reflexivity|].
    cbn [spanDigits]. unfold isDigit.
    rewrite (proj2 (N.leb_le _ _) H1), (proj2 (N.leb_le _ _) H2). cbn [andb].
    destruct (spanDigits rest) as [ds s2].
    destruct (match s2 with 46%N :: r => spanDigits r | _ => ([], s2) end)
      as [fracDigits s3].
    cbn [app]. apply ofDecimal_number. }
  unfold parseFloat. destruct minus; cbn [app Js.trimStart].
  - change (Js.isWhiteSpace 45) with false. cbv iota.
    cbn [spanSign]. apply Hspan. reflexivity.
  - rewrite Hws.
    assert (Hsign : spanSign (d :: rest) = (false, d :: rest)).
    { unfold spanSign.
      destruct d as [|p]; [reflexivity|].
      do 6 (destruct p as [p|p|]; try reflexivity); lia. }
    rewrite Hsign. apply Hspan. reflexivity.
Qed.

(** Numbers compare: of two numbers, one is greater than the other or
    not greater. *)
Lemma compare_numbers (x y : t) :
  isNaN x = false -> isNaN y = false ->
  gtb x y = true \/ SFleb x y = true.
Proof.
  intros Hx Hy. unfold gtb, SFltb, SFleb.
  destruct x as [sx|sx| |sx mx ex]; try discriminate;
    destruct y as [sy|sy| |sy my ey]; try discriminate; simpl;
    try (destruct sx; auto; fail); try (destruct sy; auto; fail);
    try (destruct sx, sy; auto; fail); auto.
  pose proof (Z.compare_antisym ex ey) as Hz.
  pose proof (Pos.compare_cont_antisym mx my Eq) as Hp. simpl in Hp.
  destruct sx, sy; auto;
    destruct (ex ?= ey), (ey ?= ex); simpl in Hz; try discriminate; auto;
    destruct (Pos.compare_cont Eq mx my), (Pos.compare_cont Eq my mx);
    simpl in *; try discriminate; auto.
Qed.

End NumFacts.

(** ** The validator: the amounts it compares *)

Module AmountFacts.
Import Validator.

(** The first group of the pattern opens with a digit, after a minus or
    not. *)
Lemma matchAmount_number (cleaned number : Js.str) (suffix : option Js.str) :
  matchAmount cleaned = Some (number, suffix) ->
  exists (minus : bool) d rest,
    number = (if minus then [45%N] else []) ++ d :: rest /\
    Num.isDigit d = true.
Proof.
  unfold matchAmount.
  assert (Hsign : exists (minus : bool) (s1 : Js.str),
            match cleaned with
            | 45%N :: r => ([45%N], r)
            | _ => ([], cleaned)
            end = ((if minus then [45%N] else []) : Js.str, s1)).
  { destruct cleaned as [|c r]; [exists false; eexists; reflexivity|].
    destruct c as [|p]; [exists false; eexists; reflexivity|].
    do 6 (destruct p as [p|p|]; try (exists false; eexists; reflexivity)).
    exists true. eexists. reflexivity. }
  destruct Hsign as (minus & s1 & ->).
  pose proof (NumFacts.spanDigits_digits s1) as Hd.
  destruct (Num.spanDigits s1) as [intDigits s2]. cbn [fst] in Hd.
  destruct intDigits as [|d ds]; [discriminate|].
  apply Forall_cons in Hd as [Hd _].
  destruct (match s2 with 46%N :: r => ([46%N], r) | _ => ([], s2) end) as [dot s3].
  destruct (Num.spanDigits s3) as [fracDigits s4].
  destruct (Js.trimStart s4) as [|c suffix'].
  - intros H. inversion H; subst. exists minus, d, (ds ++ dot ++ fracDigits).
    split; [reflexivity|exact Hd].
  - destruct (isSuffix (c :: suffix')); [|discriminate].
    intros H. inversion H; subst. exists minus, d, (ds ++ dot ++ fracDigits).
    split; [reflexivity|exact Hd].
Qed.

(** Every multiplier is a finite number. *)
Lemma multiplier_finite (suffix : option Js.str) :
  exists m e,
    match suffix with
    | Some suffix => default (Num.ofZ 1) (multipliers suffix)
    | None => Num.ofZ 1
    end = S754_finite false m e.
Proof.
  destruct suffix as [suffix|]; [|vm_compute; eauto].
  unfold multipliers.
  repeat match goal with
         | |- context [Js.eqb ?a ?b] => destruct (Js.eqb a b)
         end; vm_compute; eauto.
Qed.

Lemma parseFinancialString_number (value : option Js.str) (x : Num.t) :
  parseFinancialString value = Some x -> Num.isNaN x = false.
Proof.
  unfold parseFinancialString.
  destruct value as [[|c v]|]; try discriminate.
  destruct (matchAmount _) as [[number suffix]|] eqn:Hm; [|discriminate].
  destruct (matchAmount_number _ _ _ Hm) as (minus & d & rest & -> & Hd).
  destruct (multiplier_finite suffix) as (m & e & Hmul).
  intros H. injection H as <-.
  change (binary_round Num.prec Num.emax false 1 0) with (Num.ofZ 1).
  rewrite Hmul.
  apply NumFacts.mul_finite_number, NumFacts.parseFloat_number, Hd.
Qed.

Lemma revenueWarning_pushed (data : ExtractedData) (r : Num.t) :
  parseFinancialString (total_revenue data) = Some r ->
  Num.ltb r (Num.ofZ 0) = true ->
  In (Js.lit "Total revenue is negative") (warnings (validateExtraction data)).
Proof.
  intros Hr Hlt. unfold validateExtraction. cbn [warnings]. rewrite Hr.
  apply in_or_app. right. apply in_or_app. right. apply in_or_app. left.
  apply ValidatorFacts.In_pushIf. auto.
Qed.

(** An amount that [parseFinancialString] returns is never NaN, so the
    two comparisons that [validateExtraction] makes without a test for
    NaN decide: a revenue that parses gets the warning for a negative
    revenue or is at least 0, and when net income parses too, the record
    gets the warning for an income above the revenue or the income is at
    most the revenue. *)
Theorem amounts_are_never_NaN (data : ExtractedData) :
  (forall value x, parseFinancialString value = Some x -> Num.isNaN x = false) /\
  (forall r, parseFinancialString (total_revenue data) = Some r ->
     In (Js.lit "Total revenue is negative") (warnings (validateExtraction data))
     \/ SFleb (Num.ofZ 0) r = true) /\
  (forall r n,
     parseFinancialString (total_revenue data) = Some r ->
     parseFinancialString (net_income data) = Some n ->
     In (Js.lit "Net income exceeds total revenue")
        (warnings (validateExtraction data))
     \/ SFleb n r = true).
Proof.
  split; [exact parseFinancialString_number|]. split.
  - intros r Hr.
    destruct (NumFacts.compare_numbers (Num.ofZ 0) r eq_refl
                (parseFinancialString_number _ _ Hr)) as [H|H]; [left|right; exact H].
    exact (revenueWarning_pushed data r Hr H).
  - intros r n Hr Hn.
    destruct (NumFacts.compare_numbers n r
                (parseFinancialString_number _ _ Hn)
                (parseFinancialString_number _ _ Hr)) as [H|H]; [left|right; exact H].
    exact (ValidatorFacts.incomeWarning_pushed data r n Hr Hn H).
Qed.

End AmountFacts.

(** ** The numeric fields of the earlier revision *)

Module LegacyFacts.
Import Parser Legacy.

Lemma div_by_finite_number (x : Num.t) (s : bool) (m : positive) (e : Z) :
  Num.isNaN x = false -> Num.isNaN (Num.div x (S754_finite s m e)) = false.
Proof.
  intros H. destruct x as [sx|sx| |sx mx ex]; try reflexivity; [discriminate|].
  apply NumFacts.div_finite_number.
Qed.

Lemma getMember_setMember (key : Js.str) (v : json) (members : list (Js.str * json)) :
  getMember key (setMember key v members) = Some v.
Proof.
  assert (Hk : Js.eqb key key = true) by (apply bool_decide_eq_true_2; reflexivity).
  unfold getMember. induction members as [|[k old] members IH]; simpl.
  - rewrite Hk. reflexivity.
  - destruct (Js.eqb k key) eqn:E; simpl; [rewrite E; reflexivity|].
    destruct (precedes key k); simpl; [rewrite Hk; reflexivity|].
    rewrite E. exact IH.
Qed.

Lemma getMember_setMember_ne (key key' : Js.str) (v : json)
    (members : list (Js.str * json)) :
  key <> key' ->
  getMember key' (setMember key v members) = getMember key' members.
Proof.
  intros Hne.
  assert (Hk : Js.eqb key key' = false) by (apply bool_decide_eq_false_2; exact Hne).
  unfold getMember. induction members as [|[k old] members IH]; simpl.
  - rewrite Hk. reflexivity.
  - destruct (Js.eqb k key) eqn:E; simpl.
    + apply bool_decide_eq_true in E. subst k. rewrite Hk. reflexivity.
    + destruct (precedes key k); simpl.
      * rewrite Hk. reflexivity.
      * destruct (Js.eqb k key'); [reflexivity|exact IH].
Qed.

Lemma normalizeNumericField_number (value : option json) (x : Num.t) :
  (forall y, value = Some (JNumber y) -> Num.isNaN y = false) ->
  normalizeNumericField value = Some x -> Num.isNaN x = false.
Proof.
  intros Hnum. unfold normalizeNumericField.
  destruct value as [[|b|y|s|items|members]|]; try discriminate.
  - intros [= <-]. apply Hnum. reflexivity.
  - destruct (Js.trim _) as [|c cleaned]; [discriminate|].
    destruct (Js.endsWithChar 37 (c :: cleaned)).
    + destruct (Num.isNaN (Num.parseFloat _)) eqn:E; [discriminate|].
      intros [= <-]. apply div_by_finite_number. exact E.
    + destruct (Num.isNaN (Num.parseFloat _)) eqn:E; [discriminate|].
      intros [= <-]. exact E.
Qed.

Lemma grossMargin_number (value : option json) (x : Num.t) :
  (forall y, value = Some (JNumber y) -> Num.isNaN y = false) ->
  Legacy.grossMargin value = Some x -> Num.isNaN x = false.
Proof.
  intros Hnum. unfold Legacy.grossMargin.
  destruct (normalizeNumericField value) as [gm|] eqn:E; [|discriminate].
  pose proof (normalizeNumericField_number value gm Hnum E) as Hgm.
  destruct (Num.gtb gm (Num.ofZ 1)); intros [= <-]; [|exact Hgm].
  apply div_by_finite_number. exact Hgm.
Qed.

(** After [normalizeExtraction] the two numeric fields are null or a
    number that is not NaN, whatever the oracle put there (a number, a
    string with a dollar sign, commas or a percent sign, or anything
    else), and every other property is as it was.  A margin above 1 is
    taken for a percentage and divided by 100, also when it was a string
    with a percent sign that has been divided by 100 already: a margin
    written as more than one hundred percent is divided twice. *)
Theorem normalizeExtraction_leaves_numbers (raw : list (Js.str * json)) :
  let data := normalizeExtraction raw in
  (forall key y, getMember key raw = Some (JNumber y) -> Num.isNaN y = false) ->
  (forall key, key = Js.lit "earnings_per_share" \/ key = Js.lit "gross_margin" ->
     getMember key data = Some JNull \/
     exists x, getMember key data = Some (JNumber x) /\ Num.isNaN x = false) /\
  (forall key, key <> Js.lit "earnings_per_share" -> key <> Js.lit "gross_margin" ->
     getMember key data = getMember key raw) /\
  (forall s num,
     getMember (Js.lit "gross_margin") raw = Some (JString s) ->
     Js.endsWithChar 37 (Js.trim (Js.removeAll Validator.isSeparatorOrSpace s)) = true ->
     num = Num.parseFloat
             (Js.dropLast (Js.trim (Js.removeAll Validator.isSeparatorOrSpace s))) ->
     Num.isNaN num = false ->
     Num.gtb (Num.div num (Num.ofZ 100)) (Num.ofZ 1) = true ->
     getMember (Js.lit "gross_margin") data
     = Some (JNumber (Num.div (Num.div num (Num.ofZ 100)) (Num.ofZ 100)))).
Proof.
  cbv zeta. intros Hraw. unfold normalizeExtraction.
  set (eps := Js.lit "earnings_per_share").
  set (gm := Js.lit "gross_margin").
  assert (Hne : eps <> gm) by discriminate.
  assert (Hgm : getMember gm (setMember eps
                  (ofNumber (normalizeNumericField (getMember eps raw))) raw)
                = getMember gm raw).
  { apply getMember_setMember_ne. exact Hne. }
  split; [|split].
  - intros key [-> | ->].
    + rewrite getMember_setMember_ne by congruence.
      rewrite getMember_setMember.
      destruct (normalizeNumericField (getMember eps raw)) as [x|] eqn:E; [|left; reflexivity].
      right. exists x. split; [reflexivity|].
      apply (normalizeNumericField_number _ x (Hraw eps) E).
    + rewrite getMember_setMember, Hgm.
      destruct (Legacy.grossMargin (getMember gm raw)) as [x|] eqn:E; [|left; reflexivity].
      right. exists x. split; [reflexivity|].
      apply (grossMargin_number _ x (Hraw gm) E).
  - intros key H1 H2. rewrite !getMember_setMember_ne by congruence. reflexivity.
  - intros s num Hs Hpct -> Hnan Hgt.
    rewrite getMember_setMember, Hgm, Hs.
    unfold Legacy.grossMargin, normalizeNumericField.
    destruct (Js.trim (Js.removeAll Validator.isSeparatorOrSpace s)) as [|c cleaned] eqn:Hc;
      [discriminate|].
    rewrite Hpct, Hnan, Hgt. reflexivity.
Qed.

Lemma normalizeExtraction_leaves_numbers_witness :
  getMember (Js.lit "gross_margin") (normalizeExtraction Samples.legacyReply)
  = Some (JNumber (Num.div (Num.div (Num.parseFloat (Js.lit "150")) (Num.ofZ 100))
                           (Num.ofZ 100))) /\
  getMember (Js.lit "company_name") (normalizeExtraction Samples.legacyReply)
  = Some (JString (Js.lit "Example Corp")).
Proof.
  destruct (normalizeExtraction_leaves_numbers Samples.legacyReply) as (_ & H2 & H3).
  - intros key y H. exfalso.
    unfold getMember, Samples.legacyReply in H. simpl in H.
    repeat match type of H with
           | context [Js.eqb ?a ?b] => destruct (Js.eqb a b); simpl in H
           end; discriminate.
  - split.
    + apply (H3 (Js.lit "150%") _ eq_refl eq_refl eq_refl); vm_compute; reflexivity.
    + rewrite H2 by discriminate. reflexivity.
Defined.

End LegacyFacts.

(** ** Sessions and the password *)

Module AuthFacts.
Import Auth.

(** The comparison loop ends on 0 exactly for equal strings. *)
Lemma accumulate_zero (expected : Js.str) :
  forall (result : N) (other : Js.str),
  length expected = length other ->
  (accumulate result expected other = 0%N <-> result = 0%N /\ expected = other).
Proof.
  induction expected as [|x expected IH]; intros result other Hlen.
  - destruct other; [|discriminate]. simpl. tauto.
  - destruct other as [|y other]; [discriminate|].
    simpl in *. rewrite IH by lia.
    rewrite N.lor_eq_0_iff, N.lxor_eq_0_iff. split.
    + intros [[H1 H2] H3]. subst. auto.
    + intros [H1 H2]. inversion H2; subst. auto.
Qed.

Lemma orElse_nil (a : option Js.str) :
  orElse a [] = [] <-> Js.truthy a = false.
Proof. destruct a as [[|c v]|]; simpl; split; intros H; congruence. Qed.

Lemma checkPassword_true_iff (e : env) (password : Js.str) :
  checkPassword e password = true <->
  APP_PASSWORD e = Some password /\ password <> [].
Proof.
  unfold checkPassword, getPassword.
  destruct (APP_PASSWORD e) as [[|c v]|]; cbn [orElse Js.truthy negb orb].
  - split; [discriminate|]. intros [H1 H2]. inversion H1. congruence.
  - destruct (length (c :: v) =? length password)%nat eqn:Hlen; cbn [negb].
    + apply Nat.eqb_eq in Hlen.
      rewrite N.eqb_eq, (accumulate_zero (c :: v) 0 password Hlen). split.
      * intros [_ H]. subst. split; [reflexivity|discriminate].
      * intros [H _]. inversion H; subst. auto.
    + split; [discriminate|]. intros [H1 _]. inversion H1; subst.
      rewrite Nat.eqb_refl in Hlen. discriminate.
  - split; [discriminate|]. intros [H1 _]. discriminate.
Qed.

(** [checkPassword] accepts exactly the configured password, and accepts
    nothing, not even the empty password, when [APP_PASSWORD] is unset or
    empty. *)
Theorem checkPassword_accepts_only_the_password (e : env) (password : Js.str) :
  (checkPassword e password = true <->
   APP_PASSWORD e = Some password /\ password <> []) /\
  checkPassword e [] = false.
Proof.
  split; [apply checkPassword_true_iff|].
  destruct (checkPassword e []) eqn:H; [|reflexivity].
  apply checkPassword_true_iff in H as [_ H]. congruence.
Qed.

Lemma base64Char_not_sep (n : N) : base64Char n <> SIGNATURE_SEP.
Proof.
  unfold base64Char, SIGNATURE_SEP.
  destruct (n <? 26)%N eqn:H1; [lia|].
  destruct (n <? 52)%N eqn:H2; [lia|].
  destruct (n <? 62)%N eqn:H3.
  { apply N.ltb_ge in H2. lia. }
  destruct (n =? 62)%N; lia.
Qed.

(** The alphabet of [btoa] has no dot. *)
Lemma bufToBase64_no_sep (bytes : list Byte.byte) :
  SIGNATURE_SEP ∉ bufToBase64 bytes.
Proof.
  assert (H : forall n bs, (length bs <= n)%nat -> SIGNATURE_SEP ∉ bufToBase64 bs).
  { clear bytes. induction n as [|n IH]; intros bs Hn.
    - destruct bs; [|simpl in Hn; lia]. simpl. apply not_elem_of_nil.
    - destruct bs as [|a [|b [|c rest]]]; cbn [bufToBase64].
      + apply not_elem_of_nil.
      + rewrite !not_elem_of_cons. repeat split;
          try (intros E; symmetry in E; revert E; apply base64Char_not_sep);
          try discriminate. apply not_elem_of_nil.
      + rewrite !not_elem_of_cons. repeat split;
          try (intros E; symmetry in E; revert E; apply base64Char_not_sep);
          try discriminate. apply not_elem_of_nil.
      + rewrite !not_elem_of_cons. repeat split;
          try (intros E; symmetry in E; revert E; apply base64Char_not_sep).
        apply IH. simpl in Hn. lia. }
  apply (H (length bytes)). lia.
Qed.

Lemma lastIndexOf_none (c : N) (s : Js.str) :
  c ∉ s -> lastIndexOf c s = None.
Proof.
  induction s as [|d s IH]; intros H; [reflexivity|].
  apply not_elem_of_cons in H as [Hd Hs]. simpl. rewrite (IH Hs).
  destruct (d =? c)%N eqn:E; [|reflexivity].
  apply N.eqb_eq in E. congruence.
Qed.

Lemma lastIndexOf_last (c : N) (value tail : Js.str) :
  c ∉ tail -> lastIndexOf c (value ++ c :: tail) = Some (length value).
Proof.
  intros H. induction value as [|d value IH]; simpl.
  - rewrite (lastIndexOf_none c tail H), N.eqb_refl. reflexivity.
  - rewrite IH. reflexivity.
Qed.

Lemma enabled_secret (e : env) :
  isAuthEnabled e = true -> getSecret e <> [].
Proof.
  unfold isAuthEnabled, getSecret.
  destruct (APP_PASSWORD e) as [[|c v]|]; try discriminate.
  intros _. destruct (APP_SECRET e) as [[|c' v']|]; discriminate.
Qed.

Section Session.
Variable hmac : Js.str -> Js.str -> list Byte.byte.
Variable e : env.

Local Abbreviation sign := (Auth.sign hmac e).
Local Abbreviation verify := (Auth.verify hmac e).
Local Abbreviation isValidSession := (Auth.isValidSession hmac e).

Lemma getKey_secret : getSecret e <> [] -> getKey e = Ok (getSecret e).
Proof. unfold getKey. destruct (getSecret e); [congruence|reflexivity]. Qed.

Lemma getKey_empty : getSecret e = [] -> getKey e = Err keyError.
Proof. unfold getKey. intros ->. reflexivity. Qed.

(** What [sign] returns is the value, the dot and the signature under
    the secret, which is not empty. *)
Lemma sign_Ok (value signed : Js.str) :
  sign value = Ok signed <->
  getSecret e <> [] /\
  signed = value ++ [SIGNATURE_SEP] ++ bufToBase64 (hmac (getSecret e) value).
Proof.
  unfold Auth.sign, getKey, andThen.
  destruct (getSecret e) as [|c v].
  - split; [discriminate|]. intros [H _]. congruence.
  - split.
    + intros H. inversion H. split; [discriminate|reflexivity].
    + intros [_ ->]. reflexivity.
Qed.

Lemma sign_empty (value : Js.str) :
  getSecret e = [] -> sign value = Err keyError.
Proof. intros H. unfold Auth.sign. rewrite (getKey_empty H). reflexivity. Qed.

Lemma verify_sign (value signed : Js.str) :
  sign value = Ok signed -> verify signed = Ok true.
Proof.
  intros Hs. pose proof Hs as Hs'. apply sign_Ok in Hs' as [Hne Heq].
  assert (Hl : lastIndexOf SIGNATURE_SEP signed = Some (length value)).
  { rewrite Heq. apply lastIndexOf_last. apply bufToBase64_no_sep. }
  assert (Ht : take (length value) signed = value).
  { rewrite Heq. apply take_app_length. }
  unfold Auth.verify. rewrite Hl. cbv zeta. rewrite Ht, Hs.
  cbn [andThen]. rewrite Nat.eqb_refl. cbn [negb]. f_equal.
  apply N.eqb_eq. apply accumulate_zero; auto.
Qed.

Lemma verify_signed (signed : Js.str) :
  verify signed = Ok true -> exists value, sign value = Ok signed.
Proof.
  unfold Auth.verify.
  destruct (lastIndexOf SIGNATURE_SEP signed) as [sep|]; [|discriminate].
  cbv zeta.
  destruct (sign (take sep signed)) as [expected|error] eqn:Hs; [|discriminate].
  cbn [andThen].
  destruct (length expected =? length signed)%nat eqn:Hlen; [|discriminate].
  cbn [negb]. intros H. injection H as H.
  apply N.eqb_eq in H. apply Nat.eqb_eq in Hlen.
  apply accumulate_zero in H as [_ H]; [|exact Hlen].
  exists (take sep signed). rewrite Hs, H. reflexivity.
Qed.

Lemma isValidSession_sign (value signed : Js.str) :
  sign value = Ok signed -> isValidSession (Some signed) = Ok true.
Proof.
  intros Hs.
  assert (Hne : exists c v, signed = c :: v).
  { apply sign_Ok in Hs as [_ ->]. destruct value; simpl; eauto. }
  destruct Hne as (c & v & ->). unfold Auth.isValidSession.
  eapply verify_sign. exact Hs.
Qed.

(** With a secret, the check of a session always has an answer. *)
Lemma isValidSession_answers (cookieValue : option Js.str) :
  getSecret e <> [] -> exists valid, isValidSession cookieValue = Ok valid.
Proof.
  intros Hne. unfold Auth.isValidSession.
  destruct cookieValue as [[|c v]|]; [eauto| |eauto].
  unfold Auth.verify.
  destruct (lastIndexOf SIGNATURE_SEP (c :: v)) as [sep|]; [|eauto].
  cbv zeta. unfold Auth.sign. rewrite (getKey_secret Hne). cbn [andThen].
  destruct (negb _); eauto.
Qed.

(** A cookie is a valid session exactly when it is what [sign] returns
    for some value: the value, the dot and the signature of the value
    under the secret, whatever dots the value holds itself and whenever
    it was signed.  With a secret, [sign] and the check always have an
    answer.  Without one (neither [APP_SECRET] nor [APP_PASSWORD] is
    set) the key cannot be imported: [sign] rejects, and so does the
    check of every cookie that holds a dot. *)
Theorem session_valid_iff_signed (cookieValue : Js.str) :
  (isValidSession (Some cookieValue) = Ok true <->
   exists value, sign value = Ok cookieValue) /\
  (getSecret e <> [] ->
   (forall value, exists signed, sign value = Ok signed) /\
   exists valid, isValidSession (Some cookieValue) = Ok valid) /\
  (getSecret e = [] ->
   (forall value, sign value = Err keyError) /\
   isValidSession (Some cookieValue) =
     match lastIndexOf SIGNATURE_SEP cookieValue with
     | Some _ => Err keyError
     | None => Ok false
     end).
Proof.
  split; [|split].
  - split.
    + destruct cookieValue as [|c v]; [discriminate|]. apply verify_signed.
    + intros [value Hs]. eapply isValidSession_sign. exact Hs.
  - intros Hne. split.
    + intros value. eexists. apply sign_Ok. split; [exact Hne|reflexivity].
    + apply isValidSession_answers. exact Hne.
  - intros Hnil. split; [intros value; apply sign_empty; exact Hnil|].
    destruct cookieValue as [|c v]; [reflexivity|].
    unfold Auth.isValidSession, Auth.verify.
    destruct (lastIndexOf SIGNATURE_SEP (c :: v)) as [sep|]; [|reflexivity].
    cbv zeta. rewrite (sign_empty _ Hnil). reflexivity.
Qed.

(** What [checkPassword] does with a value that is no string: it
    refuses it, or it throws when the value is an array or an object
    with the length of the password. *)
Lemma checkPasswordValue_spec (value : Parser.json) :
  isAuthEnabled e = true ->
  match checkPasswordValue e value with
  | Ok true => exists p, value = Parser.JString p /\ APP_PASSWORD e = Some p /\ p <> []
  | Ok false =>
      value <> Parser.JNull /\ value <> Parser.JString (getPassword e) /\
      forall x, lengthOf value = Some x ->
        Num.eqb x (Num.ofZ (Z.of_nat (length (getPassword e)))) = false
  | Err _ =>
      value = Parser.JNull \/
      exists x, lengthOf value = Some x /\
        Num.eqb x (Num.ofZ (Z.of_nat (length (getPassword e)))) = true
  end.
Proof.
  intros Hen.
  assert (Hp : Js.truthy (Some (getPassword e)) = true).
  { unfold isAuthEnabled in Hen. unfold getPassword.
    destruct (APP_PASSWORD e) as [[|c v]|]; try discriminate. reflexivity. }
  assert (Hpw : APP_PASSWORD e = Some (getPassword e)).
  { unfold isAuthEnabled in Hen. unfold getPassword.
    destruct (APP_PASSWORD e) as [[|c v]|]; try discriminate. reflexivity. }
  destruct value as [|b|x|s|items|members];
    unfold checkPasswordValue; try rewrite Hp; cbn [negb].
  - left. reflexivity.
  - cbn [lengthOf]. repeat split; try discriminate.
  - cbn [lengthOf]. repeat split; try discriminate.
  - destruct (checkPassword e s) eqn:Hc.
    + apply checkPassword_true_iff in Hc as [Hc Hne]. exists s. auto.
    + split; [discriminate|]. split; [|intros x; discriminate].
      intros H. inversion H; subst s.
      assert (checkPassword e (getPassword e) = true); [|congruence].
      apply checkPassword_true_iff. split; [exact Hpw|].
      intros Hnil. rewrite Hnil in Hp. discriminate.
  - cbn [lengthOf].
    destruct (Num.eqb _ _) eqn:E.
    + right. eexists. split; [reflexivity|exact E].
    + split; [discriminate|]. split; [discriminate|].
      intros x H. inversion H; subst. exact E.
  - cbn [lengthOf].
    destruct (Legacy.getMember (Js.lit "length") members) as [[|b|x|s|items|ms]|];
      try (split; [discriminate|]; split; [discriminate|]; intros x0; discriminate).
    destruct (Num.eqb _ _) eqn:E.
    + right. eexists. split; [reflexivity|exact E].
    + split; [discriminate|]. split; [discriminate|].
      intros x0 H. inversion H; subst. exact E.
Qed.

(** The cookie that [POST] sets is a valid session. *)
Lemma login_valid (body : result thrown Parser.json) (now : Z) :
  match Auth.POST hmac e body now with
  | Ok (SetCookie _ value _) => isValidSession (Some value) = Ok true
  | _ => True
  end.
Proof.
  unfold Auth.POST.
  destruct (negb (isAuthEnabled e)); [exact I|].
  destruct body as [body|error]; cbn [andThen]; [|exact I].
  destruct (match body with Parser.JNull => _ | _ => _ end) as [[value|]|error];
    cbn [andThen]; try exact I.
  destruct (negb (truthyValue (Some value))); [exact I|].
  destruct (checkPasswordValue e value) as [[|]|error]; cbn [andThen negb];
    try exact I.
  unfold Auth.createSessionCookie.
  destruct (sign (Js.lit "authenticated:" ++ Extractor.showZ now))
    as [signed|error] eqn:Hs; cbn [andThen fst snd]; [|exact I].
  eapply isValidSession_sign. exact Hs.
Qed.

(** [POST /api/auth].  Without a configured password the answer is 500,
    before the body is read.  With one, the session cookie is set
    exactly when the body is an object whose property [password] is the
    configured password as a string, and the cookie is a valid session.
    The handler throws when the body is no JSON text or is null, and
    when the property is an array, or an object with a numeric property
    [length], that has the length of the configured password.  Every
    other body is answered 401. *)
Theorem login_sets_a_valid_session (body : result thrown Parser.json) (now : Z) :
  let sent value :=
    exists members, body = Ok (Parser.JObject members) /\
      Legacy.getMember (Js.lit "password") members = Some value in
  let throws :=
    (exists error, body = Err error) \/ body = Ok Parser.JNull \/
    exists value x, sent value /\ lengthOf value = Some x /\
      Num.eqb x (Num.ofZ (Z.of_nat (length (getPassword e)))) = true in
  match Auth.POST hmac e body now with
  | Ok (SetCookie name value maxAge) =>
      (exists p, sent (Parser.JString p) /\ APP_PASSWORD e = Some p /\ p <> []) /\
      name = COOKIE_NAME /\ maxAge = 86400 /\
      isValidSession (Some value) = Ok true
  | Ok (Failure status _) =>
      (status = 500 /\ isAuthEnabled e = false) \/
      (status = 401 /\ isAuthEnabled e = true /\ ~ throws /\
       ~ sent (Parser.JString (getPassword e)))
  | Err _ => isAuthEnabled e = true /\ throws
  end.
Proof.
  cbv zeta. unfold Auth.POST.
  destruct (isAuthEnabled e) eqn:Hen; cbn [negb]; [|left; auto].
  assert (Hsign : exists signed,
            sign (Js.lit "authenticated:" ++ Extractor.showZ now) = Ok signed).
  { eexists. apply sign_Ok. split; [exact (enabled_secret e Hen)|reflexivity]. }
  destruct Hsign as [signed Hsign].
  destruct body as [body|error]; cbn [andThen];
    [|split; [reflexivity|left; eauto]].
  destruct body as [|b|x|s|items|members]; cbn [andThen passwordOf].
  - split; [reflexivity|]. right. left. reflexivity.
  - right. split; [reflexivity|]. split; [reflexivity|]. split.
    + intros [[err H]|[H|(v & x0 & (ms & H & _) & _)]]; discriminate H.
    + intros (ms & H & _). discriminate H.
  - right. split; [reflexivity|]. split; [reflexivity|]. split.
    + intros [[err H]|[H|(v & x0 & (ms & H & _) & _)]]; discriminate H.
    + intros (ms & H & _). discriminate H.
  - right. split; [reflexivity|]. split; [reflexivity|]. split.
    + intros [[err H]|[H|(v & x0 & (ms & H & _) & _)]]; discriminate H.
    + intros (ms & H & _). discriminate H.
  - right. split; [reflexivity|]. split; [reflexivity|]. split.
    + intros [[err H]|[H|(v & x0 & (ms & H & _) & _)]]; discriminate H.
    + intros (ms & H & _). discriminate H.
  - destruct (Legacy.getMember (Js.lit "password") members) as [value|] eqn:Hpw.
    2:{ right. split; [reflexivity|]. split; [reflexivity|]. split.
        + intros [[err H]|[H|(v & x0 & (ms & H & Hm) & _)]];
            [discriminate H|discriminate H|].
          inversion H; subst ms. congruence.
        + intros (ms & H & Hm). inversion H; subst ms. congruence. }
    assert (Hsent : forall v,
              (exists ms, Ok (E := thrown) (Parser.JObject members)
                          = Ok (Parser.JObject ms) /\
                 Legacy.getMember (Js.lit "password") ms = Some v) ->
              v = value).
    { intros v (ms & H & Hm). inversion H; subst ms. congruence. }
    destruct (truthyValue (Some value)) eqn:Ht; cbn [negb].
    + pose proof (checkPasswordValue_spec value Hen) as Hc.
      destruct (checkPasswordValue e value) as [[|]|error']; cbn [andThen negb].
      * destruct Hc as (p & -> & Hp & Hne).
        unfold Auth.createSessionCookie. rewrite Hsign. cbn [andThen fst snd].
        split; [|split; [reflexivity|split; [reflexivity|]]].
        -- exists p. split; [eauto|auto].
        -- eapply isValidSession_sign. exact Hsign.
      * destruct Hc as (Hn & Hne & Hlen). right.
        split; [reflexivity|]. split; [reflexivity|]. split.
        -- intros [[err H]|[H|(v & x0 & Hv & Hl & Heq)]];
             [discriminate H|discriminate H|].
           apply Hsent in Hv. subst v.
           rewrite (Hlen x0 Hl) in Heq. discriminate.
        -- intros H. apply Hsent in H. congruence.
      * split; [reflexivity|]. right. right.
        destruct Hc as [->|(x & Hl & Heq)]; [discriminate Ht|].
        exists value, x. split; [eauto|auto].
    + right. split; [reflexivity|]. split; [reflexivity|]. split.
      * intros [[err H]|[H|(v & x0 & Hv & Hl & Heq)]];
          [discriminate H|discriminate H|].
        apply Hsent in Hv. subst v.
        destruct value; discriminate.
      * intros H. apply Hsent in H. subst value.
        simpl in Ht. unfold isAuthEnabled in Hen. unfold getPassword in Ht.
        destruct (APP_PASSWORD e) as [[|c v]|]; discriminate.
Qed.

End Session.

End AuthFacts.

(** ** The guard *)

Module ProxyFacts.
Import RateLimit Proxy.

Lemma lastTime_ge (l : list event) :
  forall t0, monotone t0 l -> t0 <= lastTime t0 l.
Proof.
  induction l as [|e l IH]; intros t0 H; [apply Z.le_refl|].
  destruct H as [H1 H2]. change (lastTime t0 (e :: l)) with (lastTime (time e) l).
  specialize (IH (time e) H2). lia.
Qed.

(** An admitted request was made no later than the last event. *)
Lemma admitted_le (W M : Z) (ip : Js.str) (l : list event) :
  forall store t0 t, monotone t0 l ->
  In t (admitted W M ip l store) -> t <= lastTime t0 l.
Proof.
  induction l as [|e l IH]; intros store t0 t Hm Hin; [inversion Hin|].
  destruct Hm as [H1 H2]. change (lastTime t0 (e :: l)) with (lastTime (time e) l).
  destruct e as [ip' now|now]; cbn [admitted time] in *.
  - destruct (checkRateLimit W M ip' now store) as [r store'].
    destruct (allowed r && bool_decide (ip' = ip)).
    + destruct Hin as [<-|Hin]; [apply lastTime_ge; exact H2|].
      exact (IH store' now t H2 Hin).
    + exact (IH store' now t H2 Hin).
  - exact (IH _ now t H2 Hin).
Qed.

Section Guard.
Variable hmac : Js.str -> Js.str -> list Byte.byte.
Variable env : Auth.env.
Variable WINDOW_MS : Z.
Variable MAX_REQUESTS : Z.

Local Abbreviation proxy := (Proxy.proxy hmac env WINDOW_MS MAX_REQUESTS).
Local Abbreviation authCheck := (Proxy.authCheck hmac env).
Local Abbreviation isValidSession := (Auth.isValidSession hmac env).

(** With a password configured, the authentication check has an
    answer: the secret is not empty, so the key can be imported. *)
Lemma authCheck_enabled (r : request) :
  Auth.isAuthEnabled env = true ->
  exists valid, isValidSession (sessionCookie r) = Ok valid /\
    authCheck r =
      Ok (if isPublicPath (pathname r)
          then if Js.eqb (pathname r) (Js.lit "/login") && valid
               then Some RedirectHome else None
          else if valid
               then if Js.eqb (pathname r) (Js.lit "/login")
                    then Some RedirectHome else None
               else Some (if Num.startsWith (Js.lit "/api/") (pathname r)
                          then Unauthorized else RedirectLogin)).
Proof.
  intros Hen.
  destruct (AuthFacts.isValidSession_answers hmac env (sessionCookie r)
              (AuthFacts.enabled_secret env Hen)) as [valid Hv].
  exists valid. split; [exact Hv|].
  unfold Proxy.authCheck. rewrite Hen, Hv.
  destruct (isPublicPath (pathname r)); cbn [negb Auth.andThen].
  - destruct (Js.eqb (pathname r) (Js.lit "/login")); cbn [andb Auth.andThen];
      [destruct valid|]; reflexivity.
  - destruct valid; cbn [negb Auth.andThen]; [|reflexivity].
    destruct (Js.eqb (pathname r) (Js.lit "/login")); reflexivity.
Qed.

Lemma authCheck_disabled (r : request) :
  Auth.isAuthEnabled env = false -> authCheck r = Ok None.
Proof. intros Hen. unfold Proxy.authCheck. rewrite Hen. reflexivity. Qed.

(** The guard never throws.  It passes a request on only if its path is
    a static asset or public, or no password is configured, or its cookie
    is a valid session.  A request that it turns away at the
    authentication check or redirects does not reach the limiter: the
    store is as before, so a request without a session uses up none of
    the quota of its address.  The store changes for no path but
    /api/extract. *)
Theorem guard_precedes_the_limiter
    (r : request) (now : Z) (store : gmap Js.str (list Z)) :
  exists d store', proxy r now store = Ok (d, store') /\
  (d = Next ->
     isStatic (pathname r) = true \/ Auth.isAuthEnabled env = false \/
     isPublicPath (pathname r) = true \/
     isValidSession (sessionCookie r) = Ok true) /\
  (d = Unauthorized \/ d = RedirectLogin \/ d = RedirectHome -> store' = store) /\
  (Auth.isAuthEnabled env = true -> isStatic (pathname r) = false ->
   isPublicPath (pathname r) = false ->
   isValidSession (sessionCookie r) <> Ok true ->
   (d = Unauthorized \/ d = RedirectLogin) /\ store' = store) /\
  (store' <> store -> pathname r = Js.lit "/api/extract").
Proof.
  unfold Proxy.proxy.
  destruct (isStatic (pathname r));
    [eexists; eexists; split; [reflexivity|]; intuition congruence|].
  destruct (Auth.isAuthEnabled env) eqn:Hen.
  - destruct (authCheck_enabled r Hen) as (valid & Hv & Hc). rewrite Hc, Hv.
    cbn [Auth.andThen].
    destruct (isPublicPath (pathname r)).
    + destruct (Js.eqb (pathname r) (Js.lit "/login") && valid).
      * eexists; eexists; split; [reflexivity|]. intuition congruence.
      * destruct (Js.eqb (pathname r) (Js.lit "/api/extract")) eqn:Hp.
        -- apply bool_decide_eq_true in Hp.
           destruct (checkRateLimit _ _ _ _ _) as [res st].
           destruct (negb (allowed res));
             eexists; eexists; (split; [reflexivity|]); intuition congruence.
        -- eexists; eexists; split; [reflexivity|]. intuition congruence.
    + destruct valid.
      * destruct (Js.eqb (pathname r) (Js.lit "/login")).
        -- eexists; eexists; split; [reflexivity|]. intuition congruence.
        -- destruct (Js.eqb (pathname r) (Js.lit "/api/extract")) eqn:Hp.
           ++ apply bool_decide_eq_true in Hp.
              destruct (checkRateLimit _ _ _ _ _) as [res st].
              destruct (negb (allowed res));
                eexists; eexists; (split; [reflexivity|]); intuition congruence.
           ++ eexists; eexists; split; [reflexivity|]. intuition congruence.
      * destruct (Num.startsWith (Js.lit "/api/") (pathname r));
          eexists; eexists; (split; [reflexivity|]); intuition congruence.
  - rewrite (authCheck_disabled r Hen). cbn [Auth.andThen].
    destruct (Js.eqb (pathname r) (Js.lit "/api/extract")) eqn:Hp.
    + apply bool_decide_eq_true in Hp.
      destruct (checkRateLimit _ _ _ _ _) as [res st].
      destruct (negb (allowed res));
        eexists; eexists; (split; [reflexivity|]); intuition congruence.
    + eexists; eexists; split; [reflexivity|]. intuition congruence.
Qed.

(** A request that reaches the limiter is answered 429 exactly when the
    limiter refuses its key.  After any history on a clock that does not
    run backwards, the header Retry-After of that answer is a whole
    number of seconds, at least 1 and no more than the window rounded up
    to seconds. *)
Theorem retry_after_is_within_the_window
    (l : list event) (r : request) (now t0 : Z) :
  1 <= MAX_REQUESTS ->
  monotone t0 l -> lastTime t0 l <= now ->
  isStatic (pathname r) = false -> authCheck r = Ok None ->
  pathname r = Js.lit "/api/extract" ->
  let store := after WINDOW_MS MAX_REQUESTS l in
  let answer := fst (checkRateLimit WINDOW_MS MAX_REQUESTS (clientKey r) now store) in
  match proxy r now store with
  | Ok (TooManyRequests header, _) =>
      allowed answer = false /\
      exists seconds, header = Extractor.showZ seconds /\
        1 <= seconds /\ 1000 * (seconds - 1) < WINDOW_MS
  | Ok (d, _) => d = Next /\ allowed answer = true
  | Err _ => False
  end.
Proof.
  intros HM Hmono Hnow Hstatic Hauth Hpath. cbv zeta.
  unfold Proxy.proxy. rewrite Hstatic, Hauth, Hpath. cbn [Auth.andThen].
  rewrite (bool_decide_eq_true_2 _ eq_refl : Js.eqb _ _ = true).
  destruct (RateLimitFacts.window_decides WINDOW_MS MAX_REQUESTS l (clientKey r)
              now t0 Hmono Hnow) as [_ Hden].
  destruct (checkRateLimit WINDOW_MS MAX_REQUESTS (clientKey r) now
              (after WINDOW_MS MAX_REQUESTS l)) as [res st] eqn:Hres.
  cbn [fst] in *.
  destruct (allowed res) eqn:Hal; cbn [negb].
  - split; reflexivity.
  - split; [reflexivity|].
    destruct (Hden eq_refl HM) as (oldest & rest & Hrec & Hretry & Hpos).
    rewrite Hretry. cbn [retryAfterSeconds].
    eexists. split; [reflexivity|].
    assert (Hold : oldest <= now).
    { assert (Hin : In oldest (RateLimit.prune WINDOW_MS now
                (admitted WINDOW_MS MAX_REQUESTS (clientKey r) l ∅))).
      { rewrite Hrec. left. reflexivity. }
      apply RateLimitFacts.prune_In in Hin as [Hin _].
      pose proof (admitted_le _ _ _ l ∅ t0 oldest Hmono Hin). lia. }
    set (ms := WINDOW_MS - (now - oldest)) in *.
    pose proof (Z.div_mod (- ms) 1000 ltac:(lia)) as Hdm.
    pose proof (Z.mod_pos_bound (- ms) 1000 ltac:(lia)) as Hb.
    lia.
Qed.

(** The cookie that a login sets passes the guard: a request that
    carries it is never answered 401 and never sent to the login page,
    at whatever time it comes. *)
Theorem login_passes_the_guard
    (body : result thrown Parser.json) (t : Z) (name value : Js.str) (maxAge : Z)
    (r : request) (now : Z) (store : gmap Js.str (list Z)) :
  Auth.POST hmac env body t = Ok (Auth.SetCookie name value maxAge) ->
  sessionCookie r = Some value ->
  exists d store', proxy r now store = Ok (d, store') /\
    d <> Unauthorized /\ d <> RedirectLogin.
Proof.
  intros Hpost Hcookie.
  assert (Hvalid : isValidSession (sessionCookie r) = Ok true).
  { rewrite Hcookie.
    pose proof (AuthFacts.login_valid hmac env body t) as H.
    rewrite Hpost in H. exact H. }
  unfold Proxy.proxy.
  destruct (isStatic (pathname r));
    [eexists; eexists; split; [reflexivity|]; split; discriminate|].
  destruct (Auth.isAuthEnabled env) eqn:Hen.
  - destruct (authCheck_enabled r Hen) as (valid & Hv & Hc).
    rewrite Hvalid in Hv. inversion Hv; subst valid. rewrite Hc.
    cbn [Auth.andThen]. rewrite andb_true_r.
    destruct (isPublicPath (pathname r));
      (destruct (Js.eqb (pathname r) (Js.lit "/login"));
       [eexists; eexists; split; [reflexivity|]; split; discriminate|]);
      (destruct (Js.eqb (pathname r) (Js.lit "/api/extract"));
       [|eexists; eexists; split; [reflexivity|]; split; discriminate]);
      destruct (checkRateLimit _ _ _ _ _) as [res st];
      destruct (negb (allowed res));
      eexists; eexists; (split; [reflexivity|]); split; discriminate.
  - rewrite (authCheck_disabled r Hen). cbn [Auth.andThen].
    destruct (Js.eqb (pathname r) (Js.lit "/api/extract"));
      [|eexists; eexists; split; [reflexivity|]; split; discriminate].
    destruct (checkRateLimit _ _ _ _ _) as [res st].
    destruct (negb (allowed res));
      eexists; eexists; (split; [reflexivity|]); split; discriminate.
Qed.

End Guard.

Lemma retry_after_is_within_the_window_witness :
  Proxy.proxy Samples.toyMac Samples.secured 1000 2
    (Samples.extractRequest None) 20
    (after 1000 2 [Check Samples.client 0; Check Samples.client 10])
  = Ok (Unauthorized, after 1000 2 [Check Samples.client 0; Check Samples.client 10]) /\
  match Proxy.proxy Samples.toyMac (Auth.mkEnv None None) 1000 2
          (Samples.extractRequest None) 20
          (after 1000 2 [Check Samples.client 0; Check Samples.client 10]) with
  | Ok (TooManyRequests header, _) =>
      exists seconds, header = Extractor.showZ seconds /\
        1 <= seconds /\ 1000 * (seconds - 1) < 1000
  | _ => False
  end.
Proof.
  split; [vm_compute; reflexivity|].
  pose proof (retry_after_is_within_the_window Samples.toyMac (Auth.mkEnv None None)
                1000 2 [Check Samples.client 0; Check Samples.client 10]
                (Samples.extractRequest None) 20 0
                ltac:(lia) ltac:(simpl; lia) ltac:(simpl; lia)
                eq_refl eq_refl eq_refl) as H.
  cbv zeta in H.
  destruct (Proxy.proxy Samples.toyMac (Auth.mkEnv None None) 1000 2
               (Samples.extractRequest None) 20
               (after 1000 2 [Check Samples.client 0; Check Samples.client 10]))
    as [[d st]|error] eqn:Hd; [|exact H].
  destruct d; try (destruct H as [H _]; discriminate H).
  - exfalso. destruct H as [_ H].
    rewrite RateLimitFacts.check_allowed in H.
    vm_compute in H. discriminate H.
  - destruct H as [_ H]. exact H.
Defined.

Lemma login_passes_the_guard_witness :
  exists value,
    Auth.POST Samples.toyMac Samples.secured (Ok (Samples.login "hunter2"))
              1700000000000
    = Ok (Auth.SetCookie Auth.COOKIE_NAME value 86400) /\
    exists d store',
      Proxy.proxy Samples.toyMac Samples.secured 1000 2
        (Samples.extractRequest (Some value)) 1700000900000 ∅ = Ok (d, store') /\
      d <> Unauthorized.
Proof.
  eexists. split; [vm_compute; reflexivity|].
  destruct (login_passes_the_guard Samples.toyMac Samples.secured 1000 2
              (Ok (Samples.login "hunter2")) 1700000000000 Auth.COOKIE_NAME _ 86400
              (Samples.extractRequest (Some _)) 1700000900000 ∅
              ltac:(vm_compute; reflexivity) eq_refl)
    as (d & store' & H1 & H2 & _).
  exists d, store'. split; [exact H1|exact H2].
Defined.

End ProxyFacts.

(** ** The export *)

Module ExportRouteFacts.
Import ExportRoute.

Lemma readQuoted_doubleQuotes (value rest : Js.str) :
  delimited rest ->
  readQuoted (doubleQuotes value ++ 34%N :: rest) = (value, rest).
Proof.
  intros Hd. induction value as [|c value IH].
  - simpl. destruct rest as [|d rest]; [reflexivity|].
    destruct Hd as [-> | ->]; reflexivity.
  - unfold doubleQuotes in *. cbn [flat_map].
    destruct (c =? 34)%N eqn:E.
    + apply N.eqb_eq in E. subst c. cbn [app readQuoted].
      rewrite N.eqb_refl. rewrite IH. reflexivity.
    + cbn [app readQuoted]. rewrite E, IH. reflexivity.
Qed.

Lemma readBare_plain (value rest : Js.str) :
  existsb isSpecial value = false -> delimited rest ->
  readBare (value ++ rest) = (value, rest).
Proof.
  intros Hv Hd. induction value as [|c value IH].
  - simpl. destruct rest as [|d rest]; [reflexivity|].
    destruct Hd as [-> | ->]; reflexivity.
  - cbn [existsb] in Hv. apply orb_false_elim in Hv as [Hc Hv].
    unfold isSpecial in Hc.
    apply orb_false_elim in Hc as [Hc H10].
    apply orb_false_elim in Hc as [H44 H34].
    cbn [app readBare]. rewrite H44, H10. cbn [orb].
    rewrite (IH Hv). reflexivity.
Qed.

(** A field reads back as the value that was escaped. *)
Lemma readField_escapeCSV (value rest : Js.str) :
  delimited rest ->
  readField (escapeCSV value ++ rest) = (value, rest).
Proof.
  intros Hd. unfold escapeCSV.
  destruct (existsb isSpecial value) eqn:Hs.
  - cbn [app readField]. rewrite N.eqb_refl, <- app_assoc.
    apply readQuoted_doubleQuotes. exact Hd.
  - destruct value as [|c value].
    + simpl. destruct rest as [|d rest]; [reflexivity|].
      destruct Hd as [-> | ->]; reflexivity.
    + assert (Hc : (c =? 34)%N = false).
      { cbn [existsb] in Hs. apply orb_false_elim in Hs as [Hc _].
        unfold isSpecial in Hc.
        apply orb_false_elim in Hc as [Hc _].
        apply orb_false_elim in Hc as [_ Hc]. exact Hc. }
      cbn [app readField]. rewrite Hc.
      apply (readBare_plain (c :: value) rest Hs Hd).
Qed.

(** The text of a record, and of the records after the first. *)
Local Abbreviation line cells := (join [44%N] (map escapeCSV cells)).
Local Abbreviation more table :=
  (flat_map (fun cells => 10%N :: line cells) table).

Lemma join_cons (sep x : Js.str) (rest : list Js.str) :
  join sep (x :: rest) = x ++ flat_map (fun y => sep ++ y) rest.
Proof.
  revert x. induction rest as [|y rest IH]; intros x.
  - simpl. rewrite app_nil_r. reflexivity.
  - change (join sep (x :: y :: rest)) with (x ++ sep ++ join sep (y :: rest)).
    rewrite IH. cbn [flat_map]. rewrite <- app_assoc. reflexivity.
Qed.

Lemma readRecords_cells (cells : list Js.str) :
  forall (c : Js.str) (row : list Js.str) (tail : Js.str) (fuel : nat)
         (result : list (list Js.str)),
  (length (line (c :: cells) ++ tail) < fuel)%nat ->
  (tail = [] /\ result = [] \/
   exists tail', tail = 10%N :: tail' /\
     forall fuel', (length tail' < fuel')%nat ->
       readRecords fuel' tail' [] = result) ->
  readRecords fuel (line (c :: cells) ++ tail) row
  = (row ++ c :: cells) :: result.
Proof.
  induction cells as [|c2 cells IH]; intros c row tail fuel result Hfuel Htail.
  - destruct fuel as [|fuel]; [lia|].
    cbn [map join readRecords] in *.
    rewrite readField_escapeCSV.
    2:{ destruct Htail as [[-> _]|(tail' & -> & _)]; simpl; auto. }
    destruct Htail as [[-> ->]|(tail' & -> & Hrest)]; [reflexivity|].
    change (10 =? 44)%N with false. cbv iota.
    rewrite Hrest; [reflexivity|].
    rewrite length_app in Hfuel. simpl in Hfuel. lia.
  - destruct fuel as [|fuel]; [lia|].
    change (line (c :: c2 :: cells)) with (escapeCSV c ++ [44%N] ++ line (c2 :: cells))
      in *.
    rewrite <- !app_assoc in *. cbn [readRecords].
    rewrite readField_escapeCSV by (simpl; auto).
    cbn [app]. rewrite N.eqb_refl.
    rewrite (IH c2 (row ++ [c]) tail fuel result); [|
      rewrite !length_app in *; simpl in *; lia | exact Htail].
    rewrite <- app_assoc. reflexivity.
Qed.

Lemma readRecords_table (table : list (list Js.str)) :
  Forall (fun cells => cells <> []) table ->
  forall (c : Js.str) (cells : list Js.str) (fuel : nat),
  (length (line (c :: cells) ++ more table) < fuel)%nat ->
  readRecords fuel (line (c :: cells) ++ more table) [] = (c :: cells) :: table.
Proof.
  intros Hne. induction Hne as [|next table Hnext Hne IH]; intros c cells fuel Hfuel.
  - apply (readRecords_cells cells c [] [] fuel []); auto.
  - destruct next as [|c' cells']; [congruence|].
    cbn [flat_map app] in *.
    apply (readRecords_cells cells c [] _ fuel ((c' :: cells') :: table));
      [exact Hfuel|].
    right. eexists. split; [reflexivity|].
    intros fuel' Hfuel'. apply IH. exact Hfuel'.
Qed.

(** A table whose records have a field each reads back as it was
    written. *)
Lemma readCSV_join (first : list Js.str) (table : list (list Js.str)) :
  first <> [] -> Forall (fun cells => cells <> []) table ->
  readCSV (join [10%N] (map (fun cells => line cells) (first :: table)))
  = first :: table.
Proof.
  intros Hfirst Hne. destruct first as [|c cells]; [congruence|].
  unfold readCSV. cbn [map]. rewrite join_cons.
  assert (E : flat_map (fun y => [10%N] ++ y) (map (fun cells0 => line cells0) table)
              = more table).
  { clear. induction table as [|t table IH]; [reflexivity|].
    cbn [map flat_map]. rewrite IH. reflexivity. }
  rewrite E. apply readRecords_table; [exact Hne|apply le_n].
Qed.

Lemma header_line : header = line (map snd FIELDS).
Proof. vm_compute. reflexivity. Qed.

Lemma dataCols_shown (data : ExtractedData) :
  dataCols data = map escapeCSV (shown data).
Proof.
  unfold dataCols, shown. rewrite map_map. apply map_ext.
  intros [get label]. cbn [fst]. destruct (get data); reflexivity.
Qed.

Lemma readCSV_csv (rows : list ExtractedData) :
  readCSV (csv rows) = map snd FIELDS :: map shown rows.
Proof.
  unfold csv. rewrite header_line.
  assert (E : map (fun data => join (Js.lit ",") (dataCols data)) rows
              = map (fun cells => line cells) (map shown rows)).
  { rewrite map_map. apply map_ext. intros data. rewrite dataCols_shown. reflexivity. }
  rewrite E.
  apply (readCSV_join (map snd FIELDS) (map shown rows)); [discriminate|].
  apply List.Forall_forall. intros cells Hin.
  apply in_map_iff in Hin as (data & <- & _). discriminate.
Qed.

(** The export loses nothing but the difference between null and the
    empty string: the file reads back, record by record and field by
    field, as the labels and then the nine values of every row, whatever
    commas, quotes and line feeds the values hold; so two lists of rows
    with the same file show the same values. *)
Theorem export_is_lossless :
  (forall rows, readCSV (csv rows) = map snd FIELDS :: map shown rows) /\
  (forall rows1 rows2, csv rows1 = csv rows2 -> map shown rows1 = map shown rows2) /\
  csv [] = Js.lit "Company Name,Quarter,Total revenue,Earnings per share,Net income,Operating income,Gross margin,Operating expenses,Buybacks and dividends".
Proof.
  split; [exact readCSV_csv|]. split; [|reflexivity].
  intros rows1 rows2 H.
  pose proof (readCSV_csv rows1) as H1. pose proof (readCSV_csv rows2) as H2.
  rewrite H in H1. rewrite H1 in H2. inversion H2. reflexivity.
Qed.

End ExportRouteFacts.

(** ** The extraction route *)

Module RouteFacts.
Import Extractor Route.

Section Limits.
Context {Buffer : Type}.
Variable MAX_FILE_SIZE_MB : Z.
Variable MAX_FILES : Z.

Local Abbreviation fileError := (Route.fileError (Buffer := Buffer) MAX_FILE_SIZE_MB).
Local Abbreviation firstError := (Route.firstError (Buffer := Buffer) MAX_FILE_SIZE_MB).
Local Abbreviation batchError :=
  (Route.batchError (Buffer := Buffer) MAX_FILE_SIZE_MB MAX_FILES).
Local Abbreviation acceptable := (Route.acceptable (Buffer := Buffer) MAX_FILE_SIZE_MB).

Lemma fileError_None (file : File Buffer) :
  fileError file = None <-> acceptable file.
Proof.
  unfold Route.fileError, Route.acceptable.
  destruct (isPDF file); cbn [negb].
  - destruct (size file =? 0) eqn:H0.
    + apply Z.eqb_eq in H0. split; [discriminate|]. intros (_ & H & _). lia.
    + apply Z.eqb_neq in H0.
      destruct (MAX_FILE_SIZE MAX_FILE_SIZE_MB <? size file) eqn:Hm.
      * apply Z.ltb_lt in Hm. split; [discriminate|]. intros (_ & _ & H). lia.
      * apply Z.ltb_ge in Hm. split; auto.
  - split; [discriminate|]. intros (H & _). discriminate.
Qed.

Lemma firstError_None (files : list (entry Buffer)) :
  firstError files = Ok None <->
  Forall (fun value => exists file, value = FileEntry file /\ acceptable file) files.
Proof.
  induction files as [|[file|text] rest IH]; simpl.
  - split; [constructor|reflexivity].
  - destruct (fileError file) eqn:He.
    + split; [discriminate|]. intros H. apply Forall_cons in H as [(f & Hf & H) _].
      inversion Hf; subst f. apply fileError_None in H. congruence.
    + rewrite IH. apply fileError_None in He. split.
      * intros H. constructor; [eauto|assumption].
      * intros H. apply Forall_cons in H as [_ H]. exact H.
  - split; [discriminate|]. intros H.
    apply Forall_cons in H as [(f & Hf & _) _]. discriminate Hf.
Qed.

Lemma firstError_Some (files : list (entry Buffer)) (error : Js.str) :
  firstError files = Ok (Some error) ->
  exists good bad rest, files = map FileEntry good ++ FileEntry bad :: rest /\
    Forall acceptable good /\ fileError bad = Some error.
Proof.
  induction files as [|[file|text] rest IH]; simpl; [discriminate| |discriminate].
  destruct (fileError file) eqn:He.
  - intros H. inversion H; subst. exists [], file, rest. repeat split; auto.
  - intros H. destruct (IH H) as (good & bad & rest' & -> & Hg & Hb).
    exists (file :: good), bad, rest'. repeat split; auto.
    constructor; [|exact Hg]. apply fileError_None. exact He.
Qed.

(** The loop throws exactly when a string comes before any file that
    has an error. *)
Lemma firstError_Err (files : list (entry Buffer)) :
  (exists e, firstError files = Err e) <->
  exists good text rest, files = map FileEntry good ++ TextEntry text :: rest /\
    Forall acceptable good.
Proof.
  induction files as [|[file|text] rest IH]; simpl.
  - split; [intros [e H]; discriminate H|].
    intros (good & text & rest & H & _). destruct good; discriminate H.
  - destruct (fileError file) eqn:He.
    + split; [intros [e H]; discriminate H|].
      intros (good & text & rest' & H & Hg).
      destruct good as [|g good]; [discriminate H|].
      simpl in H. inversion H; subst g. apply Forall_cons in Hg as [Hg _].
      apply fileError_None in Hg. congruence.
    + rewrite IH. apply fileError_None in He. split.
      * intros (good & text & rest' & -> & Hg).
        exists (file :: good), text, rest'. split; [reflexivity|].
        constructor; assumption.
      * intros (good & text & rest' & H & Hg).
        destruct good as [|g good]; [discriminate H|].
        simpl in H. inversion H; subst. apply Forall_cons in Hg as [_ Hg].
        exists good, text, rest'. auto.
  - split; [|eauto]. intros _. exists [], text, rest. split; [reflexivity|constructor].
Qed.


Section Extraction.
Context {W : Type}.
Variable extractTextFromPDF : Buffer -> W -> result thrown Js.str * W.
Variable extractFromText : Js.str -> W -> result thrown ExtractedData * W.
Variable extractFromFullPDF : Buffer -> W -> result thrown ExtractedData * W.

Local Abbreviation strategy :=
  (extractFromPDF extractTextFromPDF extractFromText extractFromFullPDF).
Local Abbreviation POST :=
  (Route.POST MAX_FILE_SIZE_MB extractTextFromPDF extractFromText extractFromFullPDF).

(** A record that the cheap tier would not have been trusted with comes
    from the expensive tier. *)
Lemma needsFallback_from_expensive_tier (pdf : Buffer) (w : W) (data : ExtractedData) :
  outcome (strategy pdf w) = Ok data -> needsFallback data = true ->
  In (ExpensiveTier pdf) (log (strategy pdf w)).
Proof.
  unfold extractFromPDF, bind, tryCatch, call, ret, outcome, log.
  destruct (extractTextFromPDF pdf w) as [[text|e] w1]; simpl.
  - destruct (length (Js.trim text) <? MIN_TEXT_LENGTH)%nat.
    + intros _ _. destruct (extractFromFullPDF pdf w1). simpl. auto.
    + destruct (extractFromText text w1) as [[d|e] w2]; simpl.
      * destruct (needsFallback d) eqn:Hn; simpl.
        -- intros _ _. destruct (extractFromFullPDF pdf w2). simpl. auto.
        -- intros H Hd. inversion H; subst. congruence.
      * discriminate.
  - intros _ _. destruct (extractFromFullPDF pdf w1). simpl. auto.
Qed.


End Extraction.
End Limits.



End RouteFacts.

(** ** The page *)

Module ClientFacts.
Import Client.

Lemma before_fromFirst (c : N) (s : Js.str) :
  s = before c s ++ Parser.fromFirst c s /\ c ∉ before c s.
Proof.
  induction s as [|d s [IH1 IH2]]; simpl.
  - split; [reflexivity|apply not_elem_of_nil].
  - destruct (N.eqb_spec d c) as [->|Hne]; simpl.
    + split; [reflexivity|apply not_elem_of_nil].
    + split; [f_equal; exact IH1|].
      apply not_elem_of_cons. split; [congruence|exact IH2].
Qed.

Lemma fromFirst_absent (c : N) (s : Js.str) : c ∉ s -> Parser.fromFirst c s = [].
Proof.
  induction s as [|d s IH]; intros H; [reflexivity|].
  apply not_elem_of_cons in H as [Hd Hs]. simpl.
  destruct (N.eqb_spec d c); [congruence|]. exact (IH Hs).
Qed.

Lemma fromFirst_app (c : N) (pre post : Js.str) :
  c ∉ pre -> Parser.fromFirst c (pre ++ post) = Parser.fromFirst c post.
Proof.
  induction pre as [|d pre IH]; intros H; [reflexivity|].
  apply not_elem_of_cons in H as [Hd Hs]. simpl.
  destruct (N.eqb_spec d c); [congruence|]. exact (IH Hs).
Qed.

Lemma fromFirst_suffix (c : N) (s : Js.str) :
  exists a, s = a ++ Parser.fromFirst c s.
Proof. exists (before c s). apply before_fromFirst. Qed.

(** What follows the last [c] has no [c]. *)
Lemma toLast_after (c : N) (s : Js.str) :
  exists after, s = Parser.toLast c s ++ after /\ c ∉ after.
Proof.
  unfold Parser.toLast.
  destruct (before_fromFirst c (rev s)) as [H1 H2].
  exists (rev (before c (rev s))). split.
  - rewrite <- rev_app_distr, <- H1, rev_involutive. reflexivity.
  - intros Hin. apply H2. apply list_elem_of_In. apply in_rev.
    apply list_elem_of_In. exact Hin.
Qed.

Lemma elem_of_take_elem (c : N) (n : nat) (s : Js.str) : c ∈ take n s -> c ∈ s.
Proof. intros H. rewrite <- (take_drop n s). apply elem_of_app. auto. Qed.

Lemma elem_of_drop_elem (c : N) (n : nat) (s : Js.str) : c ∈ drop n s -> c ∈ s.
Proof. intros H. rewrite <- (take_drop n s). apply elem_of_app. auto. Qed.

Lemma braceFree_take (n : nat) (s : Js.str) : braceFree s -> braceFree (take n s).
Proof.
  intros (pre & post & -> & Hpre & Hpost).
  exists (take n pre), (take (n - length pre) post). split; [apply take_app|].
  split; intros Hin.
  - apply Hpre. eapply elem_of_take_elem. exact Hin.
  - apply Hpost. eapply elem_of_take_elem. exact Hin.
Qed.

Lemma braceFree_drop (n : nat) (s : Js.str) : braceFree s -> braceFree (drop n s).
Proof.
  intros (pre & post & -> & Hpre & Hpost).
  exists (drop n pre), (drop (n - length pre) post). split; [apply drop_app|].
  split; intros Hin.
  - apply Hpre. eapply elem_of_drop_elem. exact Hin.
  - apply Hpost. eapply elem_of_drop_elem. exact Hin.
Qed.

Lemma braceFree_prefix (t b : Js.str) : braceFree (t ++ b) -> braceFree t.
Proof.
  intros H. apply (braceFree_take (length t)) in H.
  rewrite take_app_length in H. exact H.
Qed.

Lemma braceFree_suffix (a t : Js.str) : braceFree (a ++ t) -> braceFree t.
Proof.
  intros H. apply (braceFree_drop (length a)) in H.
  rewrite drop_app_length in H. exact H.
Qed.

Lemma trimStart_suffix (s : Js.str) : exists a, s = a ++ Js.trimStart s.
Proof.
  induction s as [|c s [a IH]]; [exists []; reflexivity|].
  simpl. destruct (Js.isWhiteSpace c).
  - exists (c :: a). simpl. f_equal. exact IH.
  - exists []. reflexivity.
Qed.

Lemma braceFree_trim (s : Js.str) : braceFree s -> braceFree (Js.trim s).
Proof.
  intros H. unfold Js.trim, Js.trimEnd.
  destruct (trimStart_suffix s) as [a Ha].
  destruct (trimStart_suffix (rev (Js.trimStart s))) as [b Hb].
  apply (braceFree_prefix _ (rev b)).
  rewrite <- rev_app_distr, <- Hb, rev_involutive.
  apply (braceFree_suffix a). rewrite <- Ha. exact H.
Qed.

Lemma braceFree_matchBraces (s : Js.str) :
  braceFree s -> Parser.matchBraces s = None.
Proof.
  intros (pre & post & -> & Hpre & Hpost). unfold Parser.matchBraces.
  rewrite fromFirst_app by exact Hpre.
  destruct (fromFirst_suffix 123 post) as [a Ha].
  assert (H : 125%N ∉ Parser.fromFirst 123 post).
  { intros Hin. apply Hpost. rewrite Ha. apply elem_of_app. auto. }
  unfold Parser.toLast. rewrite fromFirst_absent; [reflexivity|].
  intros Hin. apply H. apply list_elem_of_In. apply in_rev.
  apply list_elem_of_In. exact Hin.
Qed.

Lemma braceFree_withoutBraces (msg : Js.str) : braceFree (withoutBraces msg).
Proof.
  unfold withoutBraces, Parser.matchBraces.
  destruct (before_fromFirst 123 msg) as [H1 H2].
  destruct (toLast_after 125 (Parser.fromFirst 123 msg)) as (after & H3 & H4).
  destruct (Parser.toLast 125 (Parser.fromFirst 123 msg)) as [|c m] eqn:Hm.
  - exists (before 123 msg), (Parser.fromFirst 123 msg).
    split; [exact H1|]. split; [exact H2|]. rewrite H3. exact H4.
  - exists (before 123 msg), (drop (length (c :: m)) (Parser.fromFirst 123 msg)).
    split; [reflexivity|]. split; [exact H2|].
    rewrite H3. rewrite drop_app_length. exact H4.
Qed.

Section FriendlyError.
Variable toLowerCase : Js.str -> Js.str.

(** Whatever the message of the server is, the text that the page shows
    for a failed file is not empty, is at most 120 code units long, and
    holds no run from an opening brace to a closing brace: a payload
    between braces is never shown. *)
Theorem friendlyError_is_short_and_plain (msg : Js.str) :
  let shown := friendlyError toLowerCase msg in
  (1 <= length shown <= 120)%nat /\ Parser.matchBraces shown = None.
Proof.
  cbv zeta. unfold friendlyError.
  repeat match goal with
         | |- context [if ?b then _ else _] =>
             lazymatch type of b with
             | bool =>
                 lazymatch b with
                 | (_ <? _)%nat => fail
                 | _ => destruct b; [split; [vm_compute; lia|vm_compute; reflexivity]|]
                 end
             | _ => fail
             end
         end.
  pose proof (braceFree_trim _ (braceFree_withoutBraces msg)) as Hfree.
  set (cleaned := Js.trim (withoutBraces msg)) in *.
  destruct (120 <? length cleaned)%nat eqn:Hlen.
  - apply Nat.ltb_lt in Hlen. split.
    + rewrite length_app, length_take.
      change (length (Js.lit "...")) with 3%nat. lia.
    + apply braceFree_matchBraces.
      destruct (braceFree_take 117 cleaned Hfree) as (pre & post & E & Hpre & Hpost).
      exists pre, (post ++ Js.lit "..."). split; [rewrite E, app_assoc; reflexivity|].
      split; [exact Hpre|].
      intros Hin. apply elem_of_app in Hin as [Hin|Hin]; [exact (Hpost Hin)|].
      vm_compute in Hin. repeat (apply elem_of_cons in Hin as [Hin|Hin]; [discriminate|]).
      inversion Hin.
  - apply Nat.ltb_ge in Hlen. destruct cleaned as [|c cleaned'] eqn:Hc.
    + split; [vm_compute; lia|vm_compute; reflexivity].
    + split; [simpl in *; lia|]. apply braceFree_matchBraces. exact Hfree.
Qed.

End FriendlyError.

End ClientFacts.

(** ** The upload of the page *)

Module UploadFacts.
Import Client.

Section HandleFiles.
Context {Buffer : Type}.
Variable toLowerCase : Js.str -> Js.str.
Variable MAX_FILE_SIZE_MB : Z.
Variable allFiles : list (Route.File Buffer).
Variable replies : list reply.
Variable fileIds : list Js.str.

Local Abbreviation pdfFiles := (Client.pdfFiles allFiles).
Local Abbreviation settle := (Client.settle replies fileIds).
Local Abbreviation success := (Client.success replies fileIds).
Local Abbreviation bad := (Client.bad replies).
Local Abbreviation marked := (Client.marked replies).
Local Abbreviation started := (Client.started allFiles).
Local Abbreviation finish := (Client.finish toLowerCase).
Local Abbreviation handleFiles :=
  (Client.handleFiles toLowerCase MAX_FILE_SIZE_MB allFiles replies fileIds).

Lemma settle_results (p : page) (index : nat) :
  results (settle p index) =
  match success index with
  | Some r => r :: results p
  | None => results p
  end.
Proof.
  unfold Client.settle, Client.success.
  destruct (replies !! index) as [[|message|[|first rest]]|];
    destruct (fileIds !! index); reflexivity.
Qed.

Lemma fold_results (order : list nat) :
  forall p, results (fold_left settle order p)
            = rev (omap success order) ++ results p.
Proof.
  induction order as [|i order IH]; intros p; [reflexivity|].
  cbn [fold_left]. rewrite IH, settle_results.
  change (omap success (i :: order))
    with (match success i with Some r => r :: omap success order
                             | None => omap success order end).
  destruct (success i); [|reflexivity].
  cbn [rev]. rewrite <- app_assoc. reflexivity.
Qed.

Lemma fold_banner (order : list nat) :
  forall p, banner (fold_left settle order p) = banner p.
Proof.
  induction order as [|i order IH]; intros p; [reflexivity|].
  cbn [fold_left]. rewrite IH. unfold Client.settle.
  destruct (replies !! i) as [r|]; [|reflexivity].
  destruct (fileIds !! i) as [fileId|]; [|reflexivity].
  destruct (processOneFile r fileId). reflexivity.
Qed.

Lemma fold_length (order : list nat) :
  forall p, length (fileProgress (fold_left settle order p))
            = length (fileProgress p).
Proof.
  induction order as [|i order IH]; intros p; [reflexivity|].
  cbn [fold_left]. rewrite IH. unfold Client.settle.
  destruct (replies !! i) as [r|]; [|reflexivity].
  destruct (fileIds !! i) as [fileId|]; [|reflexivity].
  destruct (processOneFile r fileId). cbn [fileProgress].
  apply length_alter.
Qed.

Lemma settle_marked (p : page) (settled : list nat) (k : nat) :
  length replies = length fileIds ->
  marked p settled -> marked (settle p k) (settled ++ [k]).
Proof.
  intros Hlen Hm i fp. unfold Client.settle.
  destruct (replies !! k) as [r|] eqn:Hr.
  - destruct (fileIds !! k) as [fileId|] eqn:Hid.
    + destruct (decide (i = k)) as [->|Hne].
      * destruct r as [|message|[|first rest]]; cbn [processOneFile fileProgress];
          rewrite list_lookup_alter_eq; destruct (fileProgress p !! k) as [fp0|] eqn:H0;
          try discriminate; cbn [fmap option_fmap option_map]; intros [= <-];
          unfold Client.bad; rewrite Hr; rewrite ?elem_of_app, ?list_elem_of_singleton.
        -- split; [auto|reflexivity].
        -- split; [auto|reflexivity].
        -- rewrite (Hm k fp0 H0). unfold Client.bad. rewrite Hr.
           split; [intros [_ H]; discriminate|intros [_ H]; discriminate].
        -- split; [discriminate|intros [_ H]; discriminate].
      * destruct (processOneFile r fileId) as [result update]. cbn [fileProgress].
        rewrite list_lookup_alter_ne by congruence. intros H.
        rewrite (Hm i fp H), elem_of_app, list_elem_of_singleton. intuition congruence.
    + intros H. rewrite (Hm i fp H), elem_of_app, list_elem_of_singleton.
      split; [intros [H1 H2]; auto|].
      intros [[H1| ->] H2]; [auto|].
      exfalso. apply lookup_lt_Some in Hr. apply lookup_ge_None in Hid. lia.
  - intros H. rewrite (Hm i fp H), elem_of_app, list_elem_of_singleton.
    split; [intros [H1 H2]; auto|].
    intros [[H1| ->] H2]; [auto|].
    unfold Client.bad in H2. rewrite Hr in H2. discriminate.
Qed.

Lemma fold_marked (order : list nat) :
  length replies = length fileIds ->
  forall p settled, marked p settled ->
  marked (fold_left settle order p) (settled ++ order).
Proof.
  intros Hlen. induction order as [|k order IH]; intros p settled Hm.
  - rewrite app_nil_r. exact Hm.
  - cbn [fold_left].
    replace (settled ++ k :: order) with ((settled ++ [k]) ++ order)
      by (rewrite <- app_assoc; reflexivity).
    apply IH. apply settle_marked; assumption.
Qed.

Lemma started_marked (current : page) : marked (started current) [].
Proof.
  intros i fp H. unfold Client.started in H. cbn [fileProgress] in H.
  rewrite list_lookup_fmap in H.
  destruct (pdfFiles !! i); [|discriminate]. inversion H; subst.
  split; [discriminate|]. intros [Hin _]. inversion Hin.
Qed.

Lemma filter_nil_iff {A} (f : A -> bool) (l : list A) :
  List.filter f l = [] <-> forall i x, l !! i = Some x -> f x = false.
Proof.
  induction l as [|a l IH]; simpl.
  - split; [intros _ i x H; destruct i; discriminate|reflexivity].
  - destruct (f a) eqn:Ha.
    + split; [discriminate|]. intros H. specialize (H 0%nat a eq_refl). congruence.
    + rewrite IH. split.
      * intros H [|i] x Hx; [inversion Hx; subst; exact Ha|exact (H i x Hx)].
      * intros H i x Hx. exact (H (S i) x Hx).
Qed.

(** The files of an upload do not depend on each other.  Whatever the
    order in which the requests settle, every file whose request is
    answered with a row adds that row to the results, before the rows
    that were there, and a file whose request fails takes nothing away:
    the results are the rows of the answered files, the latest to settle
    first, then the earlier results.  The banner stays empty exactly
    when no request failed, and then the list of progress is cleared.
    An upload that fails the checks changes only the banner. *)
Theorem uploads_are_isolated (current : page) (order : list nat) :
  order ≡ₚ seq 0 (length pdfFiles) ->
  length replies = length pdfFiles -> length fileIds = length pdfFiles ->
  let p := handleFiles current order in
  match Client.uploadError MAX_FILE_SIZE_MB allFiles with
  | Some message =>
      p = {| results := results current; fileProgress := fileProgress current;
             banner := Some message |}
  | None =>
      results p = rev (omap success order) ++ results current /\
      (forall i r, success i = Some r -> r ∈ results p) /\
      length (results p)
        = (length (omap success (seq 0 (length pdfFiles))) + length (results current))%nat /\
      (banner p = None <-> forall i, (i < length pdfFiles)%nat -> bad i = false) /\
      (banner p = None -> fileProgress p = [])
  end.
Proof.
  intros Hperm Hr Hid. cbv zeta. unfold Client.handleFiles.
  destruct (Client.uploadError MAX_FILE_SIZE_MB allFiles) as [message|];
    [reflexivity|].
  set (q := fold_left settle order (started current)).
  assert (Hres : results (finish q) = rev (omap success order) ++ results current).
  { unfold Client.finish.
    destruct (List.filter isFailed (fileProgress q)); cbn [results];
      apply (fold_results order (started current)). }
  assert (Hmark : marked q order).
  { apply (fold_marked order ltac:(lia) (started current) []). apply started_marked. }
  assert (Hlenq : length (fileProgress q) = length pdfFiles).
  { unfold q. rewrite fold_length. unfold Client.started. cbn [fileProgress].
    apply length_map. }
  assert (Hban : banner q = None) by apply (fold_banner order (started current)).
  assert (Hnone : List.filter isFailed (fileProgress q) = [] <->
                  forall i, (i < length pdfFiles)%nat -> bad i = false).
  { rewrite filter_nil_iff. split.
    - intros H i Hi. rewrite <- Hlenq in Hi.
      destruct (lookup_lt_is_Some_2 _ _ Hi) as [fp Hfp].
      specialize (H i fp Hfp). destruct (bad i) eqn:Hb; [|reflexivity].
      assert (isFailed fp = true); [|congruence].
      apply (Hmark i fp Hfp). split; [|exact Hb].
      rewrite Hperm. apply elem_of_seq. lia.
    - intros H i fp Hfp. destruct (isFailed fp) eqn:Hf; [|reflexivity].
      apply (Hmark i fp Hfp) in Hf as [_ Hb].
      apply lookup_lt_Some in Hfp. rewrite Hlenq in Hfp.
      rewrite (H i Hfp) in Hb. discriminate. }
  split; [exact Hres|]. split; [|split; [|split]].
  - intros i r Hs. rewrite Hres. apply elem_of_app. left.
    apply list_elem_of_In. apply -> in_rev. apply list_elem_of_In.
    apply list_elem_of_omap. exists i. split; [|exact Hs].
    rewrite Hperm. apply elem_of_seq.
    unfold Client.success in Hs.
    destruct (replies !! i) eqn:E; [|discriminate].
    apply lookup_lt_Some in E. lia.
  - rewrite Hres, length_app, length_rev.
    rewrite (Permutation_length (omap_Permutation success _ _ Hperm)). reflexivity.
  - rewrite <- Hnone. unfold Client.finish.
    destruct (List.filter isFailed (fileProgress q)) eqn:Hf; cbn [banner].
    + split; [reflexivity|intros _; exact Hban].
    + split; discriminate.
  - unfold Client.finish.
    destruct (List.filter isFailed (fileProgress q)); cbn [banner fileProgress];
      [reflexivity|discriminate].
Qed.

End HandleFiles.

Lemma uploads_are_isolated_witness :
  results (Client.handleFiles Js.toLowerCase 20 Samples.twoUploads Samples.twoReplies
             Samples.twoIds Samples.emptyPage [1; 0]%nat)
  = [ {| id := Js.lit "id-a"; row := Samples.exampleRow |} ].
Proof.
  pose proof (uploads_are_isolated Js.toLowerCase 20 Samples.twoUploads
                Samples.twoReplies Samples.twoIds Samples.emptyPage [1; 0]%nat) as H.
  cbv zeta in H.
  change (Client.uploadError 20 Samples.twoUploads) with (@None Js.str) in H.
  cbv iota in H.
  destruct H as (H & _).
  - change (length (Client.pdfFiles Samples.twoUploads)) with 2%nat.
    apply Permutation_swap.
  - reflexivity.
  - reflexivity.
  - rewrite H. reflexivity.
Defined.

End UploadFacts.
